(** * jsenco: the process supervisor and resource monitor of [src/core/process.js]

    A shallow embedding of [createProcess], [pidUsageCallback],
    [handleExecFileResult] and [startProcessesMonitoring], with the module
    state ([PROCESSES]), the engine objects and the process objects kept in
    an explicit store, and the statements of the specification that concern
    them. *)

From stdpp Require Import base option list gmap strings pretty.
From Stdlib Require Import ZArith Ascii Floats.

(** ** JavaScript values *)

(** A JavaScript number as [Math.max], [Math.min] and [<] see it.  Every
    finite double is an integer multiple of 2^-1074, so the finite doubles
    with their order embed in [Z]; the two infinities and NaN are kept
    apart.  This is the type of the samples, which the program only
    compares.  The readings of the clock are subtracted, and the
    subtraction of two doubles rounds: they are binary64 doubles proper,
    the primitive [float] with its [-], [<?] and [<=?]. *)
Inductive num := NaN | NegInf | Fin (z : Z) | PosInf.

#[global] Instance num_eq_dec : EqDecision num.
Proof. solve_decision. Defined.

(** [a < b] on numbers; false as soon as one side is NaN *)
Definition num_lt (a b : num) : bool :=
  match a, b with
  | NaN, _ | _, NaN => false
  | _, NegInf => false
  | NegInf, _ => true
  | PosInf, _ => false
  | Fin _, PosInf => true
  | Fin x, Fin y => bool_decide (x < y)%Z
  end.

(** [Math.max(...values)]: start from -Infinity, NaN is contagious *)
Fixpoint max_from (highest : num) (values : list num) : num :=
  match values with
  | [] => highest
  | NaN :: _ => NaN
  | x :: rest => max_from (if num_lt highest x then x else highest) rest
  end.

(** [Math.min(...values)]: start from +Infinity, NaN is contagious *)
Fixpoint min_from (lowest : num) (values : list num) : num :=
  match values with
  | [] => lowest
  | NaN :: _ => NaN
  | x :: rest => min_from (if num_lt x lowest then x else lowest) rest
  end.

(** [Math.max.apply(null, arr)] *)
Definition Math_max (arr : list num) : num := max_from NegInf arr.
(** [Math.min.apply(null, arr)] *)
Definition Math_min (arr : list num) : num := min_from PosInf arr.

(** Truthiness of a value that is a number or null *)
Definition truthy_num (v : option Z) : bool :=
  match v with Some z => bool_decide (z ≠ 0%Z) | None => false end.

(** [arr.pop()]: the last element (undefined on an empty array) and what is
    left of the array *)
Definition pop {A} (arr : list A) : option A * list A :=
  (last arr, removelast arr).

(** [arr.findIndex(pred)]: the first index that satisfies [pred], else -1 *)
Fixpoint findIndex {A} (pred : A → bool) (arr : list A) : Z :=
  match arr with
  | [] => (-1)%Z
  | x :: rest =>
      if pred x then 0%Z
      else let i := findIndex pred rest in
           if bool_decide (i = (-1)%Z) then (-1)%Z else (1 + i)%Z
  end.

(** [arr.splice(start, deleteCount)]: a negative [start] counts from the
    end of the array *)
Definition splice {A} (start : Z) (deleteCount : nat) (arr : list A) : list A :=
  let len := Z.of_nat (length arr) in
  let s := if bool_decide (start < 0)%Z then Z.max (len + start) 0
           else Z.min start len in
  take (Z.to_nat s) arr ++ drop (Z.to_nat s + deleteCount) arr.

(** [str.replace(/\n/g, ' ')] *)
Fixpoint replace_newlines (str : string) : string :=
  match str with
  | EmptyString => EmptyString
  | String c rest =>
      String (if Ascii.eqb c "010"%char then " "%char else c)
             (replace_newlines rest)
  end.

(** ** The data of the program *)

(** References to objects: process objects, engine objects, callbacks *)
Abbreviation ref := nat (only parsing).
Abbreviation eref := nat (only parsing).
Abbreviation cbref := nat (only parsing).

(** The properties of Node's [ChildProcess] handle that the program and its
    helpers read: [pid] is undefined when the spawn failed, [exitCode] and
    [signalCode] are null until the child has ended. *)
Record ChildProcess := {
  pid : option nat;
  exitCode : option Z;
  signalCode : option string;
  killed : bool
}.

(** [EnTest.Process], the object built in [createProcess]; [startTime] is
    a reading of [performance.now()] *)
Record Process := {
  script : string;
  engine : string;
  childProcess : ChildProcess;
  startTime : float;
  cpuVals : list num;
  memVals : list num;
  isTimedOut : bool
}.

(** [EnTest.ProcessEndResult]: [{code, signal}] from the close handler,
    [{code: null, error}] from the error handler *)
Record ProcessEndResult := {
  code : option Z;
  signal : option string;
  error : option string
}.

(** The [stats] block of a result.  [cpus] and [mems] are the very arrays
    of the process object ([const [cpus, mems] = [process.cpuVals,
    process.memVals]]), so the record keeps the reference of that object. *)
Record TestStats := {
  cpus : ref;
  mems : ref;
  maxCPU : num;
  minCPU : num;
  maxMem : num;
  minMem : num
}.

(** The object pushed on [testsPassed] or [testsFailed] *)
Record TestResult := {
  r_script : string;
  r_stdout : string;
  r_stderr : string;
  status : string;
  extime : float;
  stats : TestStats
}.

(** [EnTest.EngineInfo] *)
Record EngineInfo := {
  name : string;
  path : string;
  testsQueue : list string;
  testsPassed : list TestResult;
  testsFailed : list TestResult
}.

(** What [pidusageTree] hands to its callback: one reading per process of
    the tree *)
Definition Stats := list (num * num).

(** The variables that the handlers registered in one call of
    [createProcess] close over *)
Record Closure := {
  c_engine : eref;
  c_script : string;
  c_callback : cbref;
  c_stdout : string;
  c_stderr : string
}.

(** What the program does to the outside, in order *)
Inductive effect :=
| Spawn (command : string) (args : list string) (child : ref)
| KillProcess (child : ref) (reason : string)
| PidusageTree (child : ref)
| Callback (callback : cbref) (eng : eref)
| ConsoleError (err : string)
| ConsoleWarn (tag msg : string)
| ConsoleLog (name : string) (cpu mem : num)
| PrintOSL (name : string) (cpu mem : num).

#[global] Instance effect_eq_dec : EqDecision effect.
Proof. solve_decision. Defined.

(** The module state: the array [PROCESSES], the objects it and the
    closures refer to, and the effects so far *)
Record State := {
  PROCESSES : list ref;
  heap : gmap ref Process;
  closures : gmap ref Closure;
  engines : gmap eref EngineInfo;
  trace : list effect;
  spawned : nat
}.

Definition set_PROCESSES (arr : list ref) (st : State) : State :=
  {| PROCESSES := arr; heap := heap st; closures := closures st;
     engines := engines st; trace := trace st; spawned := spawned st |}.
Definition set_heap (h : gmap ref Process) (st : State) : State :=
  {| PROCESSES := PROCESSES st; heap := h; closures := closures st;
     engines := engines st; trace := trace st; spawned := spawned st |}.
Definition set_closures (c : gmap ref Closure) (st : State) : State :=
  {| PROCESSES := PROCESSES st; heap := heap st; closures := c;
     engines := engines st; trace := trace st; spawned := spawned st |}.
Definition set_engines (e : gmap eref EngineInfo) (st : State) : State :=
  {| PROCESSES := PROCESSES st; heap := heap st; closures := closures st;
     engines := e; trace := trace st; spawned := spawned st |}.
Definition set_trace (t : list effect) (st : State) : State :=
  {| PROCESSES := PROCESSES st; heap := heap st; closures := closures st;
     engines := engines st; trace := t; spawned := spawned st |}.
Definition set_spawned (n : nat) (st : State) : State :=
  {| PROCESSES := PROCESSES st; heap := heap st; closures := closures st;
     engines := engines st; trace := trace st; spawned := n |}.

(** ** Running a handler: state and exceptions *)

(** [TypeError]: a property of undefined is read.  [Thrown]: what a call of
    the platform throws.  [Dangling]: a reference without an object, which
    no run of the program produces.  An exception that leaves a handler is
    caught nowhere and ends the program: the run ends with it, and the
    state it leaves behind is not kept. *)
Inductive exn := TypeError (reading : string) | Thrown (err : string) | Dangling.

Definition M (A : Type) : Type := State → exn + (A * State).

#[global] Instance M_ret : MRet M := λ A x st, inr (x, st).
#[global] Instance M_bind : MBind M := λ A B k m st,
  match m st with
  | inl e => inl e
  | inr (x, st') => k x st'
  end.

Definition throw {A} (e : exn) : M A := λ _, inl e.
Definition gets {A} (f : State → A) : M A := λ st, inr (f st, st).
Definition modify (f : State → State) : M unit := λ st, inr (tt, f st).

Definition deref {A} (store : State → gmap nat A) (r : nat) : M A :=
  λ st, match store st !! r with
        | Some x => inr (x, st)
        | None => inl Dangling
        end.

Definition emit (x : effect) : M unit :=
  modify (λ st, set_trace (trace st ++ [x]) st).

Definition update_process (r : ref) (f : Process → Process) : M unit :=
  p ← deref heap r;
  modify (λ st, set_heap (<[r := f p]> (heap st)) st).

Definition update_engine (r : eref) (f : EngineInfo → EngineInfo) : M unit :=
  e ← deref engines r;
  modify (λ st, set_engines (<[r := f e]> (engines st)) st).

(** [arr.forEach(body)] over an array that the callback does not change:
    the callback is handed each element with its index, here from the
    index [i] on *)
Fixpoint forEach_from {A} (i : nat) (arr : list A) (body : A → nat → M unit)
    : M unit :=
  match arr with
  | [] => mret tt
  | x :: rest => body x i;; forEach_from (S i) rest body
  end.

Definition forEach {A} (arr : list A) (body : A → nat → M unit) : M unit :=
  forEach_from 0 arr body.

(** ** The collaborators *)

(** [./utils] is not part of the sources at hand, and [spawn],
    [path.basename] and [process.argv] belong to the platform: the program
    is embedded over all of them.  [killProcess] may change the handle it
    is given (Node's [kill] sets [killed]); its call is also recorded in
    the trace.  [spawn] returns the handle of the new child, or throws
    before there is one: Node validates the arguments (a command that is
    the empty string is refused) and throws the errors of the system that
    it does not hand to the [error] event.  It is given the number of
    earlier calls, so that any sequence of outcomes can be returned. *)
Class Collaborators := {
  checkIfProcessExists : ChildProcess → bool;
  checkIfProcessFinishedCorrectly : ChildProcess → bool;
  processPidusageStats : Stats → num * num;
  killProcess : ChildProcess → string → ChildProcess;
  parseTestOutput : string → string → string → string;
  spawn : nat → string → list string → string + ChildProcess;
  basename : string → string;
  ARGS : list string
}.

(** ** The program *)

Section Program.
Context `{Collaborators}.

(** What [performance.now()] yields is an argument of the code that calls
    it: a double, the reading of the monotonic clock at that call.
    [createProcess] reads the clock once; the completion handler reads it
    for the record ([now]), and [createProcess], called for the next
    script, reads it again ([later]); a tick reads it once for every
    element of [PROCESSES] that it examines.  [TIMEOUT] is the number that
    [startProcessesMonitoring] was given. *)

(** [spawn(engine.path, [script], {})] of lines 29-33: the handle, or the
    exception *)
Definition spawn_child (r : ref) (command : string) (args : list string)
    : M ChildProcess :=
  match spawn r command args with
  | inl err => throw (Thrown err)
  | inr childProcess => emit (Spawn command args r);; mret childProcess
  end.

(** Lines 26-76.  The object gets the next free reference; the handlers
    attached to the child are [on_stdout_data], [on_stderr_data],
    [on_close] and [on_error] below, over the closure stored here. *)
Definition createProcess (eng : eref) (script : string) (callback : cbref)
    (now : float) : M ref :=
  e ← deref engines eng;
  r ← gets spawned;
  childProcess ← spawn_child r (path e) [script];
  let process :=
    {| script := basename script;
       engine := name e;
       childProcess := childProcess;
       startTime := now;
       cpuVals := [];
       memVals := [];
       isTimedOut := false |} in
  modify (λ st, set_spawned (S r)
                  (set_closures (<[r := {| c_engine := eng;
                                           c_script := script;
                                           c_callback := callback;
                                           c_stdout := "";
                                           c_stderr := "" |}]> (closures st))
                     (set_heap (<[r := process]> (heap st)) st)));;
  modify (λ st, set_PROCESSES (PROCESSES st ++ [r]) st);;
  mret r.

(** [killProcess(p.childProcess, reason)] *)
Definition kill (p : ref) (reason : string) : M unit :=
  emit (KillProcess p reason);;
  update_process p (λ pr,
    {| script := script pr; engine := engine pr;
       childProcess := killProcess (childProcess pr) reason;
       startTime := startTime pr; cpuVals := cpuVals pr;
       memVals := memVals pr; isTimedOut := isTimedOut pr |}).

(** The test of [findIndex] in line 90:
    [cp.childProcess.pid === p.childProcess.pid] *)
Definition same_pid (st : State) (p : Process) (cp : ref) : bool :=
  match heap st !! cp with
  | Some c => bool_decide (pid (childProcess c) = pid (childProcess p))
  | None => false
  end.

(** Lines 84-103.  [err] is an [Error] (or a message) or null. *)
Definition pidUsageCallback (err : option string) (stats : Stats) (p : ref)
    : M unit :=
  pr ← deref heap p;
  if negb (checkIfProcessExists (childProcess pr)) then mret tt
  else match err with
  | Some e =>
      emit (ConsoleError e);;
      kill p "error";;
      pr ← deref heap p;
      modify (λ st,
        let idx := findIndex (same_pid st pr) (PROCESSES st) in
        set_PROCESSES (splice idx 1 (PROCESSES st)) st)
  | None =>
      let '(cpu, mem) := processPidusageStats stats in
      update_process p (λ pr,
        {| script := script pr; engine := engine pr;
           childProcess := childProcess pr; startTime := startTime pr;
           cpuVals := cpuVals pr ++ [cpu];
           memVals := memVals pr ++ [mem]; isTimedOut := isTimedOut pr |});;
      pr ← deref heap p;
      if bool_decide (head ARGS = Some "debug")
      then emit (ConsoleLog (script pr) cpu mem)
      else emit (PrintOSL (script pr) cpu mem)
  end.

(** The template [`error ${exitCode || signalCode}`] of line 138 *)
Definition error_status (c : ChildProcess) : string :=
  "error " +:+
  (if truthy_num (exitCode c) then
     match exitCode c with Some z => pretty z | None => "null" end
   else
     match signalCode c with Some s => s | None => "null" end).

(** The [stats] block of lines 123-129 and 140-146 *)
Definition make_stats (process : ref) (cpus mems : list num) : TestStats :=
  {| cpus := process; mems := process;
     maxCPU := Math_max cpus;
     minCPU := Math_min cpus;
     maxMem := Math_max mems;
     minMem := Math_min mems |}.

(** The test of line 116; an end result is an object, hence truthy *)
Definition passes (err : option ProcessEndResult) (process : Process) : bool :=
  negb (bool_decide (is_Some err))
  && checkIfProcessFinishedCorrectly (childProcess process).

(** The object of lines 117-130 *)
Definition success_record (e : EngineInfo) (script stdout stderr : string)
    (now : float) (pr : ref) (process : Process) : TestResult :=
  {| r_script := script;
     r_stdout := parseTestOutput (name e) script stdout;
     r_stderr := stderr;
     status := "success";
     extime := (now - startTime process)%float;
     stats := make_stats pr (cpuVals process) (memVals process) |}.

(** The object of lines 132-147 *)
Definition failure_record (script stdout stderr : string)
    (now : float) (pr : ref) (process : Process) : TestResult :=
  {| r_script := script;
     r_stdout := replace_newlines stdout;
     r_stderr := stderr;
     status := if isTimedOut process then "timeout"
               else error_status (childProcess process);
     extime := (now - startTime process)%float;
     stats := make_stats pr (cpuVals process) (memVals process) |}.

(** [engine.testsPassed.push(r)] *)
Definition push_passed (r : TestResult) (e : EngineInfo) : EngineInfo :=
  {| name := name e; path := path e; testsQueue := testsQueue e;
     testsPassed := testsPassed e ++ [r]; testsFailed := testsFailed e |}.

(** [engine.testsFailed.push(r)] *)
Definition push_failed (r : TestResult) (e : EngineInfo) : EngineInfo :=
  {| name := name e; path := path e; testsQueue := testsQueue e;
     testsPassed := testsPassed e; testsFailed := testsFailed e ++ [r] |}.

(** What [engine.testsQueue.pop()] leaves in the engine *)
Definition set_testsQueue (q : list string) (e : EngineInfo) : EngineInfo :=
  {| name := name e; path := path e; testsQueue := q;
     testsPassed := testsPassed e; testsFailed := testsFailed e |}.

(** [PROCESSES.pop()] *)
Definition PROCESSES_pop : M (option ref) :=
  λ st, inr ((pop (PROCESSES st)).1,
             set_PROCESSES (pop (PROCESSES st)).2 st).

(** [engine.testsQueue.pop()] *)
Definition testsQueue_pop (eng : eref) : M (option string) :=
  e ← deref engines eng;
  update_engine eng (set_testsQueue (pop (testsQueue e)).2);;
  mret (pop (testsQueue e)).1.

(** Lines 113-154.  On an empty [PROCESSES], [pop] yields undefined and
    line 115 throws.  ([spawn] would throw on an undefined script, which
    the test of the length of the queue excludes; what it throws on the
    script of the queue leaves [createProcess] and the handler.) *)
Definition handleExecFileResult (eng : eref) (script : string)
    (err : option ProcessEndResult) (stdout stderr : string)
    (callback : cbref) (now later : float) : M unit :=
  popped ← PROCESSES_pop;
  match popped with
  | None => throw (TypeError "cpuVals")
  | Some pr =>
      process ← deref heap pr;
      (if passes err process then
         update_engine eng (λ e,
           push_passed
             (success_record e script stdout stderr now pr process) e)
       else
         update_engine eng
           (push_failed (failure_record script stdout stderr now pr process)));;
      e ← deref engines eng;
      if bool_decide (length (testsQueue e) = 0) then
        emit (Callback callback eng)
      else
        next ← testsQueue_pop eng;
        match next with
        | None => throw (TypeError "args")
        | Some script' => createProcess eng script' callback later;; mret tt
        end
  end.

(** The engine after lines 116-148: one record more, on one of the two
    arrays *)
Definition with_result (e : EngineInfo) (script : string)
    (err : option ProcessEndResult) (stdout stderr : string) (now : float)
    (pr : ref) (process : Process) : EngineInfo :=
  if passes err process
  then push_passed (success_record e script stdout stderr now pr process) e
  else push_failed (failure_record script stdout stderr now pr process) e.

(** The process object of lines 34-42, around the handle that [spawn] has
    returned *)
Definition new_process (e : EngineInfo) (child : ChildProcess)
    (script : string) (now : float) : Process :=
  {| script := basename script; engine := name e;
     childProcess := child;
     startTime := now; cpuVals := []; memVals := []; isTimedOut := false |}.

(** [spawn] returns a child for the script that the completion handler
    takes next from the queue of [e], if there is one *)
Definition spawns_next (st : State) (e : EngineInfo) : Prop :=
  ∀ s, last (testsQueue e) = Some s →
       ∃ child, spawn (spawned st) (path e) [s] = inr child.

(** [spawn] returns a child whenever it is handed the path of [e] and the
    script [s] *)
Definition accepts (e : EngineInfo) (s : string) : Prop :=
  ∀ n, ∃ child, spawn n (path e) [s] = inr child.

(** Lines 46-48 and 49-51: the [data] handlers of the child's streams *)
Definition on_stdout_data (child : ref) (data : string) : M unit :=
  c ← deref closures child;
  modify (λ st, set_closures (<[child :=
    {| c_engine := c_engine c; c_script := c_script c;
       c_callback := c_callback c; c_stdout := c_stdout c +:+ data;
       c_stderr := c_stderr c |}]> (closures st)) st).

Definition on_stderr_data (child : ref) (data : string) : M unit :=
  c ← deref closures child;
  modify (λ st, set_closures (<[child :=
    {| c_engine := c_engine c; c_script := c_script c;
       c_callback := c_callback c; c_stdout := c_stdout c;
       c_stderr := c_stderr c +:+ data |}]> (closures st)) st).

(** Lines 53-63: the [close] handler *)
Definition on_close (child : ref) (code : option Z) (signal : option string)
    (now later : float) : M unit :=
  c ← deref closures child;
  if bool_decide (code ≠ Some 0%Z) then
    let processEndResult :=
      {| code := if truthy_num code then code else None;
         signal := signal;
         error := None |} in
    handleExecFileResult (c_engine c) (c_script c) (Some processEndResult)
      (c_stdout c) (c_stderr c) (c_callback c) now later
  else
    handleExecFileResult (c_engine c) (c_script c) None
      (c_stdout c) (c_stderr c) (c_callback c) now later.

(** Lines 65-73: the [error] handler; [err] is the [Error] or a falsy
    value *)
Definition on_error (child : ref) (err : option string)
    (now later : float) : M unit :=
  c ← deref closures child;
  match err with
  | Some e =>
      let processEndResult :=
        {| code := None; signal := None; error := Some e |} in
      handleExecFileResult (c_engine c) (c_script c) (Some processEndResult)
        (c_stdout c) (c_stderr c) (c_callback c) now later
  | None => mret tt
  end.

(** Lines 163-178: what one tick does with one element of [PROCESSES] *)
Definition monitor (TIMEOUT now : float) (cp : ref) : M unit :=
  p ← deref heap cp;
  if checkIfProcessExists (childProcess p) then
    if (now - startTime p <? TIMEOUT)%float then
      emit (PidusageTree cp)
    else
      kill cp (script p +:+ " timeout");;
      update_process cp (λ pr,
        {| script := script pr; engine := engine pr;
           childProcess := childProcess pr; startTime := startTime pr;
           cpuVals := cpuVals pr; memVals := memVals pr;
           isTimedOut := true |})
  else mret tt.

(** Lines 162-179: one firing of the interval of
    [startProcessesMonitoring]; [now i] is what [performance.now()] yields
    when the element of index [i] is examined *)
Definition tick (TIMEOUT : float) (now : nat → float) : M unit :=
  arr ← gets PROCESSES;
  forEach arr (λ cp i, monitor TIMEOUT (now i) cp).

(** Lines 168-172: the [catch] of the promise of [pidusageTree] *)
Definition on_usage_rejected (cp : ref) : M unit :=
  p ← deref heap cp;
  if bool_decide (length (cpuVals p) + length (memVals p) = 0) then
    emit (ConsoleWarn "#WARN: " (engine p +:+ ":" +:+ script p +:+
      " test ended too quickly. CPU and Memory data will be not available."))
  else mret tt.

(** ** What reaches the program *)

(** The calls and events that run the code: the harness calls
    [createProcess], the child's streams and the child itself emit events,
    Node stores the exit code or the signal on the handle when the child
    ends ([pid] and [killed] stay as they are), the interval fires, and
    [pidusageTree] answers through its callback or by rejecting. *)
Inductive event :=
| CreateProcess (eng : eref) (script : string) (callback : cbref)
| StdoutData (child : ref) (data : string)
| StderrData (child : ref) (data : string)
| Exited (child : ref) (code : option Z) (signal : option string)
| Close (child : ref) (code : option Z) (signal : option string)
| Error (child : ref) (err : option string)
| Tick (TIMEOUT : float)
| Usage (child : ref) (err : option string) (stats : Stats)
| UsageRejected (child : ref).

Definition step (ev : event) (now : nat → float) : M unit :=
  match ev with
  | CreateProcess eng script callback =>
      createProcess eng script callback (now 0);; mret tt
  | StdoutData child data => on_stdout_data child data
  | StderrData child data => on_stderr_data child data
  | Exited child code signal =>
      update_process child (λ pr,
        {| script := script pr; engine := engine pr;
           childProcess :=
             {| pid := pid (childProcess pr); exitCode := code;
                signalCode := signal; killed := killed (childProcess pr) |};
           startTime := startTime pr;
           cpuVals := cpuVals pr; memVals := memVals pr;
           isTimedOut := isTimedOut pr |})
  | Close child code signal => on_close child code signal (now 0) (now 1)
  | Error child err => on_error child err (now 0) (now 1)
  | Tick TIMEOUT => tick TIMEOUT now
  | Usage child err stats => pidUsageCallback err stats child
  | UsageRejected child => on_usage_rejected child
  end.

(** Events in order, each with the readings of the clock while its handler
    runs: [now 0] is what the first call of [performance.now()] in the
    handler yields and [now 1] what the second one yields; in a tick,
    [now k] is what the call made for the element of index [k] yields *)
Fixpoint run (evs : list (event * (nat → float))) : M unit :=
  match evs with
  | [] => mret tt
  | (ev, now) :: rest => step ev now;; run rest
  end.

(** The state when the module is loaded, with the engines the harness set
    up *)
Definition initial (engs : gmap eref EngineInfo) : State :=
  {| PROCESSES := []; heap := ∅; closures := ∅; engines := engs;
     trace := []; spawned := 0 |}.

(** The states the program can be in *)
Inductive reachable : State → Prop :=
| reachable_initial engs : reachable (initial engs)
| reachable_step st ev now st' :
    reachable st → step ev now st = inr (tt, st') → reachable st'.

End Program.

(** ** Sample collaborators and runs *)

(** [+] on numbers *)
Definition num_add (a b : num) : num :=
  match a, b with
  | NaN, _ | _, NaN => NaN
  | PosInf, NegInf | NegInf, PosInf => NaN
  | PosInf, _ | _, PosInf => PosInf
  | NegInf, _ | _, NegInf => NegInf
  | Fin x, Fin y => Fin (x + y)
  end.

(** The last segment of a path *)
Fixpoint last_segment (seen : string) (p : string) : string :=
  match p with
  | EmptyString => seen
  | String c rest =>
      if Ascii.eqb c "/"%char then last_segment "" rest
      else last_segment (seen +:+ String c "") rest
  end.

(** Modelled from the spec: the helpers of [./utils], which is not among
    the sources, as section 6 of the specification describes them.  The
    liveness predicate holds of a handle of a started child that has no
    exit code and no signal yet.  The verdict predicate holds of a clean
    termination, which is stricter than exit code 0: the code is 0, no
    signal has ended the child, and the child was not killed.  The
    reduction of the readings is the sum across the tree; the kill
    primitive terminates the child, which Node marks on the handle; the
    output parser keeps the output.  [spawn] refuses the empty command as
    Node does; the command [/no/such/engine] gives a handle without a pid
    (the failure comes with the [error] event), and any other command
    starts a child with a fresh pid. *)
Definition sample : Collaborators := {|
  checkIfProcessExists c :=
    bool_decide (is_Some (pid c) ∧ exitCode c = None ∧ signalCode c = None);
  checkIfProcessFinishedCorrectly c :=
    bool_decide (exitCode c = Some 0%Z ∧ signalCode c = None
                 ∧ killed c = false);
  processPidusageStats stats :=
    (foldr num_add (Fin 0) stats.*1, foldr num_add (Fin 0) stats.*2);
  killProcess c _ :=
    {| pid := pid c; exitCode := exitCode c; signalCode := signalCode c;
       killed := true |};
  parseTestOutput _ _ stdout := stdout;
  spawn n command _ :=
    if bool_decide (command = "") then inl "ERR_INVALID_ARG_VALUE"
    else inr {| pid := if bool_decide (command = "/no/such/engine") then None
                       else Some (1000 + n);
                exitCode := None; signalCode := None; killed := false |};
  basename := last_segment "";
  ARGS := []
|}.

Definition engine_v8 : EngineInfo :=
  {| name := "v8"; path := "/usr/bin/d8"; testsQueue := [];
     testsPassed := []; testsFailed := [] |}.

Definition engine_jsc : EngineInfo :=
  {| name := "jsc"; path := "/usr/bin/jsc"; testsQueue := [];
     testsPassed := []; testsFailed := [] |}.

(** Two engines started side by side, one script each *)
Definition two_engines : State :=
  initial (<[0 := engine_v8]> (<[1 := engine_jsc]> ∅)).

(** A handler during which every call of [performance.now()] yields [t] *)
Definition steady (t : float) : nat → float := λ _, t.

(** A handler whose first call of [performance.now()] yields [t], and
    every other call [later] *)
Definition first_then (t later : float) : nat → float :=
  λ k, match k with 0 => t | S _ => later end.

(** The scripts of an engine, in the order of its array *)
Definition with_queue (q : list string) (e : EngineInfo) : EngineInfo :=
  set_testsQueue q e.

(** The scripts that a trace spawned, in order *)
Definition spawned_scripts (tr : list effect) : list string :=
  flat_map (λ x, match x with Spawn _ args _ => args | _ => [] end) tr.

(** The calls of the callbacks in a trace, in order *)
Definition callbacks (tr : list effect) : list (cbref * eref) :=
  flat_map (λ x, match x with Callback cb eng => [(cb, eng)] | _ => [] end) tr.

(** The [close] events of the children [child], [child + 1], ..., one per
    outcome *)
Fixpoint closes (child : ref)
    (outs : list (option Z * option string * (nat → float)))
    : list (event * (nat → float)) :=
  match outs with
  | [] => []
  | (code, signal, now) :: rest =>
      (Close child code signal, now) :: closes (S child) rest
  end.

(** The spawns of [scripts] in order, the first one as child [child] *)
Fixpoint spawns (command : string) (child : ref) (scripts : list string)
    : list effect :=
  match scripts with
  | [] => []
  | s :: rest => Spawn command [s] child :: spawns command (S child) rest
  end.

(** The state after a run, when it does not throw *)
Definition after `{Collaborators} (evs : list (event * (nat → float)))
    (st : State)
    : State :=
  match run evs st with
  | inr (_, st') => st'
  | inl _ => st
  end.

(** *** Sample runs *)

(** The child of [v8] closes with code 0 while the child of [jsc], started
    after it and sampled once, is still running *)
Definition crossed_exit : list (event * (nat → float)) :=
  [ (CreateProcess 0 "tests/a.js" 7, steady 0);
    (CreateProcess 1 "tests/b.js" 8, steady 1);
    (Tick 5000, steady 500);
    (Usage 1 None [(Fin 50, Fin 7)], steady 510);
    (Exited 0 (Some 0%Z) None, steady 600) ].

Definition crossed : list (event * (nat → float)) :=
  crossed_exit ++ [ (Close 0 (Some 0%Z) None, steady 601) ].

(** An engine whose executable does not exist, with one more script
    queued *)
Definition engine_missing : EngineInfo :=
  {| name := "missing"; path := "/no/such/engine";
     testsQueue := ["tests/b.js"]; testsPassed := []; testsFailed := [] |}.

Definition one_missing : State := initial (<[0 := engine_missing]> ∅).

(** The same engine with its last script at work, beside [v8] *)
Definition engine_missing_last : EngineInfo :=
  {| name := "missing"; path := "/no/such/engine";
     testsQueue := []; testsPassed := []; testsFailed := [] |}.

Definition v8_and_missing : State :=
  initial (<[0 := engine_v8]> (<[1 := engine_missing_last]> ∅)).

(** The harness starts one script per engine.  The spawn of the second
    engine fails: on the next tick Node stores the error number (-2 for
    ENOENT) as exit code and emits [error], and when the streams of the
    child are closed it emits [close], for the same child; the child of
    [v8] runs all the while *)
Definition error_then_close : list (event * (nat → float)) :=
  [ (CreateProcess 0 "tests/a.js" 7, steady 0);
    (CreateProcess 1 "tests/b.js" 8, steady 1);
    (Exited 1 (Some (-2)%Z) None, steady 2);
    (Error 1 (Some "spawn /no/such/engine ENOENT"), steady 2);
    (Close 1 (Some (-2)%Z) None, steady 3) ].

(** One engine whose executable does not exist, with one more script
    queued: in the order of Node, the [error] of the first child, which
    spawns the second one, and the [error] of that one come before the
    [close] of either *)
Definition missing_in_order : list (event * (nat → float)) :=
  [ (CreateProcess 0 "tests/a.js" 7, steady 0);
    (Exited 0 (Some (-2)%Z) None, steady 1);
    (Error 0 (Some "spawn /no/such/engine ENOENT"), steady 1);
    (Exited 1 (Some (-2)%Z) None, steady 2);
    (Error 1 (Some "spawn /no/such/engine ENOENT"), steady 2) ].

(** An engine with two scripts queued, [a.js] before [b.js] *)
Definition engine_queued : EngineInfo :=
  with_queue ["tests/a.js"; "tests/b.js"] engine_v8.

Definition one_queued : State := initial (<[0 := engine_queued]> ∅).

(** The harness starts a first script; every child exits with code 0 *)
Definition three_closes : list (event * (nat → float)) :=
  (CreateProcess 0 "tests/first.js" 7, steady 0)
  :: closes 0 [(Some 0%Z, None, steady 10); (Some 0%Z, None, steady 20);
               (Some 0%Z, None, steady 30)].

Definition one_v8 : State := initial (<[0 := engine_v8]> ∅).

(** An engine whose path was left empty *)
Definition engine_unset : EngineInfo :=
  {| name := "unset"; path := ""; testsQueue := [];
     testsPassed := []; testsFailed := [] |}.

Definition one_unset : State := initial (<[0 := engine_unset]> ∅).

(** A child started at the reading 0.2 (the double next to it); the tick
    that follows fires at 5000.2 (likewise) *)
Definition started_at_0_2 : list (event * (nat → float)) :=
  [ (CreateProcess 0 "tests/a.js" 7, steady 0x1.999999999999ap-3) ].

Definition reading_5000_2 : float := 0x1.3883333333333p+12%float.

(** The tick finds the child over time, kills it and flags it *)
Definition timed_out : list (event * (nat → float)) :=
  [ (CreateProcess 0 "tests/slow.js" 7, steady 0);
    (Tick 2000, steady 2000) ].



(** A child that has written a line and exited with [code], before its
    [close] is handled *)
Definition exits_with (code : Z) : list (event * (nat → float)) :=
  [ (CreateProcess 0 "tests/a.js" 7, steady 0);
    (StdoutData 0 "ok", steady 3);
    (Exited 0 (Some code) None, steady 5) ].

(** Both engines have started their script *)
Definition both_started : list (event * (nat → float)) :=
  [ (CreateProcess 0 "tests/a.js" 7, steady 0);
    (CreateProcess 1 "tests/b.js" 8, steady 1) ].

(** The query fails for a running child: the monitor kills it and takes it
    out of [PROCESSES]; the [close] of the killed child follows *)
Definition query_error : list (event * (nat → float)) :=
  [ (CreateProcess 0 "tests/a.js" 7, steady 0);
    (Tick 5000, steady 500);
    (Usage 0 (Some "EPERM") [], steady 510) ].

Definition close_after_kill : list (event * (nat → float)) :=
  query_error ++
  [ (Exited 0 None (Some "SIGKILL"), steady 520);
    (Close 0 None (Some "SIGKILL"), steady 521) ].

(** The same with a second engine at work *)
Definition close_after_kill_beside : list (event * (nat → float)) :=
  [ (CreateProcess 0 "tests/a.js" 7, steady 0);
    (CreateProcess 1 "tests/b.js" 8, steady 1);
    (Tick 5000, steady 500);
    (Usage 1 None [(Fin 50, Fin 7)], steady 505);
    (Usage 0 (Some "EPERM") [], steady 510);
    (Exited 0 None (Some "SIGKILL"), steady 520);
    (Close 0 None (Some "SIGKILL"), steady 521) ].

(** One running child with two samples *)
Definition sampled_twice : list (event * (nat → float)) :=
  [ (CreateProcess 0 "tests/a.js" 7, steady 0);
    (Tick 5000, steady 500);
    (Usage 0 None [(Fin 30, Fin 4); (Fin 12, Fin 1)], steady 510);
    (Tick 5000, steady 1000);
    (Usage 0 None [(Fin 20, Fin 9)], steady 1010) ].

(** ** The handlers in one piece *)

(** The end result that the [close] handler of lines 53-63 passes on *)
Definition end_result_of_close (code : option Z) (signal : option string)
    : option ProcessEndResult :=
  if bool_decide (code ≠ Some 0%Z)
  then Some {| code := if truthy_num code then code else None;
               signal := signal; error := None |}
  else None.

Section Outcomes.
Context `{Collaborators}.

(** A process object after [killProcess(p.childProcess, reason)] *)
Definition killed_process (reason : string) (pr : Process) : Process :=
  {| script := script pr; engine := engine pr;
     childProcess := killProcess (childProcess pr) reason;
     startTime := startTime pr; cpuVals := cpuVals pr;
     memVals := memVals pr; isTimedOut := isTimedOut pr |}.

(** A process object after lines 96-97 *)
Definition sampled (reading : num * num) (pr : Process) : Process :=
  {| script := script pr; engine := engine pr;
     childProcess := childProcess pr; startTime := startTime pr;
     cpuVals := cpuVals pr ++ [reading.1];
     memVals := memVals pr ++ [reading.2]; isTimedOut := isTimedOut pr |}.

(** A process object after one tick of the monitor *)
Definition monitored (TIMEOUT now : float) (p : Process) : Process :=
  if checkIfProcessExists (childProcess p)
     && negb (now - startTime p <? TIMEOUT)%float
  then {| script := script p; engine := engine p;
          childProcess := killProcess (childProcess p) (script p +:+ " timeout");
          startTime := startTime p; cpuVals := cpuVals p;
          memVals := memVals p; isTimedOut := true |}
  else p.

(** What one tick does to the outside for one element of [PROCESSES] *)
Definition monitor_effects (TIMEOUT now : float) (st : State) (cp : ref)
    : list effect :=
  match heap st !! cp with
  | Some p =>
      if checkIfProcessExists (childProcess p) then
        if (now - startTime p <? TIMEOUT)%float
        then [PidusageTree cp]
        else [KillProcess cp (script p +:+ " timeout")]
      else []
  | None => []
  end.

End Outcomes.

(** ** Well-formed states *)

(** Every process has as many cpu samples as memory samples *)
Definition paired (st : State) : Prop :=
  ∀ r p, heap st !! r = Some p → length (cpuVals p) = length (memVals p).

(** What holds of the store in every state the program reaches: samples
    come in pairs, no object is twice in [PROCESSES], and every reference
    handed out so far has its object and its closure *)
Record wf (st : State) : Prop := {
  wf_paired : paired st;
  wf_NoDup : NoDup (PROCESSES st);
  wf_bound : ∀ r, r ∈ PROCESSES st → r < spawned st;
  wf_heap : ∀ r, r < spawned st → is_Some (heap st !! r);
  wf_closures : ∀ r, r < spawned st → is_Some (closures st !! r)
}.




(** A computation that keeps [I] whenever it returns *)
Definition preserves (I : State → Prop) {A} (m : M A) : Prop :=
  ∀ st x st', I st → m st = inr (x, st') → I st'.

(** ** The scripts under [src/tests] *)

(** [str.slice(start)]: a negative [start] counts from the end; the
    characters of a string stand for its code units *)
Definition slice (start : Z) (str : string) : string :=
  let len := Z.of_nat (String.length str) in
  let from := if bool_decide (start < 0)%Z then Z.max (len + start) 0
              else Z.min start len in
  String.substring (Z.to_nat from) (Z.to_nat (Z.max (len - from) 0)) str.

(** [sliced_strings.slice1.js], line 9: the function handed to [Test] *)
Definition clear_with_slice (str : string) : string :=
  slice 1 (" " +:+ str).

(** [sliced_strings.slice1_enhanced.js], line 7 *)
Definition clear_with_slice_checked (str : string) : string :=
  if bool_decide (String.length str < 12) then str
  else slice 1 (" " +:+ str).

(** ** States one after the other *)

(** A computation whose every return relates the state before to the state
    after *)
Definition transits (R : State → State → Prop) {A} (m : M A) : Prop :=
  ∀ st x st', m st = inr (x, st') → R st st'.

(** No object lies at or beyond the next reference *)
Definition fresh (st : State) : Prop :=
  ∀ r, spawned st ≤ r → heap st !! r = None ∧ closures st !! r = None.

(** A process object later on: the same script, engine and start time,
    the samples of before followed by newer ones, the flag still set if it
    was *)
Record process_grows (p p' : Process) : Prop := {
  grows_script : script p' = script p;
  grows_engine : engine p' = engine p;
  grows_startTime : startTime p' = startTime p;
  grows_cpuVals : cpuVals p `prefix_of` cpuVals p';
  grows_memVals : memVals p `prefix_of` memVals p';
  grows_isTimedOut : isTimedOut p = true → isTimedOut p' = true
}.

Definition processes_grow (st st' : State) : Prop :=
  ∀ r p, heap st !! r = Some p →
         ∃ p', heap st' !! r = Some p' ∧ process_grows p p'.

(** An engine later on: the same name and path, the records of before
    followed by newer ones, and a queue that has lost scripts at its end *)
Record engine_grows (e e' : EngineInfo) : Prop := {
  grows_name : name e' = name e;
  grows_path : path e' = path e;
  grows_testsPassed : testsPassed e `prefix_of` testsPassed e';
  grows_testsFailed : testsFailed e `prefix_of` testsFailed e';
  grows_testsQueue : testsQueue e' `prefix_of` testsQueue e
}.

Definition engines_grow (st st' : State) : Prop :=
  ∀ eng e, engines st !! eng = Some e →
           ∃ e', engines st' !! eng = Some e' ∧ engine_grows e e'.

(** The store ages: no object appears out of turn, and the process
    objects grow *)
Definition ages (st st' : State) : Prop :=
  fresh st → fresh st' ∧ processes_grow st st'.

(** Nothing is called back between two states *)
Definition quiet (st st' : State) : Prop :=
  ∃ new, trace st' = trace st ++ new ∧ callbacks new = [].

(** A relation between states that every elementary change of the program
    satisfies, as long as the effects it emits are among [allowed], the
    process objects grow, the engines change within [within] and the new
    process objects are among [born] *)
Class Closed (allowed : effect → Prop)
    (within : EngineInfo → EngineInfo → Prop)
    (born : Process → Prop)
    (R : State → State → Prop) : Prop := {
  closed_refl : ∀ st, R st st;
  closed_trans : ∀ st1 st2 st3, R st1 st2 → R st2 st3 → R st1 st3;
  closed_trace : ∀ st x, allowed x → R st (set_trace (trace st ++ [x]) st);
  closed_PROCESSES : ∀ st arr, R st (set_PROCESSES arr st);
  closed_closures : ∀ st r c c',
    closures st !! r = Some c →
    R st (set_closures (<[r := c']> (closures st)) st);
  closed_heap : ∀ st r p p',
    heap st !! r = Some p → process_grows p p' →
    R st (set_heap (<[r := p']> (heap st)) st);
  closed_engines : ∀ st r e e',
    engines st !! r = Some e → within e e' →
    R st (set_engines (<[r := e']> (engines st)) st);
  closed_create : ∀ st p c x,
    allowed x → born p →
    R st {| PROCESSES := PROCESSES st ++ [spawned st];
            heap := <[spawned st := p]> (heap st);
            closures := <[spawned st := c]> (closures st);
            engines := engines st;
            trace := trace st ++ [x];
            spawned := S (spawned st) |}
}.

(** The events of the streams of the children *)
Definition is_data (ev : event) : bool :=
  match ev with
  | StdoutData _ _ | StderrData _ _ => true
  | _ => false
  end.

(** The events that run the completion handler *)
Definition is_completion (ev : event) : bool :=
  match ev with
  | Close _ _ _ | Error _ _ => true
  | _ => false
  end.

(** What the events hand to one stream of one child, in order *)
Fixpoint written (child : ref) (stderr : bool)
    (evs : list (event * (nat → float)))
    : string :=
  match evs with
  | [] => ""
  | (StdoutData c data, _) :: rest =>
      (if bool_decide (c = child) && negb stderr then data else "")
      +:+ written child stderr rest
  | (StderrData c data, _) :: rest =>
      (if bool_decide (c = child) && stderr then data else "")
      +:+ written child stderr rest
  | _ :: rest => written child stderr rest
  end.

(** The child an event of a stream comes from *)
Definition data_child (ev : event) : option ref :=
  match ev with
  | StdoutData c _ | StderrData c _ => Some c
  | _ => None
  end.

(** A reading of [performance.now()]: a finite double that is not
    negative *)
Definition reading (t : float) : Prop :=
  (0 <=? t)%float = true ∧ (t <? infinity)%float = true.

(** One handler is over before the readings of the other: whatever a call
    of the first yields is at most whatever a call of the second yields *)
Definition precedes (now later : nat → float) : Prop :=
  ∀ j k, (now j <=? later k)%float = true.

(** The clock never goes back from one handler to a later one: what the
    calls in the handler of an event yield are readings, each at most what
    every call in the handlers of the later events yields *)
Fixpoint clock (evs : list (event * (nat → float))) : Prop :=
  match evs with
  | [] => True
  | (_, now) :: rest =>
      (∀ k, reading (now k)) ∧ Forall (λ ev, precedes now ev.2) rest ∧
      clock rest
  end.

(** Every process has started at a reading that is at most whatever the
    calls in each of the handlers [ts] yield *)
Definition started_before (ts : list (nat → float)) (st : State) : Prop :=
  ∀ r p, heap st !! r = Some p →
         reading (startTime p) ∧
         Forall (λ now : nat → float,
                   ∀ k, (startTime p <=? now k)%float = true) ts.

(** No record has a negative [extime] *)
Definition elapsed_ok (st : State) : Prop :=
  ∀ eng e r, engines st !! eng = Some e →
             r ∈ testsPassed e ++ testsFailed e →
             (0 <=? extime r)%float = true.

(** The store before the handlers [ts]: what has started has started
    before their readings, and no elapsed time is negative *)
Definition timely (ts : list (nat → float)) (st : State) : Prop :=
  started_before ts st ∧ elapsed_ok st.

(** A double that is finite and not negative, and one that is not
    negative, in the representation of the specification of the doubles *)
Definition finite_nonneg (x : spec_float) : Prop :=
  match x with
  | S754_zero _ | S754_finite false _ _ => True
  | _ => False
  end.

Definition not_negative (x : spec_float) : Prop :=
  match x with
  | S754_zero _ | S754_finite false _ _ | S754_infinity false => True
  | _ => False
  end.

(** What a child writes: each chunk on stderr ([true]) or stdout, with the
    clock reading of its event *)
Definition outputs (child : ref) (chunks : list (bool * string * float))
    : list (event * (nat → float)) :=
  map (λ c : bool * string * float,
         ((if c.1.1 then StderrData else StdoutData) child c.1.2,
          steady c.2))
      chunks.


(** *** More sample runs *)

(** The child of [v8] has closed while the child of [jsc] was the last of
    [PROCESSES]: the process of [jsc], still running, is no longer
    registered, the one of [v8] is *)
Definition crossed_over : list (event * (nat → float)) :=
  both_started ++
  [ (Exited 0 (Some 0%Z) None, steady 600);
    (Close 0 (Some 0%Z) None, steady 601) ].

(** Both children write *)
Definition chatter : list (event * (nat → float)) :=
  [ (StdoutData 0 "a", steady 2); (StderrData 0 "x", steady 3);
    (StdoutData 1 "b", steady 4); (StdoutData 0 "c", steady 5) ].

(** The flagged child is sampled once more and its handle changes before
    it closes *)
Definition flagged_then_busy : list (event * (nat → float)) :=
  [ (Usage 0 None [(Fin 3, Fin 4)], steady 2001);
    (StdoutData 0 "late", steady 2002);
    (Tick 2000, steady 2500);
    (Exited 0 None (Some "SIGTERM"), steady 2600) ].

(** * Properties *)

(** ** Arrays and numbers *)

Lemma pop_snoc {A} (arr : list A) x : pop (arr ++ [x]) = (Some x, arr).
Proof. unfold pop. by rewrite last_snoc, removelast_last. Qed.

Lemma pop_empty {A} (arr : list A) : (pop arr).1 = None → arr = [].
Proof.
  unfold pop. simpl. destruct arr as [|x arr] using rev_ind; [done|].
  by rewrite last_snoc.
Qed.

Lemma removelast_sublist {A} (arr : list A) : sublist (removelast arr) arr.
Proof.
  destruct arr as [|x arr _] using rev_ind; [done|].
  rewrite removelast_last. by apply sublist_inserts_r.
Qed.

Lemma splice_sublist {A} start n (arr : list A) : sublist (splice start n arr) arr.
Proof.
  unfold splice. set (s := Z.to_nat _).
  rewrite <- (take_drop s arr) at 3.
  apply sublist_app; [done|].
  rewrite <- drop_drop. apply sublist_drop.
Qed.

(** [findIndex] finds the one element that satisfies the test, and
    [splice] takes it out *)
Lemma findIndex_unique {A} (pred : A → bool) l1 x l2 :
  (∀ y, y ∈ l1 → pred y = false) → pred x = true →
  findIndex pred (l1 ++ x :: l2) = Z.of_nat (length l1).
Proof.
  intros Hl1 Hx. induction l1 as [|y l1 IH]; simpl.
  - by rewrite Hx.
  - rewrite (Hl1 y) by left. rewrite IH by (intros; apply Hl1; by right).
    rewrite bool_decide_eq_false_2 by lia. lia.
Qed.

Lemma findIndex_none {A} (pred : A → bool) l :
  (∀ y, y ∈ l → pred y = false) → findIndex pred l = (-1)%Z.
Proof.
  intros Hl. induction l as [|y l IH]; simpl; [done|].
  rewrite (Hl y) by left. rewrite IH by (intros; apply Hl; by right).
  by rewrite bool_decide_eq_true_2.
Qed.

Lemma splice_at {A} (l1 : list A) x l2 :
  splice (Z.of_nat (length l1)) 1 (l1 ++ x :: l2) = l1 ++ l2.
Proof.
  unfold splice. rewrite bool_decide_eq_false_2 by lia.
  rewrite length_app. simpl.
  replace (Z.to_nat (Z.min _ _)) with (length l1) by lia.
  rewrite take_app_length.
  by rewrite <- drop_drop, drop_app_length.
Qed.

(** [splice(-1, 1)] takes the last element out *)
Lemma splice_minus_one {A} (arr : list A) x :
  splice (-1) 1 (arr ++ [x]) = arr.
Proof.
  unfold splice. rewrite bool_decide_eq_true_2 by lia.
  rewrite length_app. simpl.
  replace (Z.to_nat (Z.max _ _)) with (length arr) by lia.
  rewrite take_app_length.
  rewrite drop_ge by (rewrite length_app; simpl; lia).
  by rewrite app_nil_r.
Qed.

Lemma num_lt_irrefl a : num_lt a a = false.
Proof. destruct a; simpl; try done. apply bool_decide_eq_false_2. lia. Qed.

Lemma num_lt_trans a b c :
  num_lt a b = true → num_lt b c = true → num_lt a c = true.
Proof.
  destruct a, b, c; simpl; try done.
  rewrite !bool_decide_eq_true. lia.
Qed.

(** On numbers other than NaN, [b <= a] and [c <= b] give [c <= a] *)
Lemma num_ge_trans a b c :
  b ≠ NaN →
  num_lt a b = false → num_lt b c = false → num_lt a c = false.
Proof.
  destruct a, b, c; simpl; try done.
  rewrite !bool_decide_eq_false. lia.
Qed.

Lemma num_lt_false_total a b :
  a ≠ NaN → b ≠ NaN → num_lt a b = false → num_lt b a = false → a = b.
Proof.
  destruct a, b; simpl; try done.
  rewrite !bool_decide_eq_false. intros _ _ ? ?. f_equal. lia.
Qed.

(** The order of the doubles: comparing the other way round gives the
    opposite answer, and none when one side is NaN *)
Lemma SFcompare_antisym x y :
  SFcompare y x = CompOpp <$> SFcompare x y.
Proof.
  destruct x as [sx|sx| |sx mx ex], y as [sy|sy| |sy my ey]; simpl;
    try reflexivity; try (by destruct sx); try (by destruct sy);
    try (by destruct sx, sy).
  destruct sx, sy; simpl; try reflexivity.
  all: rewrite (Z.compare_antisym ex ey); destruct (ex ?= ey)%Z; simpl;
    try reflexivity.
  all: rewrite (Pos.compare_cont_antisym mx my Eq); simpl;
    by destruct (Pos.compare_cont Eq mx my).
Qed.

(** [b <= a] excludes [a < b] *)
Lemma leb_not_ltb (a b : float) :
  (b <=? a)%float = true → (a <? b)%float = false.
Proof.
  rewrite leb_spec, ltb_spec. unfold SFleb, SFltb.
  rewrite (SFcompare_antisym (Prim2SF b) (Prim2SF a)).
  by destruct (SFcompare (Prim2SF b) (Prim2SF a)) as [[]|].
Qed.

(** The subtraction of the doubles rounds the difference of the two
    numbers: its sign is the sign of that difference *)
Lemma digits2_pos_size m : digits2_pos m = Pos.size m.
Proof. induction m as [m IH|m IH|]; simpl; by rewrite ?IH. Qed.

Lemma digits_bounds m :
  (2 ^ (Z.pos (digits2_pos m) - 1) ≤ Z.pos m < 2 ^ Z.pos (digits2_pos m))%Z.
Proof.
  rewrite digits2_pos_size. split.
  - pose proof (Pos.size_le m) as Hle.
    apply (Pos2Z.pos_le_pos) in Hle. rewrite Pos2Z.inj_pow in Hle.
    replace (Z.pos (Pos.size m)) with (Z.succ (Z.pos (Pos.size m) - 1)) in Hle
      by lia.
    rewrite Z.pow_succ_r in Hle by lia. lia.
  - pose proof (Pos.size_gt m) as Hgt.
    apply (Pos2Z.pos_lt_pos) in Hgt. by rewrite Pos2Z.inj_pow in Hgt.
Qed.

Lemma iter_xO m d : Z.pos (Pos.iter xO m d) = (Z.pos m * 2 ^ Z.pos d)%Z.
Proof.
  induction d as [|d IH] using Pos.peano_ind.
  - simpl. lia.
  - rewrite Pos.iter_succ, Pos2Z.inj_succ, Z.pow_succ_r by lia.
    rewrite Pos2Z.inj_xO, IH. lia.
Qed.

Lemma shl_align_value m e e' :
  (e' ≤ e)%Z →
  Z.pos (shl_align m e e').1 = (Z.pos m * 2 ^ (e - e'))%Z.
Proof.
  intros Hle. unfold shl_align.
  destruct (e' - e)%Z as [|d|d] eqn:Hd; simpl.
  - replace (e - e')%Z with 0%Z by lia. lia.
  - lia.
  - rewrite iter_xO. f_equal. f_equal. lia.
Qed.

Lemma shr_1_nonneg mrs : (0 ≤ shr_m mrs)%Z → (0 ≤ shr_m (shr_1 mrs))%Z.
Proof. destruct mrs as [[|[]|[]] r s]; simpl; lia. Qed.

Lemma iter_shr_1_nonneg p : ∀ mrs,
  (0 ≤ shr_m mrs)%Z → (0 ≤ shr_m (iter_pos shr_1 p mrs))%Z.
Proof.
  induction p as [p IH|p IH|]; intros mrs Hm; simpl.
  - apply IH, IH. by apply shr_1_nonneg.
  - by apply IH, IH.
  - by apply shr_1_nonneg.
Qed.

Lemma shr_fexp_nonneg pr em m e l :
  (0 ≤ m)%Z → (0 ≤ shr_m (shr_fexp pr em m e l).1)%Z.
Proof.
  intros Hm. unfold shr_fexp, shr.
  assert (0 ≤ shr_m (shr_record_of_loc m l))%Z as H0
    by (by destruct l as [|[]]).
  destruct (_ - e)%Z; simpl; try done. by apply iter_shr_1_nonneg.
Qed.

Lemma round_nearest_even_nonneg m l :
  (0 ≤ m)%Z → (0 ≤ round_nearest_even m l)%Z.
Proof. intros Hm. destruct l as [|[]]; simpl; try done; [destruct (Z.even m)|]; lia. Qed.

Lemma binary_round_aux_not_negative pr em m e l :
  (0 ≤ m)%Z → not_negative (binary_round_aux pr em false m e l).
Proof.
  intros Hm. unfold binary_round_aux.
  pose proof (shr_fexp_nonneg pr em m e l Hm) as H1.
  destruct (shr_fexp pr em m e l) as [mrs' e'].
  pose proof (shr_fexp_nonneg pr em
                (round_nearest_even (shr_m mrs') (loc_of_shr_record mrs'))
                e' loc_Exact
                (round_nearest_even_nonneg _ _ H1)) as H2.
  destruct (shr_fexp pr em _ e' loc_Exact) as [mrs'' e''].
  simpl in H2. destruct (shr_m mrs''); [done| |lia].
  by destruct (_ <=? _)%Z.
Qed.

Lemma binary_normalize_not_negative pr em m e :
  (0 ≤ m)%Z → not_negative (binary_normalize pr em m e false).
Proof.
  intros Hm. destruct m as [|m|m]; simpl; [done| |lia].
  unfold binary_round. destruct (shl_align _ _ _) as [mz ez].
  by apply binary_round_aux_not_negative.
Qed.

Lemma canonical_bounds pr em m e :
  canonical_mantissa pr em m e = true →
  (Z.pos (digits2_pos m) ≤ pr)%Z ∧
  (e = SpecFloat.emin pr em ∨ Z.pos (digits2_pos m) = pr).
Proof.
  unfold canonical_mantissa, fexp. intros Hc%Z.eqb_eq. lia.
Qed.

Lemma SFsub_not_negative pr em x y :
  (0 < pr)%Z →
  finite_nonneg x → finite_nonneg y →
  SpecFloat.valid_binary pr em x = true → SpecFloat.valid_binary pr em y = true →
  SFleb y x = true →
  not_negative (SFsub pr em x y).
Proof.
  intros Hpr Hx Hy Hvx Hvy Hle.
  destruct x as [sx|sx| |sx mx ex], y as [sy|sy| |sy my ey]; try done;
    simpl in Hx, Hy.
  - by destruct sx, sy.
  - by destruct sy.
  - destruct sx, sy; try done.
    unfold SFsub. apply binary_normalize_not_negative.
    cbn [cond_Zopp].
    rewrite !shl_align_value by lia.
    simpl in Hvx, Hvy. unfold bounded in Hvx, Hvy.
    apply andb_true_iff in Hvx as [Hcx _]. apply andb_true_iff in Hvy as [Hcy _].
    pose proof Hcx as Hex. pose proof Hcy as Hey.
    apply canonical_bounds in Hcx as [Hdx Hx']. apply canonical_bounds in Hcy as [Hdy Hy'].
    unfold canonical_mantissa, fexp in Hex, Hey.
    apply Z.eqb_eq in Hex, Hey.
    unfold SFleb, SFcompare in Hle.
    pose proof (digits_bounds mx) as Hbx. pose proof (digits_bounds my) as Hby.
    destruct (Z.compare_spec ey ex) as [->|Hlt|Hgt].
    + rewrite Z.min_id, Z.sub_diag. simpl.
      assert (my ≤ mx)%positive as Hm.
      { unfold Pos.le, Pos.compare. by destruct (Pos.compare_cont Eq my mx). }
      lia.
    + rewrite Z.min_r by lia. rewrite Z.sub_diag. simpl (2 ^ 0)%Z.
      assert (Z.pos (digits2_pos mx) = pr) as Hd by lia.
      rewrite Hd in Hbx.
      assert (Z.pos my < 2 ^ pr)%Z as Hmy.
      { eapply Z.lt_le_trans; [apply Hby|]. apply Z.pow_le_mono_r; lia. }
      assert (2 ^ pr = 2 * 2 ^ (pr - 1))%Z as Hp.
      { rewrite <- Z.pow_succ_r by lia. f_equal. lia. }
      assert (2 ≤ 2 ^ (ex - ey))%Z as H2.
      { change 2%Z with (2 ^ 1)%Z at 1. apply Z.pow_le_mono_r; lia. }
      nia.
    + done.
Qed.

Lemma reading_shape t : reading t → finite_nonneg (Prim2SF t).
Proof.
  intros [H0 Hinf]. rewrite leb_spec in H0. rewrite ltb_spec in Hinf.
  change (Prim2SF 0) with (S754_zero false) in H0.
  change (Prim2SF infinity) with (S754_infinity false) in Hinf.
  destruct (Prim2SF t) as [s|s| |s m e]; simpl; try done.
  - by destruct s.
  - by destruct s.
Qed.

Lemma leb_refl t : reading t → (t <=? t)%float = true.
Proof.
  intros Ht%reading_shape. rewrite leb_spec. unfold SFleb.
  destruct (Prim2SF t) as [s|s| |s m e]; simpl in Ht |- *; try done.
  destruct s; [done|].
  by rewrite Z.compare_refl, Pos.compare_cont_refl.
Qed.

(** From a reading to a later one, the elapsed time that the subtraction
    of the doubles yields is not negative *)
Lemma sub_not_negative (s t : float) :
  reading s → reading t → (s <=? t)%float = true →
  (0 <=? t - s)%float = true.
Proof.
  intros Hs%reading_shape Ht%reading_shape Hle.
  rewrite leb_spec in Hle. rewrite leb_spec, sub_spec.
  change (Prim2SF 0) with (S754_zero false).
  pose proof (SFsub_not_negative prec emax (Prim2SF t) (Prim2SF s)
                eq_refl Ht Hs (Prim2SF_valid t) (Prim2SF_valid s) Hle) as Hn.
  unfold SF64sub. destruct (SFsub prec emax (Prim2SF t) (Prim2SF s)) as [z|z| |z m e];
    simpl in Hn |- *; try done; by destruct z.
Qed.

(** [max_from] yields its start or an element, and nothing exceeds it *)
Lemma max_from_spec highest values :
  highest ≠ NaN → NaN ∉ values →
  let m := max_from highest values in
  (m = highest ∨ m ∈ values) ∧
  num_lt m highest = false ∧
  ∀ x, x ∈ values → num_lt m x = false.
Proof.
  revert highest.
  induction values as [|x values IH]; intros highest Hh Hnan; simpl.
  - split; [by left|]. split; [apply num_lt_irrefl|]. intros x Hx. inv Hx.
  - assert (x ≠ NaN) as Hx by (intros ->; apply Hnan; left).
    assert (NaN ∉ values) as Hnan' by (intros ?; apply Hnan; by right).
    replace (match x with NaN => NaN | _ =>
               max_from (if num_lt highest x then x else highest) values end)
      with (max_from (if num_lt highest x then x else highest) values)
      by (by destruct x).
    destruct (num_lt highest x) eqn:Hlt.
    + destruct (IH x Hx Hnan') as (Hin & Hge & Hall).
      split; [destruct Hin as [->|?]; right; [left|by right]|].
      split.
      * destruct (num_lt (max_from x values) highest) eqn:E; [|done].
        by rewrite (num_lt_trans _ _ _ E Hlt) in Hge.
      * intros y Hy. inv Hy; [done|by apply Hall].
    + destruct (IH highest Hh Hnan') as (Hin & Hge & Hall).
      split; [destruct Hin as [->|?]; [by left|right; by right]|].
      split; [done|].
      intros y Hy. inv Hy; [|by apply Hall].
      by apply (num_ge_trans _ highest).
Qed.

(** [min_from] yields its start or an element, and nothing is below it *)
Lemma min_from_spec lowest values :
  lowest ≠ NaN → NaN ∉ values →
  let m := min_from lowest values in
  (m = lowest ∨ m ∈ values) ∧
  num_lt lowest m = false ∧
  ∀ x, x ∈ values → num_lt x m = false.
Proof.
  revert lowest.
  induction values as [|x values IH]; intros lowest Hl Hnan; simpl.
  - split; [by left|]. split; [apply num_lt_irrefl|]. intros x Hx. inv Hx.
  - assert (x ≠ NaN) as Hx by (intros ->; apply Hnan; left).
    assert (NaN ∉ values) as Hnan' by (intros ?; apply Hnan; by right).
    replace (match x with NaN => NaN | _ =>
               min_from (if num_lt x lowest then x else lowest) values end)
      with (min_from (if num_lt x lowest then x else lowest) values)
      by (by destruct x).
    destruct (num_lt x lowest) eqn:Hlt.
    + destruct (IH x Hx Hnan') as (Hin & Hge & Hall).
      split; [destruct Hin as [->|?]; right; [left|by right]|].
      split.
      * destruct (num_lt lowest (min_from x values)) eqn:E; [|done].
        by rewrite (num_lt_trans _ _ _ Hlt E) in Hge.
      * intros y Hy. inv Hy; [done|by apply Hall].
    + destruct (IH lowest Hl Hnan') as (Hin & Hge & Hall).
      split; [destruct Hin as [->|?]; [by left|right; by right]|].
      split; [done|].
      intros y Hy. inv Hy; [|by apply Hall].
      destruct (num_lt x (min_from lowest values)) eqn:E; [|done].
      destruct (min_from lowest values), x, lowest; simpl in *; try done.
      revert Hlt Hge E. rewrite !bool_decide_eq_false, bool_decide_eq_true. lia.
Qed.

(** The largest sample: on a non-empty array without NaN, [Math.max]
    yields one of the samples, and no sample exceeds it *)
Lemma Math_max_spec arr :
  arr ≠ [] → NaN ∉ arr →
  Math_max arr ∈ arr ∧ ∀ x, x ∈ arr → num_lt (Math_max arr) x = false.
Proof.
  intros Hne Hnan. unfold Math_max.
  destruct (max_from_spec NegInf arr) as (Hin & _ & Hall); [done|done|].
  split; [|done]. destruct Hin as [Heq|?]; [|done].
  destruct arr as [|x arr]; [done|].
  assert (x = NegInf) as ->; [|rewrite Heq; left].
  specialize (Hall x (list_elem_of_here _ _)). rewrite Heq in Hall.
  destruct x; try done; exfalso; apply Hnan; left.
Qed.

(** The smallest sample, likewise *)
Lemma Math_min_spec arr :
  arr ≠ [] → NaN ∉ arr →
  Math_min arr ∈ arr ∧ ∀ x, x ∈ arr → num_lt x (Math_min arr) = false.
Proof.
  intros Hne Hnan. unfold Math_min.
  destruct (min_from_spec PosInf arr) as (Hin & _ & Hall); [done|done|].
  split; [|done]. destruct Hin as [Heq|?]; [|done].
  destruct arr as [|x arr]; [done|].
  assert (x = PosInf) as ->; [|rewrite Heq; left].
  specialize (Hall x (list_elem_of_here _ _)). rewrite Heq in Hall.
  destruct x; try done; exfalso; apply Hnan; left.
Qed.



(** ** The handlers, step by step *)

Section Handlers.
Context `{Collaborators}.

Lemma bind_eq {A B} (m : M A) (k : A → M B) st :
  (m ≫= k) st = match m st with inl e => inl e | inr (x, st') => k x st' end.
Proof. reflexivity. Qed.

Lemma bind_inr {A B} (m : M A) (k : A → M B) st x st' :
  m st = inr (x, st') → (m ≫= k) st = k x st'.
Proof. intros Hm. by rewrite bind_eq, Hm. Qed.

Lemma bind_inv {A B} (m : M A) (k : A → M B) st y st'' :
  (m ≫= k) st = inr (y, st'') →
  ∃ x st', m st = inr (x, st') ∧ k x st' = inr (y, st'').
Proof.
  rewrite bind_eq. destruct (m st) as [e|[x st']]; [done|]. eauto.
Qed.

Lemma deref_eq {A} (store : State → gmap nat A) r x st :
  store st !! r = Some x → deref store r st = inr (x, st).
Proof. intros Hr. unfold deref. by rewrite Hr. Qed.

Lemma deref_inv {A} (store : State → gmap nat A) r x st st' :
  deref store r st = inr (x, st') → store st !! r = Some x ∧ st' = st.
Proof. unfold deref. destruct (store st !! r); naive_solver. Qed.

Lemma update_process_eq r f p st :
  heap st !! r = Some p →
  update_process r f st = inr (tt, set_heap (<[r := f p]> (heap st)) st).
Proof. intros Hr. unfold update_process. by erewrite bind_inr by by apply deref_eq. Qed.

Lemma update_engine_eq r f e st :
  engines st !! r = Some e →
  update_engine r f st = inr (tt, set_engines (<[r := f e]> (engines st)) st).
Proof. intros Hr. unfold update_engine. by erewrite bind_inr by by apply deref_eq. Qed.

Lemma createProcess_eq eng scr cb now st e child :
  engines st !! eng = Some e →
  spawn (spawned st) (path e) [scr] = inr child →
  createProcess eng scr cb now st =
    inr (spawned st,
         {| PROCESSES := PROCESSES st ++ [spawned st];
            heap := <[spawned st := new_process e child scr now]> (heap st);
            closures := <[spawned st :=
              {| c_engine := eng; c_script := scr; c_callback := cb;
                 c_stdout := ""; c_stderr := "" |}]> (closures st);
            engines := engines st;
            trace := trace st ++ [Spawn (path e) [scr] (spawned st)];
            spawned := S (spawned st) |}).
Proof.
  intros He Hsp. unfold createProcess, spawn_child.
  erewrite bind_inr by by apply deref_eq.
  rewrite bind_eq. simpl. by rewrite Hsp.
Qed.

(** What [spawn] throws leaves [createProcess] *)
Lemma createProcess_throws eng scr cb now st e err :
  engines st !! eng = Some e →
  spawn (spawned st) (path e) [scr] = inl err →
  createProcess eng scr cb now st = inl (Thrown err).
Proof.
  intros He Hsp. unfold createProcess, spawn_child.
  erewrite bind_inr by by apply deref_eq.
  rewrite bind_eq. simpl. by rewrite Hsp.
Qed.

Lemma kill_eq p reason pr st :
  heap st !! p = Some pr →
  kill p reason st =
    inr (tt, set_heap (<[p :=
               {| script := script pr; engine := engine pr;
                  childProcess := killProcess (childProcess pr) reason;
                  startTime := startTime pr; cpuVals := cpuVals pr;
                  memVals := memVals pr; isTimedOut := isTimedOut pr |}]>
               (heap st))
             (set_trace (trace st ++ [KillProcess p reason]) st)).
Proof.
  intros Hp. unfold kill. rewrite bind_eq. simpl.
  by rewrite update_process_eq with (p := pr).
Qed.

(** The handler on an engine whose queue is empty: the record, then the
    callback *)
Lemma handle_last eng scr err out errout cb now later st arr pr p e :
  PROCESSES st = arr ++ [pr] →
  heap st !! pr = Some p →
  engines st !! eng = Some e →
  testsQueue e = [] →
  handleExecFileResult eng scr err out errout cb now later st =
    inr (tt,
         {| PROCESSES := arr; heap := heap st; closures := closures st;
            engines := <[eng := with_result e scr err out errout now pr p]>
                         (engines st);
            trace := trace st ++ [Callback cb eng];
            spawned := spawned st |}).
Proof.
  intros HP Hh He Hq. unfold handleExecFileResult.
  rewrite bind_eq. unfold PROCESSES_pop. rewrite HP, pop_snoc. simpl.
  erewrite bind_inr by by apply deref_eq.
  rewrite bind_eq.
  assert (∀ f, update_engine eng f (set_PROCESSES arr st) =
    inr (tt, set_engines (<[eng := f e]> (engines st)) (set_PROCESSES arr st)))
    as Hupd by (intros f; exact (update_engine_eq eng f e (set_PROCESSES arr st) He)).
  unfold with_result. destruct (passes err p); rewrite Hupd;
    (erewrite bind_inr by (apply deref_eq; simpl; apply lookup_insert_eq));
    simpl; rewrite Hq; simpl; reflexivity.
Qed.

(** The handler on an engine with scripts left: the record, then the last
    script of the queue is taken and spawned *)
Lemma handle_next eng scr err out errout cb now later st arr pr p e q s child :
  PROCESSES st = arr ++ [pr] →
  heap st !! pr = Some p →
  engines st !! eng = Some e →
  testsQueue e = q ++ [s] →
  spawn (spawned st) (path e) [s] = inr child →
  handleExecFileResult eng scr err out errout cb now later st =
    inr (tt,
         {| PROCESSES := arr ++ [spawned st];
            heap := <[spawned st := new_process e child s later]> (heap st);
            closures := <[spawned st :=
              {| c_engine := eng; c_script := s; c_callback := cb;
                 c_stdout := ""; c_stderr := "" |}]> (closures st);
            engines := <[eng := set_testsQueue q
                           (with_result e scr err out errout now pr p)]>
                         (engines st);
            trace := trace st ++ [Spawn (path e) [s] (spawned st)];
            spawned := S (spawned st) |}).
Proof.
  intros HP Hh He Hq Hsp. unfold handleExecFileResult.
  rewrite bind_eq. unfold PROCESSES_pop. rewrite HP, pop_snoc. simpl.
  erewrite bind_inr by by apply deref_eq.
  rewrite bind_eq.
  assert (∀ f, update_engine eng f (set_PROCESSES arr st) =
    inr (tt, set_engines (<[eng := f e]> (engines st)) (set_PROCESSES arr st)))
    as Hupd by (intros f; exact (update_engine_eq eng f e (set_PROCESSES arr st) He)).
  unfold with_result. destruct (passes err p); rewrite Hupd.
  all: erewrite bind_inr by (apply deref_eq; simpl; apply lookup_insert_eq).
  all: simpl; rewrite Hq, length_app; simpl.
  all: rewrite bool_decide_eq_false_2 by lia.
  all: unfold testsQueue_pop; rewrite bind_eq.
  all: erewrite bind_inr by (apply deref_eq; simpl; apply lookup_insert_eq).
  all: rewrite bind_eq.
  all: erewrite update_engine_eq by (simpl; apply lookup_insert_eq).
  all: simpl; rewrite Hq, last_snoc, removelast_last.
  all: rewrite bind_eq.
  all: erewrite (createProcess_eq _ _ _ _ _ _ child)
         by (simpl; first [apply lookup_insert_eq|exact Hsp]).
  all: simpl; rewrite !insert_insert_eq; reflexivity.
Qed.

(** The handler on an engine with scripts left, when [spawn] throws: the
    exception leaves the handler *)
Lemma handle_next_throws eng scr err out errout cb now later st arr pr p e q s msg :
  PROCESSES st = arr ++ [pr] →
  heap st !! pr = Some p →
  engines st !! eng = Some e →
  testsQueue e = q ++ [s] →
  spawn (spawned st) (path e) [s] = inl msg →
  handleExecFileResult eng scr err out errout cb now later st = inl (Thrown msg).
Proof.
  intros HP Hh He Hq Hsp. unfold handleExecFileResult.
  rewrite bind_eq. unfold PROCESSES_pop. rewrite HP, pop_snoc. simpl.
  erewrite bind_inr by by apply deref_eq.
  rewrite bind_eq.
  assert (∀ f, update_engine eng f (set_PROCESSES arr st) =
    inr (tt, set_engines (<[eng := f e]> (engines st)) (set_PROCESSES arr st)))
    as Hupd by (intros f; exact (update_engine_eq eng f e (set_PROCESSES arr st) He)).
  unfold with_result. destruct (passes err p); rewrite Hupd.
  all: erewrite bind_inr by (apply deref_eq; simpl; apply lookup_insert_eq).
  all: simpl; rewrite Hq, length_app; simpl.
  all: rewrite bool_decide_eq_false_2 by lia.
  all: unfold testsQueue_pop; rewrite bind_eq.
  all: erewrite bind_inr by (apply deref_eq; simpl; apply lookup_insert_eq).
  all: rewrite bind_eq.
  all: erewrite update_engine_eq by (simpl; apply lookup_insert_eq).
  all: simpl; rewrite Hq, last_snoc, removelast_last.
  all: rewrite bind_eq.
  all: erewrite createProcess_throws
         by (simpl; first [apply lookup_insert_eq|exact Hsp]).
  all: reflexivity.
Qed.

(** The handler on an empty [PROCESSES] throws *)
Lemma handle_empty eng scr err out errout cb now later st :
  PROCESSES st = [] →
  handleExecFileResult eng scr err out errout cb now later st =
    inl (TypeError "cpuVals").
Proof.
  intros HP. unfold handleExecFileResult.
  rewrite bind_eq. unfold PROCESSES_pop. by rewrite HP.
Qed.

(** The [close] handler passes null exactly on code 0, the [error]
    handler always passes an object *)
Lemma on_close_eq child code signal now later st c :
  closures st !! child = Some c →
  on_close child code signal now later st =
    handleExecFileResult (c_engine c) (c_script c)
      (end_result_of_close code signal)
      (c_stdout c) (c_stderr c) (c_callback c) now later st.
Proof.
  intros Hc. unfold on_close, end_result_of_close.
  erewrite bind_inr by by apply deref_eq.
  by destruct (bool_decide (code ≠ Some 0%Z)).
Qed.

Lemma on_error_eq child e now later st c :
  closures st !! child = Some c →
  on_error child (Some e) now later st =
    handleExecFileResult (c_engine c) (c_script c)
      (Some {| code := None; signal := None; error := Some e |})
      (c_stdout c) (c_stderr c) (c_callback c) now later st.
Proof.
  intros Hc. unfold on_error. by erewrite bind_inr by by apply deref_eq.
Qed.

Lemma end_result_of_close_None code signal :
  end_result_of_close code signal = None ↔ code = Some 0%Z.
Proof.
  unfold end_result_of_close. case_bool_decide; [naive_solver|].
  split; [intros _|done]. by destruct (decide (code = Some 0%Z)).
Qed.

(** [pidUsageCallback] for a process that is gone: nothing *)
Lemma pidUsageCallback_gone err stats p pr st :
  heap st !! p = Some pr →
  checkIfProcessExists (childProcess pr) = false →
  pidUsageCallback err stats p st = inr (tt, st).
Proof.
  intros Hp Hex. unfold pidUsageCallback.
  erewrite bind_inr by by apply deref_eq. by rewrite Hex.
Qed.

(** [pidUsageCallback] with an error for a process that exists *)
Lemma pidUsageCallback_err e stats p pr st :
  heap st !! p = Some pr →
  checkIfProcessExists (childProcess pr) = true →
  pidUsageCallback (Some e) stats p st =
    inr (tt,
      let st1 :=
        set_heap (<[p := killed_process "error" pr]> (heap st))
          (set_trace (trace st ++ [ConsoleError e; KillProcess p "error"]) st) in
      set_PROCESSES
        (splice (findIndex (same_pid st1 (killed_process "error" pr))
                   (PROCESSES st)) 1 (PROCESSES st)) st1).
Proof.
  intros Hp Hex. unfold pidUsageCallback.
  erewrite bind_inr by by apply deref_eq. rewrite Hex. simpl.
  rewrite bind_eq. simpl. rewrite bind_eq.
  erewrite kill_eq by done.
  erewrite bind_inr by (apply deref_eq; simpl; apply lookup_insert_eq).
  unfold modify. simpl. by rewrite <- app_assoc.
Qed.

(** [pidUsageCallback] with readings for a process that exists *)
Lemma pidUsageCallback_sample stats p pr st :
  heap st !! p = Some pr →
  checkIfProcessExists (childProcess pr) = true →
  pidUsageCallback None stats p st =
    inr (tt,
      set_trace
        (trace st ++
           [(if bool_decide (head ARGS = Some "debug") then ConsoleLog
             else PrintOSL) (script pr) (processPidusageStats stats).1
                            (processPidusageStats stats).2])
        (set_heap (<[p := sampled (processPidusageStats stats) pr]> (heap st))
           st)).
Proof.
  intros Hp Hex. unfold pidUsageCallback.
  erewrite bind_inr by by apply deref_eq. rewrite Hex. simpl.
  destruct (processPidusageStats stats) as [cpu mem]. rewrite bind_eq.
  erewrite update_process_eq by done.
  erewrite bind_inr by (apply deref_eq; simpl; apply lookup_insert_eq).
  by case_bool_decide.
Qed.

(** The [catch] of the query: a warning when there is no sample, and
    nothing else *)
Lemma on_usage_rejected_eq cp p st :
  heap st !! cp = Some p →
  on_usage_rejected cp st =
    inr (tt,
      if bool_decide (length (cpuVals p) + length (memVals p) = 0)
      then set_trace (trace st ++ [ConsoleWarn "#WARN: "
             (engine p +:+ ":" +:+ script p +:+
              " test ended too quickly. CPU and Memory data will be not available.")]) st
      else st).
Proof.
  intros Hp. unfold on_usage_rejected.
  erewrite bind_inr by by apply deref_eq. by case_bool_decide.
Qed.

(** One element of [PROCESSES] in one tick *)
Lemma monitor_eq TIMEOUT now cp p st :
  heap st !! cp = Some p →
  monitor TIMEOUT now cp st =
    inr (tt,
      set_heap (<[cp := monitored TIMEOUT now p]> (heap st))
        (set_trace (trace st ++ monitor_effects TIMEOUT now st cp) st)).
Proof.
  intros Hp. unfold monitor, monitored, monitor_effects. rewrite Hp.
  erewrite bind_inr by by apply deref_eq.
  destruct (checkIfProcessExists (childProcess p)).
  - destruct (now - startTime p <? TIMEOUT)%float.
    + unfold emit, modify. simpl. rewrite insert_id by done.
      by destruct st.
    + rewrite bind_eq. erewrite kill_eq by done.
      erewrite update_process_eq by (simpl; apply lookup_insert_eq).
      simpl. by rewrite insert_insert_eq.
  - simpl. rewrite insert_id by done. rewrite app_nil_r. by destruct st.
Qed.

End Handlers.

(** ** Every reachable state is well formed *)

Section Invariant.
Context `{Collaborators}.

Lemma preserves_bind I {A B} (m : M A) (k : A → M B) :
  preserves I m → (∀ x, preserves I (k x)) → preserves I (m ≫= k).
Proof.
  intros Hm Hk st y st'' HI Hrun.
  apply bind_inv in Hrun as (x & st' & Hrun1 & Hrun2).
  eapply Hk; [|done]. by eapply Hm.
Qed.

Lemma preserves_mret I {A} (x : A) : preserves I (mret x).
Proof. intros st y st' HI [= _ <-]. done. Qed.

Lemma preserves_throw I {A} e : preserves I (@throw A e).
Proof. intros st y st' HI. done. Qed.

Lemma preserves_gets I {A} (f : State → A) : preserves I (gets f).
Proof. intros st y st' HI [= _ <-]. done. Qed.

Lemma preserves_deref I {A} (store : State → gmap nat A) r :
  preserves I (deref store r).
Proof. intros st y st' HI Hrun. by apply deref_inv in Hrun as [_ ->]. Qed.

Lemma preserves_forEach I {A} (arr : list A) body :
  (∀ x i, preserves I (body x i)) → preserves I (forEach arr body).
Proof.
  intros Hbody. unfold forEach. generalize 0.
  induction arr as [|x arr IH]; intros i; simpl.
  - apply preserves_mret.
  - apply preserves_bind; [apply Hbody|by intros _].
Qed.

Lemma wf_set_trace t st : wf st → wf (set_trace t st).
Proof. intros []. by split. Qed.

Lemma wf_set_engines e st : wf st → wf (set_engines e st).
Proof. intros []. by split. Qed.

Lemma wf_set_PROCESSES arr st :
  sublist arr (PROCESSES st) → wf st → wf (set_PROCESSES arr st).
Proof.
  intros Hsub [Hpaired Hnodup Hbound Hheap Hclos]. split; simpl; try done.
  - by eapply sublist_NoDup.
  - intros r Hr. apply Hbound. by apply (sublist_subseteq _ _ Hsub).
Qed.

Lemma wf_update_heap r p p' st :
  heap st !! r = Some p →
  (length (cpuVals p) = length (memVals p) →
   length (cpuVals p') = length (memVals p')) →
  wf st → wf (set_heap (<[r := p']> (heap st)) st).
Proof.
  intros Hr Hp [Hpaired Hnodup Hbound Hheap Hclos]. split; simpl; try done.
  - intros r' q. simpl. destruct (decide (r = r')) as [<-|Hne].
    + rewrite lookup_insert_eq. intros [= <-]. by eapply Hp, Hpaired.
    + rewrite lookup_insert_ne by done. apply Hpaired.
  - intros r' Hr'. destruct (decide (r = r')) as [<-|Hne].
    + by rewrite lookup_insert_eq.
    + rewrite lookup_insert_ne by done. by apply Hheap.
Qed.

Lemma wf_update_closures r c c' st :
  closures st !! r = Some c →
  wf st → wf (set_closures (<[r := c']> (closures st)) st).
Proof.
  intros Hr [Hpaired Hnodup Hbound Hheap Hclos]. split; simpl; try done.
  intros r' Hr'. destruct (decide (r = r')) as [<-|Hne].
  - by rewrite lookup_insert_eq.
  - rewrite lookup_insert_ne by done. by apply Hclos.
Qed.

Lemma preserves_emit x : preserves wf (emit x).
Proof. intros st y st' HI [= _ <-]. by apply wf_set_trace. Qed.

Lemma preserves_update_engine r f : preserves wf (update_engine r f).
Proof.
  apply preserves_bind; [apply preserves_deref|].
  intros e st y st' HI [= _ <-]. by apply wf_set_engines.
Qed.

Lemma preserves_update_process r f :
  (∀ p, length (cpuVals p) = length (memVals p) →
        length (cpuVals (f p)) = length (memVals (f p))) →
  preserves wf (update_process r f).
Proof.
  intros Hf st y st' HI Hrun.
  apply bind_inv in Hrun as (p & st1 & Hp & Hrun).
  apply deref_inv in Hp as [Hp ->]. injection Hrun as _ <-.
  eapply wf_update_heap; eauto.
Qed.

Lemma preserves_kill p reason : preserves wf (kill p reason).
Proof.
  apply preserves_bind; [apply preserves_emit|intros _].
  by apply preserves_update_process.
Qed.

Lemma preserves_createProcess eng scr cb now :
  preserves wf (createProcess eng scr cb now).
Proof.
  intros st r st' [Hpaired Hnodup Hbound Hheap Hclos] Hrun.
  destruct (engines st !! eng) as [e|] eqn:He.
  2: { unfold createProcess in Hrun. apply bind_inv in Hrun as (e & st1 & He' & _).
       apply deref_inv in He' as [He' _]. congruence. }
  destruct (spawn (spawned st) (path e) [scr]) as [msg|child] eqn:Hsp.
  { by rewrite (createProcess_throws _ _ _ _ _ _ _ He Hsp) in Hrun. }
  rewrite (createProcess_eq _ _ _ _ _ _ _ He Hsp) in Hrun.
  injection Hrun as <- <-. split; simpl.
  - intros r' q. simpl. destruct (decide (spawned st = r')) as [<-|Hne].
    + rewrite lookup_insert_eq. by intros [= <-].
    + rewrite lookup_insert_ne by done. apply Hpaired.
  - apply NoDup_app. split; [done|]. split; [|apply NoDup_singleton].
    intros r' Hr' ->%list_elem_of_singleton. apply Hbound in Hr'. lia.
  - intros r' [Hr'| ->%list_elem_of_singleton]%elem_of_app; [|lia].
    apply Hbound in Hr'. lia.
  - intros r' Hr'. destruct (decide (spawned st = r')) as [<-|Hne].
    + by rewrite lookup_insert_eq.
    + rewrite lookup_insert_ne by done. apply Hheap. lia.
  - intros r' Hr'. destruct (decide (spawned st = r')) as [<-|Hne].
    + by rewrite lookup_insert_eq.
    + rewrite lookup_insert_ne by done. apply Hclos. lia.
Qed.

Lemma preserves_PROCESSES_pop : preserves wf PROCESSES_pop.
Proof.
  intros st y st' HI [= _ <-].
  apply wf_set_PROCESSES; [apply removelast_sublist|done].
Qed.

Ltac preserve_with tac :=
  repeat first
    [ apply preserves_mret | apply preserves_throw | apply preserves_gets
    | apply preserves_deref | apply preserves_emit
    | apply preserves_update_engine | apply preserves_kill
    | apply preserves_createProcess | apply preserves_PROCESSES_pop
    | tac
    | apply preserves_update_process; intros ? ?; simpl;
      rewrite ?length_app; simpl; lia
    | apply preserves_forEach; intros ? ?
    | apply preserves_bind; [|intros ?]
    | match goal with
      | |- preserves _ (if ?b then _ else _) => destruct b
      | |- preserves _ (match ?x with _ => _ end) => destruct x
      end ].

Ltac preserve := preserve_with fail.

Lemma preserves_handleExecFileResult eng scr err out errout cb now later :
  preserves wf (handleExecFileResult eng scr err out errout cb now later).
Proof. unfold handleExecFileResult, testsQueue_pop. preserve. Qed.

Lemma preserves_pidUsageCallback err stats p :
  preserves wf (pidUsageCallback err stats p).
Proof.
  unfold pidUsageCallback. preserve.
  intros st y st' HI [= _ <-].
  apply wf_set_PROCESSES; [apply splice_sublist|done].
Qed.

Lemma preserves_on_data (stderr : bool) child data :
  preserves wf
    (if stderr then on_stderr_data child data else on_stdout_data child data).
Proof.
  intros st y st' HI Hrun.
  destruct stderr; unfold on_stderr_data, on_stdout_data in Hrun;
    apply bind_inv in Hrun as (c & st1 & Hc & Hrun);
    apply deref_inv in Hc as [Hc ->]; injection Hrun as _ <-;
    by eapply wf_update_closures.
Qed.

Lemma preserves_step ev now : preserves wf (step ev now).
Proof.
  destruct ev; simpl.
  - preserve.
  - apply (preserves_on_data false).
  - apply (preserves_on_data true).
  - preserve.
  - unfold on_close. preserve_with ltac:(apply preserves_handleExecFileResult).
  - unfold on_error. preserve_with ltac:(apply preserves_handleExecFileResult).
  - unfold tick, monitor. preserve.
  - apply preserves_pidUsageCallback.
  - unfold on_usage_rejected. preserve.
Qed.

Lemma wf_initial engs : wf (initial engs).
Proof.
  split; simpl; try done.
  - apply NoDup_nil_2.
  - intros r Hr. inv Hr.
  - lia.
  - lia.
Qed.

(** The invariant of the store *)
Lemma reachable_wf st : reachable st → wf st.
Proof.
  induction 1 as [engs|st ev now st' _ IH Hstep].
  - apply wf_initial.
  - by eapply preserves_step.
Qed.

End Invariant.

(** ** One tick, and one engine run to its end *)

Section Runs.
Context `{Collaborators}.

Lemma flat_map_ext_elem {A B} (f g : A → list B) l :
  (∀ x, x ∈ l → f x = g x) → flat_map f l = flat_map g l.
Proof.
  induction l as [|x l IH]; intros Hfg; simpl; [done|].
  rewrite (Hfg x) by left. rewrite IH; [done|]. intros y Hy. apply Hfg. by right.
Qed.

Lemma elem_of_flat_map {A B} (f : A → list B) l y :
  y ∈ flat_map f l ↔ ∃ x, x ∈ l ∧ y ∈ f x.
Proof.
  induction l as [|x l IH]; simpl.
  - split; [intros Hy; inv Hy|intros (x & Hx & _); inv Hx].
  - rewrite elem_of_app, IH. split.
    + intros [Hy|(x' & Hx' & Hy)]; [exists x; split; [left|done]|].
      exists x'. split; [by right|done].
    + intros (x' & Hx' & Hy). inv Hx'; [by left|right; eauto].
Qed.

Lemma elem_of_concat_imap {A B} (f : nat → A → list B) l y :
  y ∈ concat (imap f l) ↔ ∃ i x, l !! i = Some x ∧ y ∈ f i x.
Proof.
  revert f. induction l as [|a l IH]; intros f; simpl.
  - split; [intros Hy; inv Hy|by intros (i & x & Hx & _)].
  - rewrite elem_of_app, IH. split.
    + intros [Hy|(i & x & Hx & Hy)]; [by exists 0, a|by exists (S i), x].
    + intros ([|i] & x & Hx & Hy); simpl in Hx.
      * injection Hx as ->. by left.
      * right. by exists i, x.
Qed.

Lemma forEach_from_S {A} i (arr : list A) body :
  forEach_from (S i) arr body = forEach_from i arr (λ x k, body x (S k)).
Proof.
  revert i. induction arr as [|x arr IH]; intros i; simpl; [done|].
  by rewrite IH.
Qed.

(** The loop of a tick: every element of [PROCESSES] is looked at once,
    against its own object and its own reading of the clock *)
Lemma forEach_monitor TIMEOUT arr : ∀ now st,
  NoDup arr → (∀ r, r ∈ arr → is_Some (heap st !! r)) →
  ∃ h,
    forEach arr (λ cp i, monitor TIMEOUT (now i) cp) st =
      inr (tt, set_heap h
                 (set_trace (trace st ++
                    concat (imap (λ i, monitor_effects TIMEOUT (now i) st)
                              arr)) st)) ∧
    (∀ i r, arr !! i = Some r →
            h !! r = monitored TIMEOUT (now i) <$> heap st !! r) ∧
    (∀ r, r ∉ arr → h !! r = heap st !! r).
Proof.
  induction arr as [|x arr IH]; intros now st Hnd Hobj.
  - exists (heap st). split; [|done].
    unfold forEach. simpl. rewrite app_nil_r. by destruct st.
  - apply NoDup_cons in Hnd as [Hx Hnd].
    destruct (Hobj x) as [p Hp]; [left|].
    unfold forEach. cbn [forEach_from]. rewrite forEach_from_S.
    rewrite bind_eq, (monitor_eq _ _ _ _ _ Hp).
    set (st1 := set_heap _ _).
    assert (∀ r, r ∈ arr → heap st1 !! r = heap st !! r) as Hsame.
    { intros r Hr. simpl. apply lookup_insert_ne. by intros ->. }
    destruct (IH (now ∘ S) st1 Hnd) as (h & Hrun & Hin & Hout).
    { intros r Hr. rewrite Hsame by done. apply Hobj. by right. }
    exists h. split; [|split].
    + unfold forEach in Hrun. simpl in Hrun. rewrite Hrun. simpl.
      rewrite <- app_assoc.
      rewrite (imap_ext (λ i, monitor_effects TIMEOUT (now (S i)) st1)
                 (λ i, monitor_effects TIMEOUT (now (S i)) st)); [done|].
      intros i r Hr. unfold monitor_effects.
      by rewrite Hsame by by eapply list_elem_of_lookup_2.
    + intros [|i] r Hr; simpl in Hr.
      * injection Hr as ->. rewrite Hout by done. simpl.
        by rewrite lookup_insert_eq, Hp.
      * rewrite (Hin i r Hr). simpl.
        rewrite lookup_insert_ne; [done|].
        intros ->. by apply Hx, (list_elem_of_lookup_2 _ i).
    + intros r Hr. rewrite Hout by (intros ?; apply Hr; by right).
      simpl. rewrite lookup_insert_ne; [done|]. intros ->. apply Hr. left.
Qed.

Lemma run_cons ev now evs st :
  run ((ev, now) :: evs) st =
    match step ev now st with
    | inl e => inl e
    | inr (_, st') => run evs st'
    end.
Proof. reflexivity. Qed.

Lemma run_reachable evs st st' :
  reachable st → run evs st = inr (tt, st') → reachable st'.
Proof.
  revert st. induction evs as [|[ev now] evs IH]; intros st Hst Hrun.
  - by injection Hrun as <-.
  - rewrite run_cons in Hrun.
    destruct (step ev now st) as [|[[] st1]] eqn:Hstep; [done|].
    eapply IH; [|done]. by eapply reachable_step.
Qed.

Lemma with_result_path e scr err out errout now pr p :
  path (with_result e scr err out errout now pr p) = path e.
Proof. unfold with_result. by destruct (passes err p). Qed.

Lemma with_result_testsQueue e scr err out errout now pr p :
  testsQueue (with_result e scr err out errout now pr p) = testsQueue e.
Proof. unfold with_result. by destruct (passes err p). Qed.

Lemma with_result_count e scr err out errout now pr p :
  length (testsPassed (with_result e scr err out errout now pr p)) +
  length (testsFailed (with_result e scr err out errout now pr p)) =
  S (length (testsPassed e) + length (testsFailed e)).
Proof.
  unfold with_result. destruct (passes err p); simpl; rewrite length_app; simpl; lia.
Qed.

(** An engine whose running child is the last element of [PROCESSES], and
    whose every child closes in turn: the scripts of the queue are spawned
    from its end to its start, then the callback is called *)
Lemma chain eng cb outs :
  ∀ st child c arr e,
    length outs = S (length (testsQueue e)) →
    (∀ s, s ∈ testsQueue e → accepts e s) →
    PROCESSES st = arr ++ [child] →
    is_Some (heap st !! child) →
    closures st !! child = Some c →
    c_engine c = eng → c_callback c = cb →
    engines st !! eng = Some e →
    spawned st = S child →
    ∃ st' e',
      run (closes child outs) st = inr (tt, st') ∧
      trace st' = trace st ++ spawns (path e) (S child) (rev (testsQueue e))
                    ++ [Callback cb eng] ∧
      PROCESSES st' = arr ∧
      engines st' !! eng = Some e' ∧
      testsQueue e' = [] ∧
      length (testsPassed e') + length (testsFailed e') =
        length (testsPassed e) + length (testsFailed e) + length outs.
Proof.
  induction outs as [|[[code signal] now] outs IH];
    intros st child c arr e Hlen Hacc HP [p Hp] Hc Heng Hcb He Hsp; [done|].
  simpl closes. rewrite run_cons. simpl step.
  rewrite (on_close_eq _ _ _ _ _ _ _ Hc), Heng, Hcb.
  destruct (testsQueue e) as [|s q _] eqn:Hq using rev_ind.
  - destruct outs; [|done].
    rewrite (handle_last _ _ _ _ _ _ _ _ _ _ _ _ _ HP Hp He Hq).
    eexists _, _. split; [done|]. simpl.
    rewrite lookup_insert_eq, with_result_testsQueue, with_result_count.
    repeat split; try done. lia.
  - assert (s ∈ q ++ [s]) as Hin by (apply elem_of_app; right; left).
    destruct (Hacc s Hin (spawned st)) as [handle Hhandle].
    rewrite (handle_next _ _ _ _ _ _ _ _ _ _ _ _ _ _ _ _ HP Hp He Hq Hhandle), Hsp.
    set (e1 := set_testsQueue q _).
    set (c1 := Build_Closure _ _ _ _ _).
    set (st1 := Build_State _ _ _ _ _ _).
    rewrite length_app in Hlen. simpl in Hlen.
    destruct (IH st1 (S child) c1 arr e1)
      as (st' & e' & Hrun & Htr & HP' & He' & Hq' & Hn); try done.
    + simpl. lia.
    + intros s' Hs' n. unfold e1. simpl.
      assert (s' ∈ q ++ [s]) as Hin' by (apply elem_of_app; by left).
      destruct (Hacc s' Hin' n) as [c' Hc'].
      exists c'. by rewrite with_result_path.
    + simpl. by rewrite lookup_insert_eq.
    + simpl. apply lookup_insert_eq.
    + simpl. apply lookup_insert_eq.
    + exists st', e'. split; [done|].
      split; [|split; [done|split; [done|split; [done|]]]].
      * rewrite Htr. simpl. rewrite with_result_path, rev_unit. simpl.
        by rewrite <- app_assoc.
      * rewrite Hn. simpl. rewrite with_result_count. simpl. lia.
Qed.

End Runs.

(** * The statements of the specification *)

Section Claims.
Context `{Collaborators}.

(** The handler in both cases of the queue: what it leaves in the engine
    and in the store *)
Lemma handle_result eng scr err out errout cb now later st arr pr p e :
  PROCESSES st = arr ++ [pr] →
  heap st !! pr = Some p →
  engines st !! eng = Some e →
  spawns_next st e →
  ∃ st',
    handleExecFileResult eng scr err out errout cb now later st = inr (tt, st') ∧
    engines st' !! eng =
      Some (set_testsQueue (removelast (testsQueue e))
              (with_result e scr err out errout now pr p)) ∧
    (∀ r, r ≠ spawned st → heap st' !! r = heap st !! r) ∧
    trace st' = trace st ++
      match last (testsQueue e) with
      | None => [Callback cb eng]
      | Some s => [Spawn (path e) [s] (spawned st)]
      end.
Proof.
  intros HP Hp He Hsp. unfold spawns_next in Hsp.
  destruct (testsQueue e) as [|s q _] eqn:Hq using rev_ind.
  - eexists. split; [by eapply handle_last|]. simpl.
    rewrite lookup_insert_eq. split; [|done]. f_equal.
    pose proof (with_result_testsQueue e scr err out errout now pr p) as Hw.
    rewrite Hq in Hw. unfold set_testsQueue.
    destruct (with_result _ _ _ _ _ _ _ _). simpl in *. by subst.
  - destruct (Hsp s) as [child Hchild]; [apply last_snoc|].
    eexists. split; [by eapply handle_next|]. simpl.
    rewrite lookup_insert_eq, removelast_last, last_snoc.
    split; [done|]. split; [|done].
    intros r Hr. by rewrite lookup_insert_ne.
Qed.

Lemma with_result_passed e scr err out errout now pr p :
  passes err p = true →
  testsPassed (with_result e scr err out errout now pr p) =
    testsPassed e ++ [success_record e scr out errout now pr p] ∧
  testsFailed (with_result e scr err out errout now pr p) = testsFailed e.
Proof. intros Hpass. unfold with_result. by rewrite Hpass. Qed.

Lemma with_result_failed e scr err out errout now pr p :
  passes err p = false →
  testsFailed (with_result e scr err out errout now pr p) =
    testsFailed e ++ [failure_record scr out errout now pr p] ∧
  testsPassed (with_result e scr err out errout now pr p) = testsPassed e.
Proof. intros Hpass. unfold with_result. by rewrite Hpass. Qed.

Lemma passes_iff err p :
  passes err p = true ↔
  err = None ∧ checkIfProcessFinishedCorrectly (childProcess p) = true.
Proof.
  unfold passes. rewrite andb_true_iff, negb_true_iff, bool_decide_eq_false.
  split; intros [Herr ?]; (split; [|done]).
  - destruct err; [|done]. exfalso. by apply Herr.
  - rewrite Herr. by intros [? ?].
Qed.

Lemma failure_status_not_success scr out errout now pr p :
  status (failure_record scr out errout now pr p) ≠ "success".
Proof.
  simpl. destruct (isTimedOut p); [done|]. unfold error_status. done.
Qed.

(** X17.  A run of the completion handler records a pass (a record with
    status [success] and the parsed stdout, on [testsPassed]) if and only
    if the end result is null and the verdict predicate accepts the handle
    of the popped process, the last one of [PROCESSES], whichever test has
    ended; every other combination appends a record that is not a success
    to [testsFailed].  The [close] handler passes null exactly when the
    code is 0, the [error] handler never. *)
Theorem pass_iff_null_and_verdict_of_popped
    eng scr err out errout cb now later st arr pr p e :
  PROCESSES st = arr ++ [pr] →
  heap st !! pr = Some p →
  engines st !! eng = Some e →
  spawns_next st e →
  (∃ st' e',
    handleExecFileResult eng scr err out errout cb now later st = inr (tt, st') ∧
    engines st' !! eng = Some e' ∧
    (err = None ∧ checkIfProcessFinishedCorrectly (childProcess p) = true →
     ∃ r, testsPassed e' = testsPassed e ++ [r] ∧
          testsFailed e' = testsFailed e ∧
          status r = "success" ∧
          r_stdout r = parseTestOutput (name e) scr out) ∧
    (¬ (err = None ∧ checkIfProcessFinishedCorrectly (childProcess p) = true) →
     ∃ r, testsFailed e' = testsFailed e ++ [r] ∧
          testsPassed e' = testsPassed e ∧
          status r ≠ "success") ∧
    ((∃ r, testsPassed e' = testsPassed e ++ [r]) ↔
     err = None ∧ checkIfProcessFinishedCorrectly (childProcess p) = true)) ∧
  (∀ child c code signal,
    closures st !! child = Some c →
    on_close child code signal now later st =
      handleExecFileResult (c_engine c) (c_script c)
        (end_result_of_close code signal)
        (c_stdout c) (c_stderr c) (c_callback c) now later st ∧
    (end_result_of_close code signal = None ↔ code = Some 0%Z)) ∧
  (∀ child c error,
    closures st !! child = Some c →
    on_error child (Some error) now later st =
      handleExecFileResult (c_engine c) (c_script c)
        (Some {| code := None; signal := None; error := Some error |})
        (c_stdout c) (c_stderr c) (c_callback c) now later st).
Proof.
  intros HP Hp He Hsp. split; [|split].
  - destruct (handle_result eng scr err out errout cb now later _ _ _ _ _ HP Hp He Hsp)
      as (st' & Hrun & He' & _).
    eexists st', _. split; [done|]. split; [done|]. simpl.
    destruct (passes err p) eqn:Hpass.
    + destruct (with_result_passed e scr err out errout now pr p Hpass)
        as [-> ->].
      apply passes_iff in Hpass. split; [|split].
      * intros _. by eexists.
      * intros Hn. done.
      * split; [done|]. intros _. by eexists.
    + destruct (with_result_failed e scr err out errout now pr p Hpass)
        as [-> ->].
      assert (¬ (err = None ∧
                 checkIfProcessFinishedCorrectly (childProcess p) = true))
        as Hn by (rewrite <- passes_iff; congruence).
      split; [done|]. split.
      * intros _. eexists. split; [done|]. split; [done|].
        apply failure_status_not_success.
      * split; [|done]. intros [r Hr]. exfalso.
        apply (f_equal length) in Hr. rewrite length_app in Hr. simpl in Hr. lia.
  - intros child c code signal Hc. split; [by apply on_close_eq|].
    apply end_result_of_close_None.
  - intros child c error Hc. by apply on_error_eq.
Qed.

(** C10.  The status of a failure that is not a timeout is [error ]
    followed by the exit code when that is truthy, else by the signal code
    (the text [null] when there is none): a child that exits with code 0
    and fails the verdict is recorded as [error null]. *)
Theorem error_status_code_or_signal eng scr err out errout cb now later st arr pr p e :
  PROCESSES st = arr ++ [pr] →
  heap st !! pr = Some p →
  engines st !! eng = Some e →
  spawns_next st e →
  passes err p = false →
  isTimedOut p = false →
  ∃ st' e' r,
    handleExecFileResult eng scr err out errout cb now later st = inr (tt, st') ∧
    engines st' !! eng = Some e' ∧
    testsFailed e' = testsFailed e ++ [r] ∧
    status r = "error " +:+
      match exitCode (childProcess p), signalCode (childProcess p) with
      | Some z, sig =>
          if decide (z = 0%Z)
          then match sig with Some s => s | None => "null" end
          else pretty z
      | None, Some s => s
      | None, None => "null"
      end ∧
    (exitCode (childProcess p) = Some 0%Z →
     signalCode (childProcess p) = None →
     status r = "error null").
Proof.
  intros HP Hp He Hsp Hpass Hto.
  destruct (handle_result eng scr err out errout cb now later _ _ _ _ _ HP Hp He Hsp)
    as (st' & Hrun & He' & _).
  eexists st', _, _. split; [done|]. split; [done|]. simpl.
  destruct (with_result_failed e scr err out errout now pr p Hpass) as [-> _].
  split; [done|]. simpl. rewrite Hto. unfold error_status, truthy_num.
  split.
  - destruct (exitCode (childProcess p)) as [z|]; [|done].
    destruct (decide (z = 0%Z)) as [->|Hz]; [done|].
    by rewrite bool_decide_eq_true_2.
  - by intros -> ->.
Qed.

Lemma spawned_scripts_app t1 t2 :
  spawned_scripts (t1 ++ t2) = spawned_scripts t1 ++ spawned_scripts t2.
Proof. apply flat_map_app. Qed.

Lemma callbacks_app t1 t2 : callbacks (t1 ++ t2) = callbacks t1 ++ callbacks t2.
Proof. apply flat_map_app. Qed.

Lemma spawned_scripts_spawns command child scripts :
  spawned_scripts (spawns command child scripts) = scripts.
Proof.
  revert child. induction scripts as [|s scripts IH]; intros child; simpl;
    [done|]. f_equal. apply IH.
Qed.

Lemma callbacks_spawns command child scripts :
  callbacks (spawns command child scripts) = [].
Proof.
  revert child. induction scripts as [|s scripts IH]; intros child; simpl;
    [done|]. apply IH.
Qed.

(** C3, as the code has it.  The queue of an engine is taken from its end:
    when the harness starts a script of an engine and each child of the
    engine closes in turn, the scripts of the queue are spawned from the
    last element of the array to the first, each one in the run of the
    completion handler for the child before it, and the run of the handler
    that finds the queue empty calls the callback, once.  A single run of
    the handler spawns the last script of the queue and calls nothing, or
    finds the queue empty and calls the callback once. *)
Theorem queue_taken_from_its_end eng cb st e :
  engines st !! eng = Some e →
  (∀ s0 t0 outs,
    length outs = S (length (testsQueue e)) →
    accepts e s0 → (∀ s, s ∈ testsQueue e → accepts e s) →
    ∃ st' e' new,
      run ((CreateProcess eng s0 cb, t0) :: closes (spawned st) outs) st
        = inr (tt, st') ∧
      trace st' = trace st ++ new ∧
      new = spawns (path e) (spawned st) (s0 :: rev (testsQueue e))
              ++ [Callback cb eng] ∧
      spawned_scripts new = s0 :: rev (testsQueue e) ∧
      callbacks new = [(cb, eng)] ∧
      engines st' !! eng = Some e' ∧
      testsQueue e' = [] ∧
      PROCESSES st' = PROCESSES st) ∧
  (∀ scr err out errout now later arr pr p,
    PROCESSES st = arr ++ [pr] →
    heap st !! pr = Some p →
    spawns_next st e →
    ∃ st' e',
      handleExecFileResult eng scr err out errout cb now later st =
        inr (tt, st') ∧
      engines st' !! eng = Some e' ∧
      (testsQueue e = [] →
       trace st' = trace st ++ [Callback cb eng] ∧ testsQueue e' = [] ∧
       PROCESSES st' = arr) ∧
      (∀ q s, testsQueue e = q ++ [s] →
       trace st' = trace st ++ [Spawn (path e) [s] (spawned st)] ∧
       testsQueue e' = q ∧ PROCESSES st' = arr ++ [spawned st])).
Proof.
  intros He. split.
  - intros s0 t0 outs Hlen Hs0 Hacc. rewrite run_cons. simpl step.
    rewrite bind_eq. destruct (Hs0 (spawned st)) as [child Hchild].
    rewrite (createProcess_eq _ s0 cb (t0 0) _ _ _ He Hchild). simpl.
    set (c1 := Build_Closure _ _ _ _ _).
    set (st1 := Build_State _ _ _ _ _ _).
    destruct (chain eng cb outs st1 (spawned st) c1 (PROCESSES st) e)
      as (st' & e' & Hrun & Htr & HP & He' & Hq & _); try done.
    + simpl. by rewrite lookup_insert_eq.
    + simpl. apply lookup_insert_eq.
    + exists st', e',
        (spawns (path e) (spawned st) (s0 :: rev (testsQueue e))
           ++ [Callback cb eng]).
      split; [done|].
      split; [rewrite Htr; simpl; by rewrite <- app_assoc|].
      split; [done|].
      rewrite spawned_scripts_app, callbacks_app.
      rewrite spawned_scripts_spawns, callbacks_spawns. simpl.
      by rewrite app_nil_r.
  - intros scr err out errout now later arr pr p HP Hp Hsp.
    unfold spawns_next in Hsp.
    destruct (testsQueue e) as [|s q _] eqn:Hq using rev_ind.
    + eexists _, _. split; [by eapply handle_last|]. simpl.
      rewrite lookup_insert_eq. split; [done|]. split.
      * intros _. by rewrite with_result_testsQueue.
      * intros q s Hq'. by destruct q.
    + destruct (Hsp s) as [child Hchild]; [apply last_snoc|].
      eexists _, _. split; [by eapply handle_next|]. simpl.
      rewrite lookup_insert_eq. split; [done|]. split; [by destruct q|].
      intros q' s' [-> ->]%app_inj_tail. done.
Qed.

Lemma monitor_effects_elem TIMEOUT now st cp p x :
  heap st !! cp = Some p →
  x ∈ monitor_effects TIMEOUT now st cp ↔
  checkIfProcessExists (childProcess p) = true ∧
  ((now - startTime p <? TIMEOUT)%float = true ∧ x = PidusageTree cp ∨
   (now - startTime p <? TIMEOUT)%float = false ∧
   x = KillProcess cp (script p +:+ " timeout")).
Proof.
  intros Hp. unfold monitor_effects. rewrite Hp.
  destruct (checkIfProcessExists (childProcess p)).
  - destruct (now - startTime p <? TIMEOUT)%float;
      rewrite list_elem_of_singleton; split.
    + intros ->. split; [done|]. by left.
    + intros [_ [[_ ->]|[? _]]]; done.
    + intros ->. split; [done|]. by right.
    + intros [_ [[? _]|[_ ->]]]; done.
  - split; [intros Hx; inv Hx|]. by intros [? _].
Qed.

(** C6.  On a tick, for each process of [PROCESSES]: when the liveness
    predicate rejects its handle, the tick neither queries nor kills nor
    flags it; when it accepts the handle and the elapsed time, the double
    [performance.now() - cp.startTime] with the reading [now i] that the
    clock yields when the process, of index [i], is examined, has reached
    [TIMEOUT] (or is otherwise not below it), the process is killed and
    flagged and no query is issued for it; a query is issued exactly when
    the handle is accepted and the elapsed time is below [TIMEOUT], and
    then nothing is killed. *)
Theorem tick_liveness_then_timeout_then_query TIMEOUT now st :
  reachable st →
  ∃ st' new,
    tick TIMEOUT now st = inr (tt, st') ∧
    trace st' = trace st ++ new ∧
    PROCESSES st' = PROCESSES st ∧
    ∀ i cp p,
      PROCESSES st !! i = Some cp → heap st !! cp = Some p →
      (checkIfProcessExists (childProcess p) = false →
       heap st' !! cp = Some p ∧
       (PidusageTree cp ∉ new) ∧ (∀ reason, KillProcess cp reason ∉ new)) ∧
      (checkIfProcessExists (childProcess p) = true →
       (TIMEOUT <=? now i - startTime p)%float = true ∨
       (now i - startTime p <? TIMEOUT)%float = false →
       ∃ p', heap st' !! cp = Some p' ∧ isTimedOut p' = true ∧
             (KillProcess cp (script p +:+ " timeout") ∈ new) ∧
             (PidusageTree cp ∉ new)) ∧
      ((PidusageTree cp ∈ new) ↔
       checkIfProcessExists (childProcess p) = true ∧
       (now i - startTime p <? TIMEOUT)%float = true) ∧
      ((now i - startTime p <? TIMEOUT)%float = true →
       heap st' !! cp = Some p ∧ (∀ reason, KillProcess cp reason ∉ new)).
Proof.
  intros Hwf%reachable_wf. destruct Hwf as [_ Hnd Hbound Hheap _].
  destruct (forEach_monitor TIMEOUT (PROCESSES st) now st Hnd)
    as (h & Hrun & Hh & _); [by intros r Hr%Hbound%Hheap|].
  eexists _, _. split; [unfold tick; by rewrite bind_eq|].
  split; [done|]. split; [done|]. simpl.
  intros i cp p Hcp Hp.
  set (new := concat (imap _ _)).
  assert (∀ x, (∀ k r, x ∈ monitor_effects TIMEOUT (now k) st r → r = cp) →
    x ∈ new ↔ x ∈ monitor_effects TIMEOUT (now i) st cp) as Hmine.
  { intros x Hx. unfold new. rewrite elem_of_concat_imap.
    split; [|by exists i, cp].
    intros (k & r & Hr & Hin). pose proof (Hx k r Hin) as ->.
    by rewrite (NoDup_lookup _ _ _ _ Hnd Hcp Hr). }
  assert (∀ x, (∃ reason, x = KillProcess cp reason) ∨ x = PidusageTree cp →
    ∀ k r, x ∈ monitor_effects TIMEOUT (now k) st r → r = cp) as Hown.
  { intros x Hx k r Hin. unfold monitor_effects in Hin.
    destruct (heap st !! r) as [q|]; [|inv Hin].
    destruct (checkIfProcessExists (childProcess q)); [|inv Hin].
    destruct (now k - startTime q <? TIMEOUT)%float;
      apply list_elem_of_singleton in Hin;
      destruct Hx as [[? Hx]|Hx]; congruence. }
  rewrite (Hh i cp Hcp), Hp. simpl. unfold monitored.
  assert (∀ x, (∃ reason, x = KillProcess cp reason) ∨ x = PidusageTree cp →
    x ∈ new ↔
    checkIfProcessExists (childProcess p) = true ∧
    ((now i - startTime p <? TIMEOUT)%float = true ∧ x = PidusageTree cp ∨
     (now i - startTime p <? TIMEOUT)%float = false ∧
     x = KillProcess cp (script p +:+ " timeout"))) as Hin.
  { intros x Hx. rewrite Hmine by by apply Hown.
    by apply monitor_effects_elem. }
  split; [|split; [|split]].
  - intros Hex. rewrite Hex. simpl. split; [done|]. split.
    + rewrite Hin by eauto. intros [? _]. congruence.
    + intros reason. rewrite Hin by eauto. intros [? _]. congruence.
  - intros Hex Hover.
    assert ((now i - startTime p <? TIMEOUT)%float = false) as Hnot
      by (destruct Hover as [Hover|Hover]; [by apply leb_not_ltb|done]).
    rewrite Hex, Hnot. simpl.
    eexists. split; [done|]. split; [done|]. split.
    + rewrite Hin by eauto. split; [done|]. by right.
    + rewrite Hin by eauto. intros [_ [[? _]|[_ ?]]]; congruence.
  - rewrite Hin by eauto. split.
    + intros [? [[? _]|[_ ?]]]; done.
    + intros [? ?]. split; [done|]. by left.
  - intros Hbelow. rewrite Hbelow. simpl.
    rewrite andb_false_r. split; [done|].
    intros reason. rewrite Hin by eauto.
    intros [_ [[_ ?]|[? _]]]; congruence.
Qed.

(** C7.  When the query hands an error to its callback for a process whose
    handle the liveness predicate accepts, the process is killed and taken
    out of [PROCESSES] at once: no sample is appended, no other process
    leaves [PROCESSES], and no engine is touched (the completion handler
    does not run).  The process is found by its pid, which no other
    process of [PROCESSES] carries.  When the query is rejected for a
    process without a sample, a warning is emitted and nothing else
    happens. *)
Theorem query_error_kills_and_removes st p pr :
  reachable st →
  heap st !! p = Some pr →
  (checkIfProcessExists (childProcess pr) = true →
   p ∈ PROCESSES st →
   (∀ cp c, cp ∈ PROCESSES st → cp ≠ p → heap st !! cp = Some c →
            pid (childProcess c) ≠ pid (killProcess (childProcess pr) "error")) →
   ∀ e stats, ∃ st' pr',
     pidUsageCallback (Some e) stats p st = inr (tt, st') ∧
     trace st' = trace st ++ [ConsoleError e; KillProcess p "error"] ∧
     (p ∉ PROCESSES st') ∧
     (∀ r, r ≠ p → r ∈ PROCESSES st' ↔ r ∈ PROCESSES st) ∧
     heap st' !! p = Some pr' ∧
     cpuVals pr' = cpuVals pr ∧ memVals pr' = memVals pr ∧
     engines st' = engines st) ∧
  (cpuVals pr = [] → memVals pr = [] →
   ∃ msg,
     on_usage_rejected p st =
       inr (tt, set_trace (trace st ++ [ConsoleWarn "#WARN: " msg]) st)).
Proof.
  intros Hwf%reachable_wf Hp. destruct Hwf as [_ Hnd Hbound Hheap _]. split.
  - intros Hex Hin Hpid e stats.
    rewrite (pidUsageCallback_err _ _ _ _ _ Hp Hex).
    eexists _, _. split; [done|]. simpl.
    apply list_elem_of_split in Hin as (l1 & l2 & Hl).
    rewrite Hl in Hnd.
    apply NoDup_app in Hnd as (_ & Hl1 & [Hl2 _]%NoDup_cons).
    assert (findIndex
              (same_pid
                 (set_heap (<[p:=killed_process "error" pr]> (heap st))
                    (set_trace
                       (trace st ++ [ConsoleError e; KillProcess p "error"])
                       st))
                 (killed_process "error" pr)) (PROCESSES st)
            = Z.of_nat (length l1)) as ->.
    { rewrite Hl. apply findIndex_unique.
      - intros y Hy. unfold same_pid. simpl.
        assert (y ≠ p) as Hne by (intros ->; by apply (Hl1 p Hy); left).
        rewrite lookup_insert_ne by done.
        destruct (heap st !! y) as [c|] eqn:Hc; [|done].
        apply bool_decide_eq_false_2, (Hpid y c); [|done|done].
        rewrite Hl. apply elem_of_app. by left.
      - unfold same_pid. simpl. rewrite lookup_insert_eq.
        by apply bool_decide_eq_true_2. }
    rewrite Hl, splice_at.
    split; [done|]. split.
    { intros [?|?]%elem_of_app; [by apply (Hl1 p); [|left]|done]. }
    split.
    { intros r Hr. rewrite !elem_of_app, elem_of_cons. split.
      - intros [?|?]; [by left|by right; right].
      - intros [?|[?|?]]; [by left|done|by right]. }
    rewrite lookup_insert_eq. done.
  - intros Hc Hm. rewrite (on_usage_rejected_eq _ _ _ Hp), Hc, Hm. simpl.
    by eexists.
Qed.

(** Beside C7: for a process that is no longer in [PROCESSES] (and whose
    pid no process there carries), [findIndex] yields -1 and
    [splice(-1, 1)] takes the last process out instead *)
Lemma query_error_for_unregistered_removes_last st p pr arr last e stats :
  heap st !! p = Some pr →
  checkIfProcessExists (childProcess pr) = true →
  PROCESSES st = arr ++ [last] →
  (∀ cp, cp ∈ PROCESSES st →
         same_pid
           (set_heap (<[p := killed_process "error" pr]> (heap st))
              (set_trace (trace st ++ [ConsoleError e; KillProcess p "error"])
                 st))
           (killed_process "error" pr) cp = false) →
  ∃ st', pidUsageCallback (Some e) stats p st = inr (tt, st') ∧
         PROCESSES st' = arr.
Proof.
  intros Hp Hex HP Hpid. rewrite (pidUsageCallback_err _ _ _ _ _ Hp Hex).
  eexists. split; [done|]. simpl.
  rewrite findIndex_none by done. rewrite HP. apply splice_minus_one.
Qed.

(** C8.  The record that a run of the completion handler appends carries
    the arrays of the popped process, which have the same length, and
    what [Math.max] and [Math.min] yield on them: on samples without NaN,
    [maxCPU]
    and [minCPU] are samples of [cpuVals] that no sample exceeds,
    respectively falls below, and likewise [maxMem] and [minMem] on
    [memVals]; without any sample the four fields are -Infinity for the
    two maxima and +Infinity for the two minima. *)
Theorem record_stats_are_extrema eng scr err out errout cb now later st arr pr p e :
  reachable st →
  PROCESSES st = arr ++ [pr] →
  heap st !! pr = Some p →
  engines st !! eng = Some e →
  spawns_next st e →
  ∃ st' e' r,
    handleExecFileResult eng scr err out errout cb now later st = inr (tt, st') ∧
    engines st' !! eng = Some e' ∧
    (testsPassed e' = testsPassed e ++ [r] ∧ testsFailed e' = testsFailed e ∨
     testsFailed e' = testsFailed e ++ [r] ∧ testsPassed e' = testsPassed e) ∧
    cpus (stats r) = pr ∧ mems (stats r) = pr ∧
    heap st' !! pr = Some p ∧
    length (cpuVals p) = length (memVals p) ∧
    maxCPU (stats r) = Math_max (cpuVals p) ∧
    minCPU (stats r) = Math_min (cpuVals p) ∧
    maxMem (stats r) = Math_max (memVals p) ∧
    minMem (stats r) = Math_min (memVals p) ∧
    (cpuVals p ≠ [] → NaN ∉ cpuVals p → NaN ∉ memVals p →
     (maxCPU (stats r) ∈ cpuVals p) ∧
     (∀ x, x ∈ cpuVals p → num_lt (maxCPU (stats r)) x = false) ∧
     (minCPU (stats r) ∈ cpuVals p) ∧
     (∀ x, x ∈ cpuVals p → num_lt x (minCPU (stats r)) = false) ∧
     (maxMem (stats r) ∈ memVals p) ∧
     (∀ x, x ∈ memVals p → num_lt (maxMem (stats r)) x = false) ∧
     (minMem (stats r) ∈ memVals p) ∧
     (∀ x, x ∈ memVals p → num_lt x (minMem (stats r)) = false)) ∧
    (cpuVals p = [] →
     maxCPU (stats r) = NegInf ∧ minCPU (stats r) = PosInf ∧
     maxMem (stats r) = NegInf ∧ minMem (stats r) = PosInf).
Proof.
  intros Hwf%reachable_wf HP Hp He Hsp.
  destruct Hwf as [Hpaired _ Hbound _ _].
  destruct (handle_result eng scr err out errout cb now later _ _ _ _ _ HP Hp He Hsp)
    as (st' & Hrun & He' & Hheap & _).
  assert (length (cpuVals p) = length (memVals p)) as Hlen
    by by eapply Hpaired.
  assert (pr < spawned st) as Hpr
    by (apply Hbound; rewrite HP, elem_of_app; right; left).
  exists st'. eexists.
  exists (if passes err p then success_record e scr out errout now pr p
          else failure_record scr out errout now pr p).
  split; [done|]. split; [done|]. simpl.
  split.
  { destruct (passes err p) eqn:Hpass.
    - left. by apply with_result_passed.
    - right. by apply with_result_failed. }
  assert (stats (if passes err p
                 then success_record e scr out errout now pr p
                 else failure_record scr out errout now pr p)
          = make_stats pr (cpuVals p) (memVals p)) as ->
    by by destruct (passes err p).
  simpl. split; [done|]. split; [done|].
  split; [rewrite Hheap by lia; done|]. split; [done|].
  do 4 (split; [done|]). split.
  - intros Hne Hcpu Hmem.
    assert (memVals p ≠ []) as Hne'
      by (intros Hm; rewrite Hm in Hlen; by destruct (cpuVals p)).
    destruct (Math_max_spec _ Hne Hcpu), (Math_min_spec _ Hne Hcpu),
      (Math_max_spec _ Hne' Hmem), (Math_min_spec _ Hne' Hmem).
    done.
  - intros Hc. rewrite Hc in Hlen |- *.
    destruct (memVals p); [done|done].
Qed.

End Claims.

(** * The statements on the sample runs *)

Section Samples.
#[local] Existing Instance sample.

(** C1.  With two engines at work the completion handler takes the last
    element of [PROCESSES], whichever engine it belongs to: the child of
    [v8] closes while the child of [jsc] is the last one registered, and
    the record of [v8] carries the samples of the process of [jsc], whose
    handle is also the one the verdict is asked about; the process of
    [v8] stays in [PROCESSES]. *)
Theorem completion_pops_process_of_other_engine :
  let st' := after crossed two_engines in
  run crossed two_engines = inr (tt, st') ∧
  PROCESSES st' = [0] ∧
  (engine <$> heap st' !! 0) = Some "v8" ∧
  (cpuVals <$> heap st' !! 0) = Some [] ∧
  (engine <$> heap st' !! 1) = Some "jsc" ∧
  (cpuVals <$> heap st' !! 1) = Some [Fin 50] ∧
  (testsPassed <$> engines st' !! 0) = Some [] ∧
  (testsFailed <$> engines st' !! 0) =
    Some [ {| r_script := "tests/a.js"; r_stdout := ""; r_stderr := "";
              status := "error null"; extime := 600;
              stats := {| cpus := 1; mems := 1;
                          maxCPU := Fin 50; minCPU := Fin 50;
                          maxMem := Fin 7; minMem := Fin 7 |} |} ].
Proof. vm_compute. repeat split. Qed.

(** C5.  In the run of C1, the test of [v8] ends with a null end result
    (its child closes with code 0) and the verdict predicate accepts the
    handle of its own process; all the same it is recorded as a failure,
    with status [error null]: the verdict is asked about the handle of
    the popped process, the running child of [jsc], which it rejects. *)
Theorem pass_decided_on_handle_of_other_process :
  let st := after crossed_exit two_engines in
  let st' := after crossed two_engines in
  run crossed_exit two_engines = inr (tt, st) ∧
  PROCESSES st = [0; 1] ∧
  (c_script <$> closures st !! 0) = Some "tests/a.js" ∧
  (engine <$> heap st !! 0) = Some "v8" ∧
  (checkIfProcessFinishedCorrectly ∘ childProcess <$> heap st !! 0)
    = Some true ∧
  (engine <$> heap st !! 1) = Some "jsc" ∧
  (checkIfProcessFinishedCorrectly ∘ childProcess <$> heap st !! 1)
    = Some false ∧
  end_result_of_close (Some 0%Z) None = None ∧
  on_close 0 (Some 0%Z) None 601 601 st = inr (tt, st') ∧
  (testsPassed <$> engines st' !! 0) = Some [] ∧
  (map r_script ∘ testsFailed <$> engines st' !! 0) = Some ["tests/a.js"] ∧
  (map status ∘ testsFailed <$> engines st' !! 0) = Some ["error null"] ∧
  (map (cpus ∘ stats) ∘ testsFailed <$> engines st' !! 0) = Some [1].
Proof. vm_compute. repeat split. Qed.

(** C2.  A spawn that fails makes Node emit [error] and then [close] for
    the same child, and the completion handler runs for each.  Beside the
    running child of another engine, the script of the failed spawn gets
    two records, the second one built from the process of the other
    engine, and the callback of its engine is called twice; the test of
    the other engine gets no record, for its own [close] finds
    [PROCESSES] empty and the handler throws.  With one engine alone, in
    the order in which Node emits the events, every script gets its
    record from its [error], and the first [close] makes the handler
    throw. *)
Theorem error_and_close_record_twice :
  (let st' := after error_then_close v8_and_missing in
   run error_then_close v8_and_missing = inr (tt, st') ∧
   (map r_script ∘ testsFailed <$> engines st' !! 1) =
     Some ["tests/b.js"; "tests/b.js"] ∧
   (map (cpus ∘ stats) ∘ testsFailed <$> engines st' !! 1) = Some [1; 0] ∧
   (map status ∘ testsFailed <$> engines st' !! 1) =
     Some ["error -2"; "error null"] ∧
   (testsPassed <$> engines st' !! 1) = Some [] ∧
   spawned_scripts (trace st') = ["tests/a.js"; "tests/b.js"] ∧
   callbacks (trace st') = [(8, 1); (8, 1)] ∧
   PROCESSES st' = [] ∧
   (engine <$> heap st' !! 0) = Some "v8" ∧
   (exitCode ∘ childProcess <$> heap st' !! 0) = Some None ∧
   (testsPassed <$> engines st' !! 0) = Some [] ∧
   (testsFailed <$> engines st' !! 0) = Some [] ∧
   run (error_then_close ++
          [ (Exited 0 (Some 0%Z) None, steady 900);
            (Close 0 (Some 0%Z) None, steady 901) ])
       v8_and_missing = inl (TypeError "cpuVals")) ∧
  (let st' := after missing_in_order one_missing in
   run missing_in_order one_missing = inr (tt, st') ∧
   (map r_script ∘ testsFailed <$> engines st' !! 0) =
     Some ["tests/a.js"; "tests/b.js"] ∧
   (map (cpus ∘ stats) ∘ testsFailed <$> engines st' !! 0) = Some [0; 1] ∧
   callbacks (trace st') = [(7, 0)] ∧
   PROCESSES st' = [] ∧
   run (missing_in_order ++ [(Close 1 (Some (-2)%Z) None, steady 3)])
       one_missing = inl (TypeError "cpuVals")).
Proof. vm_compute. repeat split. Qed.

(** C9.  After the monitor has killed a process on a query error and taken
    it out of [PROCESSES], the [close] of that child runs the completion
    handler all the same: alone, the handler finds [PROCESSES] empty and
    throws; beside another engine, it pops the process of that engine and
    builds the record from its samples, and the [close] of that one
    throws. *)
Theorem close_after_monitor_removal_is_not_tolerated :
  PROCESSES (after query_error one_v8) = [] ∧
  run close_after_kill one_v8 = inl (TypeError "cpuVals") ∧
  (let st' := after close_after_kill_beside two_engines in
   run close_after_kill_beside two_engines = inr (tt, st') ∧
   PROCESSES st' = [] ∧
   (engine <$> heap st' !! 1) = Some "jsc" ∧
   (testsFailed <$> engines st' !! 0) =
     Some [ {| r_script := "tests/a.js"; r_stdout := ""; r_stderr := "";
               status := "error null"; extime := 520;
               stats := {| cpus := 1; mems := 1;
                           maxCPU := Fin 50; minCPU := Fin 50;
                           maxMem := Fin 7; minMem := Fin 7 |} |} ] ∧
   run (close_after_kill_beside ++ [(Close 1 (Some 0%Z) None, steady 700)])
       two_engines = inl (TypeError "cpuVals")).
Proof. vm_compute. repeat split. Qed.

(** C3, as stated, fails: with [a.js] queued before [b.js], the script
    spawned after the first one is [b.js]. *)
Lemma queue_is_not_first_in_first_out :
  testsQueue engine_queued = ["tests/a.js"; "tests/b.js"] ∧
  spawned_scripts (trace (after three_closes one_queued)) =
    ["tests/first.js"; "tests/b.js"; "tests/a.js"] ∧
  spawned_scripts (trace (after three_closes one_queued)) ≠
    "tests/first.js" :: testsQueue engine_queued.
Proof. vm_compute. repeat split. intros [=]. Qed.

End Samples.

(** ** The general statements at work on the sample runs *)

Section Witnesses.
#[local] Existing Instance sample.

Lemma reachable_after evs engs st' :
  run evs (initial engs) = inr (tt, st') → reachable st'.
Proof. intros Hrun. eapply run_reachable; [apply reachable_initial|done]. Qed.

(** A child of [v8] that exits with code 0 is recorded as a success, with
    its output parsed *)
Lemma pass_iff_null_and_verdict_of_popped_witness :
  let st := after (exits_with 0) one_v8 in
  PROCESSES st = [] ++ [0] ∧
  ∃ st' e' r,
    on_close 0 (Some 0%Z) None 9 9 st = inr (tt, st') ∧
    engines st' !! 0 = Some e' ∧
    testsPassed e' = [r] ∧ testsFailed e' = [] ∧
    status r = "success" ∧ r_stdout r = "ok".
Proof.
  intros st. split; [reflexivity|].
  edestruct (pass_iff_null_and_verdict_of_popped 0 "tests/a.js" None "ok" ""
               7 9 9 st [] 0)
    as ((st' & e' & Hrun & He' & Hpass & _) & Hclose & _);
    [reflexivity|vm_compute; reflexivity|vm_compute; reflexivity
    |intros s Hs; discriminate Hs|].
  destruct Hpass as (r & HP & HF & Hs & Ho); [split; reflexivity|].
  destruct (Hclose 0 {| c_engine := 0; c_script := "tests/a.js";
                        c_callback := 7; c_stdout := "ok"; c_stderr := "" |}
              (Some 0%Z) None eq_refl) as (Hon & _).
  exists st', e', r. rewrite Hon.
  repeat split; assumption.
Defined.

(** A child that exits with code 3 is recorded as [error 3]; a child for
    which [error] is emitted while its handle shows neither code nor
    signal is recorded as [error null] *)
Lemma error_status_code_or_signal_witness :
  let st := after (exits_with 3) one_v8 in
  PROCESSES st = [] ++ [0] ∧
  (∃ st' e' r,
    handleExecFileResult 0 "tests/a.js" (end_result_of_close (Some 3%Z) None)
      "ok" "" 7 9 9 st = inr (tt, st') ∧
    engines st' !! 0 = Some e' ∧ testsFailed e' = [r] ∧
    status r = "error 3") ∧
  (let st := after both_started two_engines in
   ∃ st' e' r,
    handleExecFileResult 1 "tests/b.js"
      (Some {| code := None; signal := None; error := Some "kill EPERM" |})
      "" "" 8 9 9 st = inr (tt, st') ∧
    engines st' !! 1 = Some e' ∧ testsFailed e' = [r] ∧
    status r = "error null").
Proof.
  intros st. split; [reflexivity|]. split.
  - edestruct (error_status_code_or_signal 0 "tests/a.js"
                 (end_result_of_close (Some 3%Z) None) "ok" "" 7 9 9 st [] 0)
      as (st' & e' & r & Hrun & He' & HF & Hs & _);
      [reflexivity|vm_compute; reflexivity|vm_compute; reflexivity
      |intros s Hs; discriminate Hs|reflexivity|reflexivity|].
    exists st', e', r. repeat split; assumption.
  - intros st2.
    edestruct (error_status_code_or_signal 1 "tests/b.js"
                 (Some {| code := None; signal := None;
                          error := Some "kill EPERM" |}) "" "" 8 9 9 st2 [0] 1)
      as (st' & e' & r & Hrun & He' & HF & Hs & _);
      [reflexivity|vm_compute; reflexivity|vm_compute; reflexivity
      |intros s Hs; discriminate Hs|reflexivity|reflexivity|].
    exists st', e', r. repeat split; assumption.
Defined.

(** The engine with [a.js] and [b.js] queued: [b.js] is spawned first,
    and the callback is called once *)
Lemma queue_taken_from_its_end_witness :
  engines one_queued !! 0 = Some engine_queued ∧
  ∃ st',
    run three_closes one_queued = inr (tt, st') ∧
    spawned_scripts (trace st') =
      ["tests/first.js"; "tests/b.js"; "tests/a.js"] ∧
    callbacks (trace st') = [(7, 0)].
Proof.
  split; [reflexivity|].
  destruct (queue_taken_from_its_end 0 7 one_queued engine_queued eq_refl)
    as [Hchain _].
  destruct (Hchain "tests/first.js" (steady 0)
              [(Some 0%Z, None, steady 10); (Some 0%Z, None, steady 20);
               (Some 0%Z, None, steady 30)] eq_refl)
    as (st' & e' & new & Hrun & Htr & _ & Hs & Hc & _).
  { intros n. eexists. reflexivity. }
  { intros s _ n. eexists. reflexivity. }
  exists st'. split; [exact Hrun|].
  rewrite Htr. split; [exact Hs|exact Hc].
Defined.

(** A running child under its time is queried; over its time it is
    killed.  From the reading 0.2 to the reading 5000.2 the subtraction
    yields 5000, which is not below a [TIMEOUT] of 5000: the child is
    killed *)
Lemma tick_liveness_then_timeout_then_query_witness :
  let st := after sampled_twice one_v8 in
  reachable st ∧
  (∃ st' new, tick 5000 (steady 1500) st = inr (tt, st') ∧
              trace st' = trace st ++ new ∧ PidusageTree 0 ∈ new) ∧
  (∃ st' new, tick 1000 (steady 1500) st = inr (tt, st') ∧
              trace st' = trace st ++ new ∧
              KillProcess 0 "a.js timeout" ∈ new ∧
              (isTimedOut <$> heap st' !! 0) = Some true) ∧
  (let st := after started_at_0_2 one_v8 in
   ∃ st' new, tick 5000 (steady reading_5000_2) st = inr (tt, st') ∧
              trace st' = trace st ++ new ∧
              KillProcess 0 "a.js timeout" ∈ new ∧
              (PidusageTree 0 ∉ new)).
Proof.
  intros st.
  assert (reachable st) as Hst
    by (apply (reachable_after sampled_twice (<[0 := engine_v8]> ∅));
        vm_compute; reflexivity).
  split; [exact Hst|]. split; [|split].
  3: { intros st2.
       assert (reachable st2) as Hst2
         by (apply (reachable_after started_at_0_2 (<[0 := engine_v8]> ∅));
             vm_compute; reflexivity).
       destruct (tick_liveness_then_timeout_then_query 5000 (steady reading_5000_2)
                   st2 Hst2) as (st' & new & Hrun & Htr & _ & Hall).
       exists st', new. split; [exact Hrun|]. split; [exact Htr|].
       edestruct (Hall 0 0) as (_ & Hk & _);
         [reflexivity|vm_compute; reflexivity|].
       destruct Hk as (p' & _ & _ & Hkill & Hquery);
         [reflexivity|left; reflexivity|].
       split; [exact Hkill|exact Hquery]. }
  - destruct (tick_liveness_then_timeout_then_query 5000 (steady 1500) st Hst)
      as (st' & new & Hrun & Htr & _ & Hall).
    exists st', new. split; [exact Hrun|]. split; [exact Htr|].
    edestruct (Hall 0 0) as (_ & _ & Hq & _);
      [reflexivity|vm_compute; reflexivity|].
    apply Hq. split; reflexivity.
  - destruct (tick_liveness_then_timeout_then_query 1000 (steady 1500) st Hst)
      as (st' & new & Hrun & Htr & _ & Hall).
    exists st', new. split; [exact Hrun|]. split; [exact Htr|].
    edestruct (Hall 0 0) as (_ & Hk & _);
      [reflexivity|vm_compute; reflexivity|].
    destruct Hk as (p' & Hp' & Hflag & Hkill & _);
      [reflexivity|left; reflexivity|].
    split; [exact Hkill|]. by rewrite Hp', <- Hflag.
Defined.

(** Beside the child of [jsc], the child of [v8] is taken out of
    [PROCESSES] on a query error, and [jsc]'s stays; a rejected query
    without a sample only warns *)
Lemma query_error_kills_and_removes_witness :
  let st := after both_started two_engines in
  reachable st ∧
  (∃ st',
    pidUsageCallback (Some "EPERM") [] 0 st = inr (tt, st') ∧
    trace st' = trace st ++ [ConsoleError "EPERM"; KillProcess 0 "error"] ∧
    (0 ∉ PROCESSES st') ∧ (1 ∈ PROCESSES st') ∧
    engines st' = engines st) ∧
  (∃ msg,
    on_usage_rejected 0 st =
      inr (tt, set_trace (trace st ++ [ConsoleWarn "#WARN: " msg]) st)).
Proof.
  intros st.
  assert (reachable st) as Hst
    by (apply (reachable_after both_started
                 (<[0 := engine_v8]> (<[1 := engine_jsc]> ∅)));
        vm_compute; reflexivity).
  split; [exact Hst|].
  edestruct (query_error_kills_and_removes st 0) as [Herr Hrej];
    [exact Hst|vm_compute; reflexivity|].
  split.
  - destruct (Herr eq_refl (list_elem_of_here 0 [1])) with (e := "EPERM")
      (stats := @nil (num * num))
      as (st' & pr' & Hrun & Htr & Hout & Hrest & _ & _ & _ & Heng).
    + intros cp c Hin Hne Hc.
      apply elem_of_cons in Hin as [->|Hin]; [done|].
      apply list_elem_of_singleton in Hin as ->.
      vm_compute in Hc. injection Hc as <-. vm_compute. discriminate.
    + exists st'. split; [exact Hrun|]. split; [exact Htr|].
      split; [exact Hout|]. split; [|exact Heng].
      apply Hrest; [discriminate|]. apply list_elem_of_further, list_elem_of_here.
  - apply Hrej; reflexivity.
Defined.

(** The record of a child with two samples *)
Lemma record_stats_are_extrema_witness :
  let st := after sampled_twice one_v8 in
  reachable st ∧
  ∃ p st' e' r,
    heap st !! 0 = Some p ∧
    cpuVals p = [Fin 42; Fin 20] ∧ memVals p = [Fin 5; Fin 9] ∧
    handleExecFileResult 0 "tests/a.js" None "" "" 7 1500 1500 st = inr (tt, st') ∧
    engines st' !! 0 = Some e' ∧
    (testsPassed e' = [r] ∨ testsFailed e' = [r]) ∧
    (maxCPU (stats r) ∈ cpuVals p) ∧
    (∀ x, x ∈ cpuVals p → num_lt (maxCPU (stats r)) x = false) ∧
    (minMem (stats r) ∈ memVals p) ∧
    (∀ x, x ∈ memVals p → num_lt x (minMem (stats r)) = false).
Proof.
  intros st.
  assert (reachable st) as Hst
    by (apply (reachable_after sampled_twice (<[0 := engine_v8]> ∅));
        vm_compute; reflexivity).
  split; [exact Hst|].
  edestruct (record_stats_are_extrema 0 "tests/a.js" None "" "" 7 1500 1500 st [] 0)
    as (st' & e' & r & Hrun & He' & Hwhere & _ & _ & _ & _ & _ & _ & _ & _
        & Hext & _);
    [exact Hst|reflexivity|vm_compute; reflexivity|vm_compute; reflexivity
    |intros s Hs; discriminate Hs|].
  destruct Hext as (H1 & H2 & _ & _ & _ & _ & H3 & H4).
  { discriminate. }
  { intros Hin. apply elem_of_cons in Hin as [Hin|Hin]; [discriminate|].
    apply list_elem_of_singleton in Hin. discriminate. }
  { intros Hin. apply elem_of_cons in Hin as [Hin|Hin]; [discriminate|].
    apply list_elem_of_singleton in Hin. discriminate. }
  eexists _, st', e', r. split; [reflexivity|].
  split; [reflexivity|]. split; [reflexivity|].
  split; [exact Hrun|]. split; [exact He'|].
  split; [destruct Hwhere as [[? _]|[? _]]; [left|right]; assumption|].
  repeat split; assumption.
Defined.

End Witnesses.

(** * More properties of the code *)

Section Inversions.
Context `{Collaborators}.

Lemma update_process_inv r f st st' :
  update_process r f st = inr (tt, st') →
  ∃ p, heap st !! r = Some p ∧ st' = set_heap (<[r := f p]> (heap st)) st.
Proof.
  intros Hrun. apply bind_inv in Hrun as (p & st1 & Hp & Hrun).
  apply deref_inv in Hp as [Hp ->]. injection Hrun as <-. eauto.
Qed.

Lemma createProcess_inv eng scr cb now st r st' :
  createProcess eng scr cb now st = inr (r, st') →
  ∃ e child,
    engines st !! eng = Some e ∧
    spawn (spawned st) (path e) [scr] = inr child ∧
    createProcess eng scr cb now st = inr (r, st') ∧ r = spawned st.
Proof.
  intros Hrun. destruct (engines st !! eng) as [e|] eqn:He.
  - destruct (spawn (spawned st) (path e) [scr]) as [msg|child] eqn:Hsp.
    { by rewrite (createProcess_throws _ _ _ _ _ _ _ He Hsp) in Hrun. }
    exists e, child. split; [done|]. split; [done|]. split; [done|].
    rewrite (createProcess_eq _ _ _ _ _ _ _ He Hsp) in Hrun. by injection Hrun.
  - unfold createProcess in Hrun.
    apply bind_inv in Hrun as (e & st1 & He' & _).
    apply deref_inv in He' as [He' _]. congruence.
Qed.

(** When the completion handler returns, it has found a last element in
    [PROCESSES], its object, and the engine *)
Lemma handleExecFileResult_inv eng scr err out errout cb now later st st' :
  handleExecFileResult eng scr err out errout cb now later st = inr (tt, st') →
  ∃ arr pr p e,
    PROCESSES st = arr ++ [pr] ∧ heap st !! pr = Some p ∧
    engines st !! eng = Some e.
Proof.
  intros Hrun. unfold handleExecFileResult in Hrun.
  apply bind_inv in Hrun as (popped & st1 & Hpop & Hrun).
  unfold PROCESSES_pop in Hpop.
  assert (PROCESSES st = [] ∨ ∃ arr pr, PROCESSES st = arr ++ [pr])
    as [HP|(arr & pr & HP)]
    by (destruct (PROCESSES st) as [|pr arr _] using rev_ind; eauto).
  { rewrite HP in Hpop. by injection Hpop as <- <-. }
  rewrite HP, pop_snoc in Hpop. injection Hpop as <- <-.
  apply bind_inv in Hrun as (p & st2 & Hp & Hrun).
  apply deref_inv in Hp as [Hp ->]. simpl in Hp.
  apply bind_inv in Hrun as ([] & st3 & Hupd & Hrun).
  exists arr, pr, p.
  destruct (engines st !! eng) as [e|] eqn:He; [by exists e|].
  exfalso. destruct (passes err p);
    apply bind_inv in Hupd as (e & st4 & He' & _);
    apply deref_inv in He' as [He' _]; simpl in He'; congruence.
Qed.

(** What the completion handler leaves behind, in both cases of the
    queue *)
Lemma handleExecFileResult_cases eng scr err out errout cb now later st st' :
  handleExecFileResult eng scr err out errout cb now later st = inr (tt, st') →
  ∃ arr pr p e,
    PROCESSES st = arr ++ [pr] ∧ heap st !! pr = Some p ∧
    engines st !! eng = Some e ∧
    (testsQueue e = [] ∧
     st' = {| PROCESSES := arr; heap := heap st; closures := closures st;
              engines := <[eng := with_result e scr err out errout now pr p]>
                           (engines st);
              trace := trace st ++ [Callback cb eng];
              spawned := spawned st |} ∨
     ∃ q s child, testsQueue e = q ++ [s] ∧
       spawn (spawned st) (path e) [s] = inr child ∧
       st' = {| PROCESSES := arr ++ [spawned st];
                heap := <[spawned st := new_process e child s later]>
                          (heap st);
                closures := <[spawned st :=
                  {| c_engine := eng; c_script := s; c_callback := cb;
                     c_stdout := ""; c_stderr := "" |}]> (closures st);
                engines := <[eng := set_testsQueue q
                               (with_result e scr err out errout now pr p)]>
                             (engines st);
                trace := trace st ++ [Spawn (path e) [s] (spawned st)];
                spawned := S (spawned st) |}).
Proof.
  intros Hrun.
  destruct (handleExecFileResult_inv _ _ _ _ _ _ _ _ _ _ Hrun)
    as (arr & pr & p & e & HP & Hp & He).
  exists arr, pr, p, e. split; [done|]. split; [done|]. split; [done|].
  destruct (testsQueue e) as [|s q _] eqn:Hq using rev_ind.
  - left. split; [done|].
    rewrite (handle_last _ _ _ _ _ _ _ _ _ _ _ _ _ HP Hp He Hq) in Hrun.
    by injection Hrun.
  - destruct (spawn (spawned st) (path e) [s]) as [msg|child] eqn:Hsp.
    { by rewrite (handle_next_throws _ _ _ _ _ _ _ _ _ _ _ _ _ _ _ _
                    HP Hp He Hq Hsp) in Hrun. }
    right. exists q, s, child. split; [done|]. split; [done|].
    rewrite (handle_next _ _ _ _ _ _ _ _ _ _ _ _ _ _ _ _ HP Hp He Hq Hsp) in Hrun.
    by injection Hrun.
Qed.

(** The handlers of [close] and [error] run the completion handler, or
    nothing at all *)
Lemma completion_inv ev now st st' :
  is_completion ev = true →
  step ev now st = inr (tt, st') →
  st' = st ∨
  ∃ eng scr err out errout cb,
    handleExecFileResult eng scr err out errout cb (now 0) (now 1) st =
      inr (tt, st').
Proof.
  intros Hev Hrun. destruct ev; try done; simpl in Hrun.
  - apply bind_inv in Hrun as (c & st1 & Hc & Hrun).
    apply deref_inv in Hc as [Hc ->]. right.
    destruct (bool_decide _); eauto 10.
  - apply bind_inv in Hrun as (c & st1 & Hc & Hrun).
    apply deref_inv in Hc as [Hc ->].
    destruct err; [right; eauto 10|left]. by injection Hrun.
Qed.

End Inversions.

(** ** Flagged processes *)

Section Timeouts.
Context `{Collaborators}.








End Timeouts.

(** ** Relations that every step of the program satisfies *)

Section Transits.
Context `{Collaborators}.
Context (allowed : effect → Prop) (within : EngineInfo → EngineInfo → Prop).
Context (born : Process → Prop).
Context (R : State → State → Prop) `{!Closed allowed within born R}.
Context (allowed_quiet : ∀ x, callbacks [x] = [] → allowed x).
Context (within_grows : ∀ e e', engine_grows e e' → within e e').
Context (now : nat → float)
  (born_now : ∀ e child scr k, born (new_process e child scr (now k))).

Lemma transits_mret {A} (x : A) : transits R (mret x).
Proof. intros st y st' [= _ <-]. apply closed_refl. Qed.

Lemma transits_throw {A} e : transits R (@throw A e).
Proof. intros st y st'. done. Qed.

Lemma transits_gets {A} (f : State → A) : transits R (gets f).
Proof. intros st y st' [= _ <-]. apply closed_refl. Qed.

Lemma transits_deref {A} (store : State → gmap nat A) r :
  transits R (deref store r).
Proof.
  intros st y st' Hrun. apply deref_inv in Hrun as [_ ->]. apply closed_refl.
Qed.

Lemma transits_bind {A B} (m : M A) (k : A → M B) :
  transits R m → (∀ x, transits R (k x)) → transits R (m ≫= k).
Proof.
  intros Hm Hk st y st'' Hrun.
  apply bind_inv in Hrun as (x & st' & Hrun1 & Hrun2).
  eapply closed_trans; [by eapply Hm|by eapply Hk].
Qed.

Lemma transits_forEach {A} (arr : list A) body :
  (∀ x i, transits R (body x i)) → transits R (forEach arr body).
Proof.
  intros Hbody. unfold forEach. generalize 0.
  induction arr as [|x arr IH]; intros i; simpl.
  - apply transits_mret.
  - apply transits_bind; [apply Hbody|by intros _].
Qed.

Lemma transits_emit x : allowed x → transits R (emit x).
Proof. intros Hx st y st' [= _ <-]. by apply closed_trace. Qed.

Lemma transits_update_process r f :
  (∀ p, process_grows p (f p)) → transits R (update_process r f).
Proof.
  intros Hf st [] st' Hrun.
  apply update_process_inv in Hrun as (p & Hp & ->).
  by eapply closed_heap.
Qed.

Lemma transits_update_engine r f :
  (∀ e, engine_grows e (f e)) → transits R (update_engine r f).
Proof.
  intros Hf st [] st' Hrun.
  apply bind_inv in Hrun as (e & st1 & He & Hrun).
  apply deref_inv in He as [He ->]. injection Hrun as <-.
  eapply closed_engines; [done|]. by apply within_grows.
Qed.

Lemma transits_testsQueue_pop eng : transits R (testsQueue_pop eng).
Proof.
  intros st x st' Hrun. unfold testsQueue_pop in Hrun.
  apply bind_inv in Hrun as (e & st1 & He & Hrun).
  apply deref_inv in He as [He ->].
  apply bind_inv in Hrun as ([] & st2 & Hupd & Hrun).
  injection Hrun as _ <-.
  rewrite (update_engine_eq _ _ _ _ He) in Hupd. injection Hupd as <-.
  eapply closed_engines; [done|]. apply within_grows. split; simpl; try done.
  destruct (testsQueue e) as [|s q _] using rev_ind; [done|].
  rewrite removelast_last. by apply prefix_app_r.
Qed.

Lemma transits_PROCESSES_pop : transits R PROCESSES_pop.
Proof. intros st x st' [= _ <-]. apply closed_PROCESSES. Qed.

Lemma transits_createProcess eng scr cb k :
  transits R (createProcess eng scr cb (now k)).
Proof.
  intros st r st' Hrun.
  apply createProcess_inv in Hrun as (e & child & He & Hsp & Hrun & _).
  rewrite (createProcess_eq _ _ _ _ _ _ _ He Hsp) in Hrun.
  injection Hrun as _ <-.
  apply closed_create; [by apply allowed_quiet|apply born_now].
Qed.

Lemma transits_kill p reason : transits R (kill p reason).
Proof.
  apply transits_bind; [by apply transits_emit, allowed_quiet|intros _].
  apply transits_update_process. intros pr. by split.
Qed.

Lemma transits_on_data (stderr : bool) child data :
  transits R
    (if stderr then on_stderr_data child data else on_stdout_data child data).
Proof.
  intros st y st' Hrun.
  destruct stderr; unfold on_stderr_data, on_stdout_data in Hrun;
    apply bind_inv in Hrun as (c & st1 & Hc & Hrun);
    apply deref_inv in Hc as [Hc ->]; injection Hrun as _ <-;
    by eapply closed_closures.
Qed.

Ltac transit_with tac :=
  repeat first
    [ apply transits_mret | apply transits_throw | apply transits_gets
    | apply transits_deref | apply transits_kill
    | apply transits_createProcess | apply transits_PROCESSES_pop
    | apply transits_testsQueue_pop
    | apply transits_emit, allowed_quiet; reflexivity
    | tac
    | apply transits_update_process; intros ?; split; simpl;
      first [done | by apply prefix_app_r]
    | apply transits_update_engine; intros ?; split; simpl;
      first [done | by apply prefix_app_r]
    | apply transits_forEach; intros ? ?
    | apply transits_bind; [|intros ?]
    | match goal with
      | |- transits _ (if ?b then _ else _) => destruct b
      | |- transits _ (match ?x with _ => _ end) => destruct x
      end ].

Lemma transits_pidUsageCallback err stats p :
  transits R (pidUsageCallback err stats p).
Proof.
  unfold pidUsageCallback. transit_with fail.
  intros st y st' [= _ <-]. apply closed_PROCESSES.
Qed.

Lemma transits_tick TIMEOUT : transits R (tick TIMEOUT now).
Proof. unfold tick, monitor. transit_with fail. Qed.

Lemma transits_on_usage_rejected cp : transits R (on_usage_rejected cp).
Proof. unfold on_usage_rejected. transit_with fail. Qed.

Lemma transits_handleExecFileResult eng scr err out errout cb j k :
  allowed (Callback cb eng) →
  transits R (handleExecFileResult eng scr err out errout cb (now j) (now k)).
Proof.
  intros Hcb. unfold handleExecFileResult.
  transit_with ltac:(by apply transits_emit).
Qed.

(** Every step but the two that run the completion handler *)
Lemma transits_step_but_completion ev :
  is_completion ev = false → transits R (step ev now).
Proof.
  intros Hev. destruct ev; try done; simpl.
  - transit_with fail.
  - apply (transits_on_data false).
  - apply (transits_on_data true).
  - transit_with fail.
  - apply transits_tick.
  - apply transits_pidUsageCallback.
  - apply transits_on_usage_rejected.
Qed.

(** Every step, when callbacks are allowed *)
Lemma transits_step ev :
  (∀ cb eng, allowed (Callback cb eng)) → transits R (step ev now).
Proof.
  intros Hcb. destruct (is_completion ev) eqn:Hev;
    [|by apply transits_step_but_completion].
  destruct ev; try done; simpl.
  - unfold on_close.
    transit_with ltac:(by apply transits_handleExecFileResult).
  - unfold on_error.
    transit_with ltac:(by apply transits_handleExecFileResult).
Qed.

End Transits.

Section TransitsRun.
Context `{Collaborators}.
Context (allowed : effect → Prop) (within : EngineInfo → EngineInfo → Prop).
Context (born : Process → Prop).
Context (R : State → State → Prop) `{!Closed allowed within born R}.

(** A relation that every effect, every growth of an engine and every new
    process object satisfies holds along every run *)
Lemma transits_run evs :
  (∀ x, allowed x) → (∀ e e', engine_grows e e' → within e e') →
  (∀ p, born p) →
  transits R (run evs).
Proof.
  intros Hall Hwithin Hborn. induction evs as [|[ev now] evs IH]; simpl.
  - intros st y st' [= _ <-]. apply closed_refl.
  - apply (transits_bind allowed within born R); [|by intros _].
    by apply (transits_step allowed within born R).
Qed.

End TransitsRun.

(** ** What grows and what stays *)

Lemma process_grows_refl p : process_grows p p.
Proof. by split. Qed.

Lemma process_grows_trans p1 p2 p3 :
  process_grows p1 p2 → process_grows p2 p3 → process_grows p1 p3.
Proof.
  intros [] []. split; try congruence; try (by etrans); auto.
Qed.

Lemma engine_grows_refl e : engine_grows e e.
Proof. by split. Qed.

Lemma engine_grows_trans e1 e2 e3 :
  engine_grows e1 e2 → engine_grows e2 e3 → engine_grows e1 e3.
Proof.
  intros [] []. split; try congruence; by etrans.
Qed.

#[global] Instance ages_closed :
  Closed (λ _, True) (λ _ _, True) (λ _, True) ages.
Proof.
  split.
  - intros st Hf. split; [done|]. intros r p Hp. exists p.
    split; [done|apply process_grows_refl].
  - intros st1 st2 st3 H12 H23 Hf.
    destruct (H12 Hf) as [Hf2 Hg12]. destruct (H23 Hf2) as [Hf3 Hg23].
    split; [done|]. intros r p Hp.
    destruct (Hg12 r p Hp) as (p2 & Hp2 & Hgr2).
    destruct (Hg23 r p2 Hp2) as (p3 & Hp3 & Hgr3).
    exists p3. split; [done|]. by eapply process_grows_trans.
  - intros st x _ Hf. split; [done|]. intros r p Hp. exists p.
    split; [done|apply process_grows_refl].
  - intros st arr Hf. split; [done|]. intros r p Hp. exists p.
    split; [done|apply process_grows_refl].
  - intros st r c c' Hc Hf. split.
    + intros r' Hr'. destruct (Hf r' Hr') as [Hh Hcl]. simpl.
      split; [done|]. rewrite lookup_insert_ne; [done|]. congruence.
    + intros r' p Hp. exists p. split; [done|apply process_grows_refl].
  - intros st r p p' Hp Hgr Hf. split.
    + intros r' Hr'. destruct (Hf r' Hr') as [Hh Hcl]. simpl.
      split; [|done]. rewrite lookup_insert_ne; [done|]. congruence.
    + intros r' q Hq. simpl. destruct (decide (r = r')) as [<-|Hne].
      * rewrite lookup_insert_eq. exists p'. split; [done|]. congruence.
      * rewrite lookup_insert_ne by done. exists q.
        split; [done|apply process_grows_refl].
  - intros st r e e' He _ Hf. split; [done|]. intros r' p Hp. exists p.
    split; [done|apply process_grows_refl].
  - intros st p c x _ _ Hf. split.
    + intros r' Hr'. simpl in *. destruct (Hf r') as [Hh Hcl]; [lia|].
      rewrite !lookup_insert_ne by lia. done.
    + intros r' q Hq. simpl. exists q. split; [|apply process_grows_refl].
      rewrite lookup_insert_ne; [done|]. intros <-.
      destruct (Hf (spawned st)) as [Hh _]; [lia|]. congruence.
Qed.

#[global] Instance engines_grow_closed :
  Closed (λ _, True) engine_grows (λ _, True) engines_grow.
Proof.
  assert (∀ st st', engines st' = engines st → engines_grow st st') as Hsame.
  { intros st st' Heq eng e He. exists e. rewrite Heq.
    split; [done|apply engine_grows_refl]. }
  split; try (intros; by apply Hsame).
  - intros st1 st2 st3 H12 H23 eng e He.
    destruct (H12 eng e He) as (e2 & He2 & Hg2).
    destruct (H23 eng e2 He2) as (e3 & He3 & Hg3).
    exists e3. split; [done|]. by eapply engine_grows_trans.
  - intros st r e e' He Hgr eng e0 He0. simpl.
    destruct (decide (r = eng)) as [<-|Hne].
    + rewrite lookup_insert_eq. exists e'. split; [done|]. congruence.
    + rewrite lookup_insert_ne by done. exists e0.
      split; [done|apply engine_grows_refl].
Qed.

#[global] Instance engines_kept_closed :
  Closed (λ _, True) (λ _ _, False) (λ _, True)
    (λ st st', engines st' = engines st).
Proof. split; try done. intros st1 st2 st3 H12 H23. congruence. Qed.

#[global] Instance quiet_closed :
  Closed (λ x, callbacks [x] = []) (λ _ _, True) (λ _, True) quiet.
Proof.
  assert (∀ st st', trace st' = trace st → quiet st st') as Hsame.
  { intros st st' Heq. exists []. by rewrite app_nil_r. }
  split; try (intros; by apply Hsame).
  - intros st1 st2 st3 (n12 & H12 & Hc12) (n23 & H23 & Hc23).
    exists (n12 ++ n23). rewrite H23, H12, <- app_assoc. split; [done|].
    unfold callbacks in *. by rewrite flat_map_app, Hc12, Hc23.
  - intros st x Hx. by exists [x].
  - intros st p c x Hx _. by exists [x].
Qed.

Section Growth.
Context `{Collaborators}.

Lemma fresh_initial engs : fresh (initial engs).
Proof. intros r _. split; apply lookup_empty. Qed.

(** No object lies beyond the references handed out, in every state the
    program reaches *)
Lemma reachable_fresh st : reachable st → fresh st.
Proof.
  induction 1 as [engs|st ev now st' _ IH Hstep].
  - apply fresh_initial.
  - by apply (transits_step (λ _, True) (λ _ _, True) (λ _, True) ages
                (λ _ _, I) (λ _ _ _, I) now (λ _ _ _ _, I) ev (λ _ _, I)
                _ _ _ Hstep).
Qed.

(** X6.  Whatever events follow, a process object keeps its script, its
    engine name and its start time, its samples stay where they are with
    newer ones after them, and its timeout flag, once set, stays set. *)
Theorem process_objects_only_grow evs st st' :
  reachable st →
  run evs st = inr (tt, st') →
  ∀ r p, heap st !! r = Some p →
    ∃ p', heap st' !! r = Some p' ∧
          script p' = script p ∧ engine p' = engine p ∧
          startTime p' = startTime p ∧
          cpuVals p `prefix_of` cpuVals p' ∧
          memVals p `prefix_of` memVals p' ∧
          (isTimedOut p = true → isTimedOut p' = true).
Proof.
  intros Hst%reachable_fresh Hrun r p Hp.
  destruct (transits_run (λ _, True) (λ _ _, True) (λ _, True) ages evs
              (λ _, I) (λ _ _ _, I) (λ _, I) _ _ _ Hrun Hst)
    as [_ Hgrow].
  destruct (Hgrow r p Hp) as (p' & Hp' & []). by exists p'.
Qed.

(** X7.  Whatever events follow, an engine keeps its name and its path,
    its records stay where they are with newer ones after them, and its
    queue only loses scripts, from its end. *)
Theorem engines_only_grow evs st st' :
  run evs st = inr (tt, st') →
  ∀ eng e, engines st !! eng = Some e →
    ∃ e', engines st' !! eng = Some e' ∧
          name e' = name e ∧ path e' = path e ∧
          testsPassed e `prefix_of` testsPassed e' ∧
          testsFailed e `prefix_of` testsFailed e' ∧
          testsQueue e' `prefix_of` testsQueue e.
Proof.
  intros Hrun eng e He.
  destruct (transits_run (λ _, True) engine_grows (λ _, True) engines_grow
              evs (λ _, I) (λ _ _ Hg, Hg) (λ _, I) _ _ _ Hrun eng e He)
    as (e' & He' & []).
  by exists e'.
Qed.

(** X8.  Only the handlers of [close] and [error] change an engine: a
    call of [createProcess], the data of the streams, the end of a child
    noted on its handle, a tick of the monitor and the answers of the
    query leave every engine as it is. *)
Theorem only_completion_changes_engines ev now st st' :
  is_completion ev = false →
  step ev now st = inr (tt, st') →
  engines st' = engines st.
Proof.
  intros Hev Hstep.
  by apply (transits_step_but_completion (λ _, True) (λ _ _, False)
              (λ _, True) (λ st st', engines st' = engines st) (λ _ _, I)
              now (λ _ _ _ _, I) ev Hev _ _ _ Hstep).
Qed.

Lemma callbacks_elem cb eng new :
  Callback cb eng ∈ new → (cb, eng) ∈ callbacks new.
Proof.
  intros Hin. unfold callbacks. apply elem_of_flat_map.
  exists (Callback cb eng). split; [done|]. left.
Qed.

(** X9.  A step calls a callback only from the handlers of [close] and
    [error], at most once, as the one effect of the step, and only for an
    engine that it leaves with an empty queue. *)
Theorem callback_only_on_empty_queue ev now st st' :
  step ev now st = inr (tt, st') →
  ∃ new,
    trace st' = trace st ++ new ∧
    (is_completion ev = false → callbacks new = []) ∧
    ∀ cb eng, Callback cb eng ∈ new →
      new = [Callback cb eng] ∧
      ∃ e', engines st' !! eng = Some e' ∧ testsQueue e' = [].
Proof.
  intros Hstep. destruct (is_completion ev) eqn:Hev.
  - destruct (completion_inv _ _ _ _ Hev Hstep)
      as [->|(eng & scr & err & out & errout & cb & Hrun)].
    { exists []. rewrite app_nil_r. split; [done|]. split; [done|].
      intros cb eng Hin. inv Hin. }
    destruct (handleExecFileResult_cases _ _ _ _ _ _ _ _ _ _ Hrun)
      as (arr & pr & p & e & HP & Hp & He &
          [[Hq ->]|(q & s & child & Hq & Hsp & ->)]).
    + exists [Callback cb eng]. simpl. split; [done|]. split; [done|].
      intros cb' eng' [= -> ->]%list_elem_of_singleton. split; [done|].
      eexists. rewrite lookup_insert_eq. split; [done|].
      by rewrite with_result_testsQueue.
    + eexists. simpl. split; [done|]. split; [done|].
      intros cb' eng' Hin%list_elem_of_singleton. done.
  - destruct (transits_step_but_completion (λ x, callbacks [x] = [])
                (λ _ _, True) (λ _, True) quiet (λ _ Hx, Hx) now
                (λ _ _ _ _, I) ev Hev _ _ _ Hstep)
      as (new & Htr & Hc).
    exists new. split; [done|]. split; [done|].
    intros cb eng Hin%callbacks_elem. rewrite Hc in Hin. inv Hin.
Qed.

End Growth.

(** ** The single operations *)

Section Operations.
Context `{Collaborators}.

(** X1.  [createProcess] on an engine throws what [spawn] throws, and
    returns when [spawn] returns a handle: it has then spawned the path of
    the engine on the script alone, and appended to [PROCESSES] a
    reference that was neither in [PROCESSES] nor in the store, for an
    object with that handle, the base name of the script, the name of the
    engine, the clock reading as start time, no sample and no flag, next
    to empty buffers for its output; it leaves the other objects and every
    engine as they are, and takes nothing from the queue. *)
Theorem createProcess_registers_a_new_process eng scr cb now st e :
  reachable st →
  engines st !! eng = Some e →
  (∀ msg, spawn (spawned st) (path e) [scr] = inl msg →
     createProcess eng scr cb now st = inl (Thrown msg)) ∧
  (∀ child, spawn (spawned st) (path e) [scr] = inr child →
   ∃ st' p c,
    createProcess eng scr cb now st = inr (spawned st, st') ∧
    PROCESSES st' = PROCESSES st ++ [spawned st] ∧
    (spawned st ∉ PROCESSES st) ∧
    heap st !! spawned st = None ∧
    heap st' !! spawned st = Some p ∧
    script p = basename scr ∧ engine p = name e ∧
    childProcess p = child ∧
    startTime p = now ∧ cpuVals p = [] ∧ memVals p = [] ∧
    isTimedOut p = false ∧
    closures st' !! spawned st = Some c ∧
    c_engine c = eng ∧ c_script c = scr ∧ c_callback c = cb ∧
    c_stdout c = "" ∧ c_stderr c = "" ∧
    (∀ r, r ≠ spawned st →
          heap st' !! r = heap st !! r ∧
          closures st' !! r = closures st !! r) ∧
    engines st' = engines st ∧
    trace st' = trace st ++ [Spawn (path e) [scr] (spawned st)]).
Proof.
  intros Hst He. split; [intros msg Hsp; by eapply createProcess_throws|].
  intros child Hsp.
  pose proof (reachable_fresh _ Hst (spawned st) (le_n _)) as [Hnone _].
  pose proof (wf_bound _ (reachable_wf _ Hst) (spawned st)) as Hbound.
  eexists _, _, _. split; [by eapply createProcess_eq|]. simpl.
  rewrite !lookup_insert_eq.
  repeat (split; [done|]).
  split; [intros Hin%Hbound; lia|].
  repeat (split; [done|]).
  split; [|done].
  intros r Hr. by rewrite !lookup_insert_ne.
Qed.

(** X2.  On an empty [PROCESSES] the completion handler throws a
    [TypeError].  On a [PROCESSES] that is not empty it returns, unless
    the queue has a script left on which [spawn] throws: then what
    [spawn] throws leaves the handler.  When it returns, the engine has
    one record more and a queue shorter by one script (or still empty),
    no other engine has changed, and [PROCESSES] has lost its last element
    and, if a script was left, got the new process in its place. *)
Theorem completion_returns_iff_a_process_is_registered
    eng scr err out errout cb now later st e :
  reachable st →
  engines st !! eng = Some e →
  (PROCESSES st = [] →
   handleExecFileResult eng scr err out errout cb now later st
     = inl (TypeError "cpuVals")) ∧
  (PROCESSES st ≠ [] →
   ∀ s msg, last (testsQueue e) = Some s →
     spawn (spawned st) (path e) [s] = inl msg →
     handleExecFileResult eng scr err out errout cb now later st
       = inl (Thrown msg)) ∧
  (PROCESSES st ≠ [] →
   spawns_next st e →
   ∃ st' e',
     handleExecFileResult eng scr err out errout cb now later st = inr (tt, st') ∧
     engines st' !! eng = Some e' ∧
     length (testsPassed e') + length (testsFailed e') =
       S (length (testsPassed e) + length (testsFailed e)) ∧
     length (testsQueue e') = length (testsQueue e) - 1 ∧
     (∀ eng', eng' ≠ eng → engines st' !! eng' = engines st !! eng') ∧
     PROCESSES st' =
       removelast (PROCESSES st) ++
       (if decide (testsQueue e = []) then [] else [spawned st])).
Proof.
  intros Hst He. split; [by apply handle_empty|].
  assert (PROCESSES st ≠ [] →
          ∃ arr pr p, PROCESSES st = arr ++ [pr] ∧ heap st !! pr = Some p)
    as Hlast.
  { intros Hne.
    destruct (PROCESSES st) as [|pr arr _] eqn:HP using rev_ind; [done|].
    destruct (wf_heap _ (reachable_wf _ Hst) pr) as [p Hp]; [|by eauto].
    apply (wf_bound _ (reachable_wf _ Hst)). rewrite HP.
    apply elem_of_app. right. left. }
  split.
  - intros Hne s msg Hs Hsp. destruct (Hlast Hne) as (arr & pr & p & HP & Hp).
    destruct (testsQueue e) as [|s' q _] eqn:Hq using rev_ind; [done|].
    rewrite last_snoc in Hs. injection Hs as ->.
    by eapply handle_next_throws.
  - intros Hne Hsp. destruct (Hlast Hne) as (arr & pr & p & HP & Hp).
    rewrite HP, removelast_last. unfold spawns_next in Hsp.
    destruct (testsQueue e) as [|s q _] eqn:Hq using rev_ind.
    + eexists _, _. split; [by eapply handle_last|]. simpl.
      rewrite lookup_insert_eq. split; [done|].
      rewrite with_result_count, with_result_testsQueue, Hq.
      split; [done|]. split; [done|]. split; [|by rewrite app_nil_r].
      intros eng' Hne'. by rewrite lookup_insert_ne.
    + destruct (Hsp s) as [child Hchild]; [apply last_snoc|].
      eexists _, _. split; [by eapply handle_next|].
      cbn [engines PROCESSES spawned].
      rewrite lookup_insert_eq. split; [done|].
      unfold set_testsQueue. cbn [testsPassed testsFailed testsQueue].
      rewrite with_result_count, length_app. simpl.
      split; [done|]. split; [lia|]. split.
      * intros eng' Hne'. by rewrite lookup_insert_ne.
      * by destruct q.
Qed.

Lemma append_cons x (a b : string) : String x a +:+ b = String x (a +:+ b).
Proof. reflexivity. Qed.

Lemma append_assoc (a b c : string) : (a +:+ b) +:+ c = a +:+ (b +:+ c).
Proof.
  induction a as [|x a IH]; [done|]. by rewrite !append_cons, IH.
Qed.

Lemma append_empty_r (s : string) : s +:+ "" = s.
Proof. induction s as [|x s IH]; [done|]. by rewrite append_cons, IH. Qed.

Lemma on_data_eq (stderr : bool) child data c st :
  closures st !! child = Some c →
  (if stderr then on_stderr_data child data else on_stdout_data child data) st
  = inr (tt, set_closures (<[child :=
      {| c_engine := c_engine c; c_script := c_script c;
         c_callback := c_callback c;
         c_stdout := c_stdout c +:+ (if stderr then "" else data);
         c_stderr := c_stderr c +:+ (if stderr then data else "") |}]>
      (closures st)) st).
Proof.
  intros Hc. pose proof append_empty_r as Hnil.
  destruct stderr; unfold on_stderr_data, on_stdout_data;
    (erewrite bind_inr by by apply deref_eq); by rewrite Hnil.
Qed.

(** The data handlers alone: the buffers grow by what each stream of each
    child has written *)
Lemma run_data evs st :
  Forall (λ ev, ∃ c, data_child ev.1 = Some c ∧ is_Some (closures st !! c))
         evs →
  ∃ st',
    run evs st = inr (tt, st') ∧
    PROCESSES st' = PROCESSES st ∧ heap st' = heap st ∧
    engines st' = engines st ∧ trace st' = trace st ∧
    spawned st' = spawned st ∧
    ∀ child c, closures st !! child = Some c →
      ∃ c', closures st' !! child = Some c' ∧
            c_engine c' = c_engine c ∧ c_script c' = c_script c ∧
            c_callback c' = c_callback c ∧
            c_stdout c' = c_stdout c +:+ written child false evs ∧
            c_stderr c' = c_stderr c +:+ written child true evs.
Proof.
  pose proof append_empty_r as Hnil.
  revert st. induction evs as [|[ev now] evs IH]; intros st Hall.
  - exists st. repeat (split; [done|]). intros child c Hc. exists c.
    simpl. by rewrite !Hnil.
  - apply Forall_cons in Hall as [(c0 & Hev & [cl Hcl]) Hall].
    assert (∃ (stderr : bool) data,
      ev = (if stderr then StderrData else StdoutData) c0 data)
      as (stderr & data & ->).
    { destruct ev; try done; injection Hev as ->;
        [by exists false; eexists|by exists true; eexists]. }
    rewrite run_cons.
    assert (step ((if stderr then StderrData else StdoutData) c0 data) now st
            = (if stderr then on_stderr_data c0 data
               else on_stdout_data c0 data) st) as ->
      by by destruct stderr.
    rewrite (on_data_eq stderr c0 data cl st Hcl).
    set (cl1 := Build_Closure _ _ _ _ _). set (st1 := set_closures _ st).
    destruct (IH st1) as (st' & Hrun & HP & Hh & He & Ht & Hs & Hbuf).
    { eapply Forall_impl; [exact Hall|]. intros ev' (c' & Hc' & Hsome).
      exists c'. split; [done|]. simpl.
      destruct (decide (c0 = c')) as [<-|Hne];
        [by rewrite lookup_insert_eq|by rewrite lookup_insert_ne]. }
    exists st'. split; [done|]. repeat (split; [done|]).
    intros child c Hc. destruct (decide (c0 = child)) as [<-|Hne].
    + destruct (Hbuf c0 cl1) as (c' & Hc' & ? & ? & ? & Hout & Herr);
        [apply lookup_insert_eq|].
      assert (c = cl) as -> by congruence.
      exists c'. split; [done|]. repeat (split; [done|]).
      rewrite Hout, Herr. unfold cl1. simpl.
      destruct stderr; simpl; rewrite bool_decide_eq_true_2 by done; simpl;
        by rewrite !append_assoc.
    + destruct (Hbuf child c) as (c' & Hc' & ? & ? & ? & Hout & Herr);
        [simpl; by rewrite lookup_insert_ne|].
      exists c'. split; [done|]. repeat (split; [done|]).
      rewrite Hout, Herr.
      destruct stderr; simpl; by rewrite bool_decide_eq_false_2 by done.
Qed.

(** X3.  The data of the streams are appended, in the order of their
    events, to the buffer of the stream and of the child they come from:
    after any sequence of such events the two buffers of a child are what
    they were, followed by what its own stdout, respectively stderr, has
    written; nothing else changes. *)
Theorem streams_accumulate_per_child evs st :
  Forall (λ ev, ∃ c, data_child ev.1 = Some c ∧ is_Some (closures st !! c))
         evs →
  ∃ st',
    run evs st = inr (tt, st') ∧
    PROCESSES st' = PROCESSES st ∧ heap st' = heap st ∧
    engines st' = engines st ∧ trace st' = trace st ∧
    spawned st' = spawned st ∧
    ∀ child c, closures st !! child = Some c →
      ∃ c', closures st' !! child = Some c' ∧
            c_engine c' = c_engine c ∧ c_script c' = c_script c ∧
            c_callback c' = c_callback c ∧
            c_stdout c' = c_stdout c +:+ written child false evs ∧
            c_stderr c' = c_stderr c +:+ written child true evs.
Proof. apply run_data. Qed.


(** X5.  Whatever it is handed, the callback of the query leaves the
    engines, the closures and every other process object as they are and
    adds nothing to [PROCESSES]; for a process whose handle the liveness
    predicate rejects it changes nothing at all, and with readings in
    hand it leaves [PROCESSES] alone. *)
Theorem pidUsageCallback_touches_one_process err stats p st st' :
  pidUsageCallback err stats p st = inr (tt, st') →
  engines st' = engines st ∧ closures st' = closures st ∧
  spawned st' = spawned st ∧
  PROCESSES st' `sublist_of` PROCESSES st ∧
  (∀ r, r ≠ p → heap st' !! r = heap st !! r) ∧
  (∀ pr, heap st !! p = Some pr →
         checkIfProcessExists (childProcess pr) = false → st' = st) ∧
  (err = None → PROCESSES st' = PROCESSES st).
Proof.
  intros Hrun.
  assert (∃ pr, heap st !! p = Some pr) as [pr Hp].
  { unfold pidUsageCallback in Hrun.
    apply bind_inv in Hrun as (pr & st1 & Hp & _).
    apply deref_inv in Hp as [Hp _]. eauto. }
  destruct (checkIfProcessExists (childProcess pr)) eqn:Hex.
  - destruct err as [e|].
    + rewrite (pidUsageCallback_err _ _ _ _ _ Hp Hex) in Hrun.
      injection Hrun as <-. simpl.
      split; [done|]. split; [done|]. split; [done|].
      split; [apply splice_sublist|].
      split; [intros r Hr; by rewrite lookup_insert_ne|].
      split; [intros pr' Hp'; congruence|done].
    + rewrite (pidUsageCallback_sample _ _ _ _ Hp Hex) in Hrun.
      injection Hrun as <-. simpl.
      split; [done|]. split; [done|]. split; [done|]. split; [done|].
      split; [intros r Hr; by rewrite lookup_insert_ne|].
      split; [intros pr' Hp'; congruence|done].
  - rewrite (pidUsageCallback_gone _ _ _ _ _ Hp Hex) in Hrun.
    injection Hrun as <-.
    split; [done|]. split; [done|]. split; [done|]. split; [done|].
    split; [done|]. split; done.
Qed.

Lemma splice_minus_one_removelast {A} (arr : list A) :
  splice (-1) 1 arr = removelast arr.
Proof.
  destruct arr as [|x arr _] using rev_ind; [done|].
  by rewrite splice_minus_one, removelast_last.
Qed.

(** X10.  When the query hands an error over for a running process that
    is not in [PROCESSES] (it was popped by a completion that was not its
    own), and no process of [PROCESSES] has its pid, the process is killed
    and the last process of [PROCESSES] is taken out in its place. *)
Theorem query_error_for_popped_process_removes_the_last st p pr :
  heap st !! p = Some pr →
  checkIfProcessExists (childProcess pr) = true →
  p ∉ PROCESSES st →
  (∀ cp c, cp ∈ PROCESSES st → heap st !! cp = Some c →
           pid (childProcess c) ≠ pid (killProcess (childProcess pr) "error")) →
  ∀ e stats, ∃ st',
    pidUsageCallback (Some e) stats p st = inr (tt, st') ∧
    PROCESSES st' = removelast (PROCESSES st) ∧
    trace st' = trace st ++ [ConsoleError e; KillProcess p "error"].
Proof.
  intros Hp Hex Hout Hpid e stats.
  rewrite (pidUsageCallback_err _ _ _ _ _ Hp Hex).
  eexists. split; [done|]. simpl. split; [|done].
  rewrite findIndex_none; [apply splice_minus_one_removelast|].
  intros cp Hcp. unfold same_pid. simpl.
  rewrite lookup_insert_ne by (by intros <-).
  destruct (heap st !! cp) as [c|] eqn:Hc; [|done].
  apply bool_decide_eq_false_2. by eapply Hpid.
Qed.

End Operations.

(** ** Records, clocks and flags *)

Section Records.
Context `{Collaborators}.

Lemma max_from_NaN highest values : NaN ∈ values → max_from highest values = NaN.
Proof.
  revert highest. induction values as [|x values IH]; intros highest Hin;
    [inv Hin|].
  destruct (decide (x = NaN)) as [->|Hx]; [done|].
  apply elem_of_cons in Hin as [Heq|Hin]; [done|].
  destruct x; try done; simpl; by apply IH.
Qed.

Lemma min_from_NaN lowest values : NaN ∈ values → min_from lowest values = NaN.
Proof.
  revert lowest. induction values as [|x values IH]; intros lowest Hin;
    [inv Hin|].
  destruct (decide (x = NaN)) as [->|Hx]; [done|].
  apply elem_of_cons in Hin as [Heq|Hin]; [done|].
  destruct x; try done; simpl; by apply IH.
Qed.

(** The record that a run of the completion handler appends *)
Lemma handle_appends eng scr err out errout cb now later st arr pr p e :
  PROCESSES st = arr ++ [pr] →
  heap st !! pr = Some p →
  engines st !! eng = Some e →
  spawns_next st e →
  ∃ st' e' r,
    handleExecFileResult eng scr err out errout cb now later st = inr (tt, st') ∧
    engines st' !! eng = Some e' ∧
    (testsPassed e' = testsPassed e ++ [r] ∧ testsFailed e' = testsFailed e ∨
     testsFailed e' = testsFailed e ++ [r] ∧ testsPassed e' = testsPassed e) ∧
    r = (if passes err p then success_record e scr out errout now pr p
         else failure_record scr out errout now pr p).
Proof.
  intros HP Hp He Hsp.
  destruct (handle_result eng scr err out errout cb now later _ _ _ _ _ HP Hp He Hsp)
    as (st' & Hrun & He' & _).
  eexists st', _, _. split; [done|]. split; [done|]. split; [|done]. simpl.
  destruct (passes err p) eqn:Hpass.
  - left. by apply with_result_passed.
  - right. by apply with_result_failed.
Qed.

(** X11.  In the record that the completion handler appends, the smallest
    sample is not above the largest one when the process has samples and
    none is NaN; without a sample the two are the other way round (the
    maximum, -Infinity, is below the minimum, +Infinity); and one NaN among
    the samples makes both NaN.  The same holds of the memory samples. *)
Theorem record_extrema_order eng scr err out errout cb now later st arr pr p e :
  PROCESSES st = arr ++ [pr] →
  heap st !! pr = Some p →
  engines st !! eng = Some e →
  spawns_next st e →
  ∃ st' e' r,
    handleExecFileResult eng scr err out errout cb now later st = inr (tt, st') ∧
    engines st' !! eng = Some e' ∧
    (testsPassed e' = testsPassed e ++ [r] ∧ testsFailed e' = testsFailed e ∨
     testsFailed e' = testsFailed e ++ [r] ∧ testsPassed e' = testsPassed e) ∧
    (cpuVals p ≠ [] → NaN ∉ cpuVals p →
     num_lt (maxCPU (stats r)) (minCPU (stats r)) = false) ∧
    (cpuVals p = [] →
     num_lt (maxCPU (stats r)) (minCPU (stats r)) = true) ∧
    (NaN ∈ cpuVals p →
     maxCPU (stats r) = NaN ∧ minCPU (stats r) = NaN) ∧
    (memVals p ≠ [] → NaN ∉ memVals p →
     num_lt (maxMem (stats r)) (minMem (stats r)) = false) ∧
    (memVals p = [] →
     num_lt (maxMem (stats r)) (minMem (stats r)) = true) ∧
    (NaN ∈ memVals p →
     maxMem (stats r) = NaN ∧ minMem (stats r) = NaN).
Proof.
  intros HP Hp He Hsp.
  destruct (handle_appends eng scr err out errout cb now later _ _ _ _ _ HP Hp He Hsp)
    as (st' & e' & r & Hrun & He' & Hwhere & ->).
  eexists st', e', _. split; [done|]. split; [done|]. split; [done|].
  assert (stats (if passes err p
                 then success_record e scr out errout now pr p
                 else failure_record scr out errout now pr p)
          = make_stats pr (cpuVals p) (memVals p)) as ->
    by by destruct (passes err p).
  simpl.
  assert (∀ l, l ≠ [] → NaN ∉ l → num_lt (Math_max l) (Math_min l) = false)
    as Hord.
  { intros l Hne Hnan. destruct (Math_max_spec l Hne Hnan) as [_ Hmax].
    destruct (Math_min_spec l Hne Hnan) as [Hmin _]. by apply Hmax. }
  split; [apply Hord|]. split; [by intros ->|].
  split; [intros Hin; split; [by apply max_from_NaN|by apply min_from_NaN]|].
  split; [apply Hord|]. split; [by intros ->|].
  intros Hin; split; [by apply max_from_NaN|by apply min_from_NaN].
Qed.

End Records.

Section Clock.
Context `{Collaborators}.

Lemma timely_later now ts st : timely (now :: ts) st → timely ts st.
Proof.
  intros [Hs He]. split; [|done]. intros r p Hp.
  destruct (Hs r p Hp) as [Hr Hall]. split; [done|].
  by apply Forall_cons in Hall as [_ Hall].
Qed.

Lemma precedes_born (now : nat → float) ts k :
  Forall (precedes now) ts →
  Forall (λ later : nat → float, ∀ j, (now k <=? later j)%float = true) ts.
Proof.
  intros Hts. eapply Forall_impl; [done|]. intros later Hl j. apply Hl.
Qed.

(** While the handler of an event runs, with the readings [now], which are
    at most those of the later handlers [ts], the store stays timely for
    the later handlers: a new process starts at a reading of [now], and
    the others keep their start time *)
Lemma timely_closed now ts :
  (∀ k, reading (now k)) → Forall (precedes now) ts →
  Closed (λ _, True) (λ _ _, False) (λ p, ∃ k, startTime p = now k)
    (λ st st', timely ts st → timely ts st').
Proof.
  intros Hnow Hts. split; try done.
  - intros st1 st2 st3 H12 H23 Ht. by apply H23, H12.
  - intros st r p p' Hp Hgr [Hs He]. split; [|done].
    intros r' q. simpl. destruct (decide (r = r')) as [<-|Hne].
    + rewrite lookup_insert_eq. intros [= <-].
      rewrite (grows_startTime _ _ Hgr). by eapply Hs.
    + rewrite lookup_insert_ne by done. apply Hs.
  - intros st p c x _ [k Hborn] [Hs He]. split; [|done].
    intros r' q. simpl. destruct (decide (spawned st = r')) as [<-|Hne].
    + rewrite lookup_insert_eq. intros [= <-]. rewrite Hborn.
      split; [done|]. by apply precedes_born.
    + rewrite lookup_insert_ne by done. apply Hs.
Qed.

(** The record of a process that has started at a reading that is at most
    [now] *)
Lemma timely_with_result now st eng e scr err out errout pr p :
  reading now → elapsed_ok st →
  engines st !! eng = Some e →
  reading (startTime p) → (startTime p <=? now)%float = true →
  ∀ q eng' e' r,
    <[eng := set_testsQueue q (with_result e scr err out errout now pr p)]>
      (engines st) !! eng' = Some e' →
    r ∈ testsPassed e' ++ testsFailed e' → (0 <=? extime r)%float = true.
Proof.
  intros Hnow Hok He Hstart Hle q eng' e' r He' Hr.
  destruct (decide (eng = eng')) as [<-|Hne].
  - rewrite lookup_insert_eq in He'. injection He' as <-.
    unfold set_testsQueue in Hr. cbn [testsPassed testsFailed] in Hr.
    assert (r ∈ testsPassed e ++ testsFailed e ∨
            extime r = (now - startTime p)%float) as [Hold| ->];
      [|by eapply Hok|by apply sub_not_negative].
    rewrite elem_of_app.
    unfold with_result in Hr. destruct (passes err p); simpl in Hr;
      rewrite !elem_of_app, list_elem_of_singleton in Hr.
    + destruct Hr as [[Hr| ->]|Hr]; [by left; left|by right|by left; right].
    + destruct Hr as [Hr|[Hr| ->]]; [by left; left|by left; right|by right].
  - rewrite lookup_insert_ne in He' by done. by eapply Hok.
Qed.

Lemma timely_step ev now ts st st' :
  (∀ k, reading (now k)) → Forall (precedes now) ts →
  timely (now :: ts) st → step ev now st = inr (tt, st') →
  timely ts st'.
Proof.
  intros Hnow Hts Ht Hstep.
  pose proof (timely_later _ _ _ Ht) as Ht0.
  destruct (is_completion ev) eqn:Hev.
  - destruct (completion_inv _ _ _ _ Hev Hstep)
      as [->|(eng & scr & err & out & errout & cb & Hrun)]; [done|].
    destruct (handleExecFileResult_cases _ _ _ _ _ _ _ _ _ _ Hrun)
      as (arr & pr & p & e & HP & Hp & He &
          [[Hq ->]|(q & s & child & Hq & Hsp & ->)]).
    all: destruct Ht as [Hs Hok]; destruct (Hs pr p Hp) as [Hstart Hle];
      apply Forall_cons in Hle as [Hle _].
    + split; [apply Ht0|]. intros eng' e' r He' Hr. simpl in He'.
      eapply (timely_with_result (now 0) st eng e scr err out errout pr p
                (Hnow 0) Hok He Hstart (Hle 0) (testsQueue e)); [|done].
      replace (set_testsQueue (testsQueue e) _)
        with (with_result e scr err out errout (now 0) pr p); [done|].
      pose proof (with_result_testsQueue e scr err out errout (now 0) pr p)
        as Hw.
      unfold set_testsQueue. destruct (with_result _ _ _ _ _ _ _ _).
      simpl in *. by subst.
    + split.
      * intros r' q'. simpl. destruct (decide (spawned st = r')) as [<-|Hne].
        -- rewrite lookup_insert_eq. intros [= <-]. simpl.
           split; [done|]. by apply precedes_born.
        -- rewrite lookup_insert_ne by done. apply Ht0.
      * intros eng' e' r He' Hr. simpl in He'.
        by eapply (timely_with_result (now 0) st eng e scr err out errout
                     pr p).
  - by apply (@transits_step_but_completion _ (λ _, True) (λ _ _, False)
                (λ p, ∃ k, startTime p = now k)
                (λ st st', timely ts st → timely ts st')
                (timely_closed now ts Hnow Hts)
                (λ _ _, I) now (λ _ _ _ k, ex_intro _ k eq_refl)
                ev Hev _ _ _ Hstep).
Qed.

Lemma timely_run evs : ∀ st st',
  timely evs.*2 st → clock evs → run evs st = inr (tt, st') →
  elapsed_ok st'.
Proof.
  induction evs as [|[ev now] evs IH]; intros st st' Ht Hclock Hrun.
  - injection Hrun as <-. apply Ht.
  - destruct Hclock as (Hnow & Hle & Hclock). rewrite run_cons in Hrun.
    destruct (step ev now st) as [|[[] st1]] eqn:Hstep; [done|].
    assert (Forall (precedes now) evs.*2) as Hts by by apply Forall_fmap.
    eapply (IH st1); [|done|done].
    by apply (timely_step ev now _ st st1 Hnow Hts Ht Hstep).
Qed.

(** X12.  When what the calls of [performance.now()] yield is finite and not
    negative, and the clock never goes back from one handler to a later
    one, no record gets a negative [extime]: from a state whose processes
    have started at such readings, none after a reading of the events,
    and whose records have no negative elapsed time, every run leaves
    every record of every engine with an elapsed time, as the subtraction
    of the doubles yields it, of 0 or more.  The handler of a completion
    reads the clock for the record before [createProcess] reads it for
    the next child. *)
Theorem elapsed_times_are_not_negative evs st st' :
  (∀ r p, heap st !! r = Some p →
          reading (startTime p) ∧
          Forall (λ ev : event * (nat → float),
                    ∀ k, (startTime p <=? ev.2 k)%float = true) evs) →
  (∀ eng e r, engines st !! eng = Some e →
              r ∈ testsPassed e ++ testsFailed e →
              (0 <=? extime r)%float = true) →
  clock evs →
  run evs st = inr (tt, st') →
  ∀ eng e r, engines st' !! eng = Some e →
             r ∈ testsPassed e ++ testsFailed e →
             (0 <=? extime r)%float = true.
Proof.
  intros Hs Hok Hclock Hrun. eapply (timely_run evs st st'); [|done|done].
  split; [|done]. intros r p Hp. destruct (Hs r p Hp) as [Hr Hall].
  split; [done|]. by apply Forall_fmap.
Qed.

End Clock.

(** ** From the start of a child to its record *)

Section Lifecycle.
Context `{Collaborators}.

Lemma run_app evs1 evs2 st :
  run (evs1 ++ evs2) st =
    match run evs1 st with
    | inl e => inl e
    | inr (_, st1) => run evs2 st1
    end.
Proof.
  revert st. induction evs1 as [|[ev now] evs1 IH]; intros st; [done|].
  simpl app. rewrite !run_cons.
  destruct (step ev now st) as [|[[] st1]]; [done|]. apply IH.
Qed.

Lemma outputs_are_data child chunks (P : ref → Prop) :
  P child →
  Forall (λ ev : event * (nat → float), ∃ c, data_child ev.1 = Some c ∧ P c)
         (outputs child chunks).
Proof.
  intros HP. unfold outputs. apply Forall_forall.
  intros ev (c & -> & _)%list_elem_of_fmap. exists child.
  split; [|done]. simpl. by destruct (c.1.1).
Qed.

(** X13.  A test that runs alone from its start to its close, on an engine
    for which [spawn] returns handles, gets one record, built from its own
    process object: it carries the script as it was handed to
    [createProcess], everything the child wrote on stderr, in order, the
    parsed (on a pass) or flattened (on a failure) text that it wrote on
    stdout, and as elapsed time the double that the subtraction yields of
    what [performance.now()] yielded to [createProcess] from what it yields
    to the handler of the close, which reads it before the next child is
    started. *)
Theorem record_carries_script_output_and_time
    eng scr cb t0 chunks code' signal' t st e handle :
  engines st !! eng = Some e →
  spawn (spawned st) (path e) [scr] = inr handle →
  (∀ s, last (testsQueue e) = Some s →
        ∃ next, spawn (S (spawned st)) (path e) [s] = inr next) →
  let child := spawned st in
  let evs := outputs child chunks in
  ∃ st' e' r,
    run ((CreateProcess eng scr cb, t0) :: evs
           ++ [(Close child code' signal', t)]) st = inr (tt, st') ∧
    engines st' !! eng = Some e' ∧
    (testsPassed e' = testsPassed e ++ [r] ∧ testsFailed e' = testsFailed e ∧
     r_stdout r = parseTestOutput (name e) scr (written child false evs) ∨
     testsFailed e' = testsFailed e ++ [r] ∧ testsPassed e' = testsPassed e ∧
     r_stdout r = replace_newlines (written child false evs)) ∧
    r_script r = scr ∧
    r_stderr r = written child true evs ∧
    extime r = (t 0%nat - t0 0%nat)%float ∧
    cpus (stats r) = child ∧ mems (stats r) = child.
Proof.
  intros He Hhandle Hnext child evs.
  rewrite run_cons. simpl step. rewrite bind_eq.
  rewrite (createProcess_eq _ _ _ _ _ _ _ He Hhandle). simpl.
  set (c0 := Build_Closure _ _ _ _ _). set (st1 := Build_State _ _ _ _ _ _).
  rewrite run_app.
  destruct (run_data evs st1) as (st2 & -> & HP & Hh & Heng & _ & Hsp & Hbuf).
  { apply outputs_are_data. simpl. by rewrite lookup_insert_eq. }
  destruct (Hbuf child c0) as (c' & Hc' & Hce & Hcs & Hcc & Hout & Herr);
    [apply lookup_insert_eq|].
  rewrite run_cons. simpl step.
  rewrite (on_close_eq _ _ _ _ _ _ _ Hc'), Hce, Hcs, Hcc, Hout, Herr.
  unfold c0. cbn [c_engine c_script c_callback c_stdout c_stderr].
  change ("" +:+ ?s) with s.
  assert (heap st2 !! child = Some (new_process e handle scr (t0 0))) as Hp
    by (rewrite Hh; apply lookup_insert_eq).
  destruct (handle_result eng scr (end_result_of_close code' signal')
              (written child false evs) (written child true evs) cb (t 0) (t 1) st2
              (PROCESSES st) child (new_process e handle scr (t0 0)) e)
    as (st' & Hrun & He' & _);
    [by rewrite HP|done|by rewrite Heng|by intros s Hs; rewrite Hsp; apply Hnext|].
  rewrite Hrun. exists st'. eexists.
  exists (if passes (end_result_of_close code' signal')
               (new_process e handle scr (t0 0))
          then success_record e scr (written child false evs)
                 (written child true evs) (t 0) child (new_process e handle scr (t0 0))
          else failure_record scr (written child false evs)
                 (written child true evs) (t 0) child (new_process e handle scr (t0 0))).
  split; [done|]. split; [done|].
  unfold set_testsQueue. cbn [testsPassed testsFailed].
  destruct (passes _ _) eqn:Hpass.
  - destruct (with_result_passed e scr (end_result_of_close code' signal')
                (written child false evs) (written child true evs) (t 0) child
                (new_process e handle scr (t0 0)) Hpass) as [-> ->].
    split; [by left|done].
  - destruct (with_result_failed e scr (end_result_of_close code' signal')
                (written child false evs) (written child true evs) (t 0) child
                (new_process e handle scr (t0 0)) Hpass) as [-> ->].
    split; [by right|done].
Qed.

(** X14.  Once the monitor has flagged a process, whatever events follow,
    the completion that pops it never records an error status: its record
    is a [timeout] on [testsFailed], or, when the end result is null and
    the verdict accepts the handle, a [success] on [testsPassed]. *)
Theorem flagged_process_is_never_recorded_as_error evs st st1 p pr :
  reachable st →
  heap st !! p = Some pr →
  isTimedOut pr = true →
  run evs st = inr (tt, st1) →
  ∀ eng scr err out errout cb now later arr e,
    PROCESSES st1 = arr ++ [p] →
    engines st1 !! eng = Some e →
    spawns_next st1 e →
    ∃ st' e' r,
      handleExecFileResult eng scr err out errout cb now later st1 = inr (tt, st') ∧
      engines st' !! eng = Some e' ∧
      (testsPassed e' = testsPassed e ++ [r] ∧ status r = "success" ∨
       testsFailed e' = testsFailed e ++ [r] ∧ status r = "timeout").
Proof.
  intros Hst%reachable_fresh Hp Hflag Hrun eng scr err out errout cb now later
    arr e HP He Hsp.
  destruct (transits_run (λ _, True) (λ _ _, True) (λ _, True) ages evs
              (λ _, I) (λ _ _ _, I) (λ _, I) _ _ _ Hrun Hst)
    as [_ Hgrow].
  destruct (Hgrow p pr Hp) as (p1 & Hp1 & Hgr).
  pose proof (grows_isTimedOut _ _ Hgr Hflag) as Hflag1.
  destruct (handle_result eng scr err out errout cb now later _ _ _ _ _ HP Hp1 He Hsp)
    as (st' & Hrun' & He' & _).
  exists st'. eexists.
  exists (if passes err p1 then success_record e scr out errout now p p1
          else failure_record scr out errout now p p1).
  split; [done|]. split; [done|].
  unfold set_testsQueue. cbn [testsPassed testsFailed].
  destruct (passes err p1) eqn:Hpass.
  - left. by rewrite (proj1 (with_result_passed e scr err out errout now p
                               p1 Hpass)).
  - right. rewrite (proj1 (with_result_failed e scr err out errout now p
                             p1 Hpass)).
    split; [done|]. simpl. by rewrite Hflag1.
Qed.

(** X15.  A tick goes through [PROCESSES] once, in order, and reads the
    clock for each element: its effects are, process by process, one query
    or one kill for a process that the liveness predicate accepts (a query
    when the double [performance.now() - cp.startTime], with the reading
    [now i] for the element of index [i], is below [TIMEOUT], a kill
    otherwise) and nothing for the others.  It leaves [PROCESSES], the
    engines, the closures and the samples, start times and names of every
    process as they are. *)
Theorem tick_goes_through_PROCESSES_in_order TIMEOUT now st :
  reachable st →
  ∃ st',
    tick TIMEOUT now st = inr (tt, st') ∧
    trace st' = trace st ++
      concat (imap (λ i cp,
        match heap st !! cp with
        | Some p =>
            if checkIfProcessExists (childProcess p) then
              if (now i - startTime p <? TIMEOUT)%float
              then [PidusageTree cp]
              else [KillProcess cp (script p +:+ " timeout")]
            else []
        | None => []
        end) (PROCESSES st)) ∧
    PROCESSES st' = PROCESSES st ∧ engines st' = engines st ∧
    closures st' = closures st ∧ spawned st' = spawned st ∧
    ∀ r p, heap st !! r = Some p →
      ∃ p', heap st' !! r = Some p' ∧
            cpuVals p' = cpuVals p ∧ memVals p' = memVals p ∧
            startTime p' = startTime p ∧ script p' = script p ∧
            engine p' = engine p.
Proof.
  intros Hwf%reachable_wf. destruct Hwf as [_ Hnd Hbound Hheap _].
  destruct (forEach_monitor TIMEOUT (PROCESSES st) now st Hnd)
    as (h & Hrun & Hin & Hout); [by intros r Hr%Hbound%Hheap|].
  eexists. split; [unfold tick; by rewrite bind_eq|]. simpl.
  split; [done|]. repeat (split; [done|]).
  intros r p Hp. destruct (decide (r ∈ PROCESSES st)) as [Hr|Hr].
  - apply list_elem_of_lookup in Hr as [i Hi].
    rewrite (Hin i r Hi), Hp. unfold monitored. simpl.
    destruct (_ && _); eexists; by split.
  - rewrite (Hout r Hr). by exists p.
Qed.

End Lifecycle.

(** ** The scripts under test *)

Lemma substring_whole (s : string) :
  String.substring 0 (String.length s) s = s.
Proof. induction s as [|c s IH]; simpl; [done|by rewrite IH]. Qed.

Lemma slice_1_cons c (s : string) : slice 1 (String c s) = s.
Proof.
  unfold slice. rewrite bool_decide_eq_false_2 by lia.
  cbn [String.length].
  replace (Z.to_nat (Z.min 1 (Z.of_nat (S (String.length s))))) with 1 by lia.
  replace (Z.to_nat (Z.max (Z.of_nat (S (String.length s)) -
             Z.min 1 (Z.of_nat (S (String.length s)))) 0))
    with (String.length s) by lia.
  simpl. apply substring_whole.
Qed.

(** X16.  The function of [sliced_strings.slice1.js] gives back the string
    it is given, and the one of [sliced_strings.slice1_enhanced.js], which
    skips the slice on strings shorter than 12, gives the same result on
    every string. *)
Theorem clear_with_slice_gives_the_string_back (str : string) :
  clear_with_slice str = str ∧
  clear_with_slice_checked str = clear_with_slice str.
Proof.
  assert (clear_with_slice str = str) as Hs
    by (unfold clear_with_slice; apply slice_1_cons).
  split; [done|]. unfold clear_with_slice_checked.
  case_bool_decide; [by rewrite Hs|done].
Qed.


(** ** The further statements at work on the sample runs *)

Section MoreWitnesses.
#[local] Existing Instance sample.




(** Both engines at work: the next process gets the reference 2.  On an
    engine without a path, [spawn] throws and so does [createProcess] *)
Lemma createProcess_registers_a_new_process_witness :
  let st := after both_started two_engines in
  reachable st ∧
  (∃ st' p,
    createProcess 0 "tests/c.js" 7 50 st = inr (2, st') ∧
    PROCESSES st' = [0; 1; 2] ∧
    heap st' !! 2 = Some p ∧ script p = "c.js" ∧ cpuVals p = [] ∧
    pid (childProcess p) = Some 1002) ∧
  createProcess 0 "tests/a.js" 7 0 one_unset
    = inl (Thrown "ERR_INVALID_ARG_VALUE").
Proof.
  intros st.
  assert (reachable st) as Hst
    by (apply (reachable_after both_started
                 (<[0 := engine_v8]> (<[1 := engine_jsc]> ∅)));
        vm_compute; reflexivity).
  split; [exact Hst|]. split.
  - destruct (createProcess_registers_a_new_process 0 "tests/c.js" 7 50 st
                engine_v8 Hst eq_refl) as [_ Hreturns].
    destruct (Hreturns {| pid := Some 1002; exitCode := None;
                          signalCode := None; killed := false |} eq_refl)
      as (st' & p & c & Hrun & HP & _ & _ & Hp & Hscript & _ & Hchild & _
          & Hcpu & _).
    exists st', p. split; [exact Hrun|]. split; [exact HP|].
    split; [exact Hp|]. split; [exact Hscript|]. split; [exact Hcpu|].
    rewrite Hchild. reflexivity.
  - destruct (createProcess_registers_a_new_process 0 "tests/a.js" 7 0
                one_unset engine_unset (reachable_initial _) eq_refl)
      as [Hthrows _].
    apply Hthrows. reflexivity.
Defined.

(** With both processes registered the handler returns and pops the
    last one; on the empty [PROCESSES] of the start it throws *)
Lemma completion_returns_iff_a_process_is_registered_witness :
  let st := after both_started two_engines in
  reachable st ∧
  (∃ st', handleExecFileResult 0 "tests/a.js" None "" "" 7 10 10 st
            = inr (tt, st') ∧ PROCESSES st' = [0]) ∧
  handleExecFileResult 0 "tests/a.js" None "" "" 7 10 10 one_v8
    = inl (TypeError "cpuVals").
Proof.
  intros st.
  assert (reachable st) as Hst
    by (apply (reachable_after both_started
                 (<[0 := engine_v8]> (<[1 := engine_jsc]> ∅)));
        vm_compute; reflexivity).
  split; [exact Hst|]. split.
  - destruct (completion_returns_iff_a_process_is_registered
                0 "tests/a.js" None "" "" 7 10 10 st engine_v8 Hst eq_refl)
      as (_ & _ & Hsome).
    destruct Hsome as (st' & e' & Hrun & _ & _ & _ & _ & HP);
      [discriminate|intros s Hs; discriminate Hs|].
    exists st'. split; [exact Hrun|exact HP].
  - destruct (completion_returns_iff_a_process_is_registered
                0 "tests/a.js" None "" "" 7 10 10 one_v8 engine_v8
                (reachable_initial _) eq_refl) as [Hnone _].
    apply Hnone. reflexivity.
Defined.

(** What the two children write ends up in their own buffers *)
Lemma streams_accumulate_per_child_witness :
  let st := after both_started two_engines in
  ∃ st' c0 c1,
    run chatter st = inr (tt, st') ∧
    closures st' !! 0 = Some c0 ∧ c_stdout c0 = "ac" ∧ c_stderr c0 = "x" ∧
    closures st' !! 1 = Some c1 ∧ c_stdout c1 = "b" ∧ c_stderr c1 = "".
Proof.
  intros st.
  destruct (streams_accumulate_per_child chatter st)
    as (st' & Hrun & _ & _ & _ & _ & _ & Hbuf).
  { repeat constructor; eexists; (split; [reflexivity|]);
      vm_compute; eexists; reflexivity. }
  edestruct (Hbuf 0) as (c0 & Hc0 & _ & _ & _ & Hout0 & Herr0);
    [vm_compute; reflexivity|].
  edestruct (Hbuf 1) as (c1 & Hc1 & _ & _ & _ & Hout1 & Herr1);
    [vm_compute; reflexivity|].
  exists st', c0, c1. split; [exact Hrun|].
  split; [exact Hc0|]. split; [exact Hout0|]. split; [exact Herr0|].
  split; [exact Hc1|]. split; [exact Hout1|exact Herr1].
Defined.


(** An error of the query for the child of [v8]: the engines stay, and
    [PROCESSES] only loses *)
Lemma pidUsageCallback_touches_one_process_witness :
  let st := after both_started two_engines in
  let st' := after (both_started ++ [(Usage 0 (Some "EPERM") [], steady 5)])
               two_engines in
  pidUsageCallback (Some "EPERM") [] 0 st = inr (tt, st') ∧
  engines st' = engines st ∧
  PROCESSES st' `sublist_of` PROCESSES st ∧
  heap st' !! 1 = heap st !! 1.
Proof.
  intros st st'.
  assert (pidUsageCallback (Some "EPERM") [] 0 st = inr (tt, st')) as Hrun
    by (vm_compute; reflexivity).
  split; [exact Hrun|].
  destruct (pidUsageCallback_touches_one_process _ _ _ _ _ Hrun)
    as (He & _ & _ & HP & Hh & _).
  split; [exact He|]. split; [exact HP|]. apply Hh. discriminate.
Defined.

(** The flagged child is sampled, killed again and ended by a signal: its
    flag is still set, its name unchanged *)
Lemma process_objects_only_grow_witness :
  let st := after timed_out one_v8 in
  let st' := after flagged_then_busy st in
  reachable st ∧
  run flagged_then_busy st = inr (tt, st') ∧
  ∃ p', heap st' !! 0 = Some p' ∧ script p' = "slow.js" ∧
        isTimedOut p' = true.
Proof.
  intros st st'.
  assert (reachable st) as Hst
    by (apply (reachable_after timed_out (<[0 := engine_v8]> ∅));
        vm_compute; reflexivity).
  assert (run flagged_then_busy st = inr (tt, st')) as Hrun
    by (vm_compute; reflexivity).
  split; [exact Hst|]. split; [exact Hrun|].
  edestruct (process_objects_only_grow flagged_then_busy st st' Hst Hrun 0)
    as (p' & Hp' & Hscript & _ & _ & _ & _ & Hflag);
    [vm_compute; reflexivity|].
  exists p'. split; [exact Hp'|]. split; [exact Hscript|].
  apply Hflag. reflexivity.
Defined.

(** The engine with two scripts queued, run to its end: its name stays,
    its queue is a prefix of the one it had *)
Lemma engines_only_grow_witness :
  let st' := after three_closes one_queued in
  run three_closes one_queued = inr (tt, st') ∧
  ∃ e', engines st' !! 0 = Some e' ∧ name e' = "v8" ∧
        testsQueue e' `prefix_of` ["tests/a.js"; "tests/b.js"].
Proof.
  intros st'.
  assert (run three_closes one_queued = inr (tt, st')) as Hrun
    by (vm_compute; reflexivity).
  split; [exact Hrun|].
  destruct (engines_only_grow three_closes one_queued st' Hrun 0
              engine_queued eq_refl)
    as (e' & He' & Hname & _ & _ & _ & Hq).
  exists e'. split; [exact He'|]. split; [exact Hname|exact Hq].
Defined.

(** A tick leaves the engines as they are *)
Lemma only_completion_changes_engines_witness :
  let st := after both_started two_engines in
  let st' := after (both_started ++ [(Tick 5000, steady 500)]) two_engines in
  step (Tick 5000) (steady 500) st = inr (tt, st') ∧ engines st' = engines st.
Proof.
  intros st st'.
  assert (step (Tick 5000) (steady 500) st = inr (tt, st')) as Hstep
    by (vm_compute; reflexivity).
  split; [exact Hstep|].
  exact (only_completion_changes_engines (Tick 5000) (steady 500) st st' eq_refl Hstep).
Defined.

(** The close of the only child of [v8], whose queue is empty: one call of
    the callback *)
Lemma callback_only_on_empty_queue_witness :
  let st := after (exits_with 0) one_v8 in
  let st' := after (exits_with 0 ++ [(Close 0 (Some 0%Z) None, steady 9)]) one_v8 in
  step (Close 0 (Some 0%Z) None) (steady 9) st = inr (tt, st') ∧
  ∃ new, trace st' = trace st ++ new ∧
         (Callback 7 0 ∈ new →
          new = [Callback 7 0] ∧
          ∃ e', engines st' !! 0 = Some e' ∧ testsQueue e' = []).
Proof.
  intros st st'.
  assert (step (Close 0 (Some 0%Z) None) (steady 9) st = inr (tt, st')) as Hstep
    by (vm_compute; reflexivity).
  split; [exact Hstep|].
  destruct (callback_only_on_empty_queue _ _ _ _ Hstep)
    as (new & Htr & _ & Hcb).
  exists new. split; [exact Htr|]. apply Hcb.
Defined.

(** The running child of [jsc] was popped by the close of [v8]'s: the
    error of its query takes the process of [v8] out *)
Lemma query_error_for_popped_process_removes_the_last_witness :
  let st := after crossed_over two_engines in
  PROCESSES st = [0] ∧
  ∃ st', pidUsageCallback (Some "EPERM") [] 1 st = inr (tt, st') ∧
         PROCESSES st' = [].
Proof.
  intros st. split; [reflexivity|].
  edestruct (query_error_for_popped_process_removes_the_last st 1)
    with (e := "EPERM") (stats := @nil (num * num))
    as (st' & Hrun & HP & _).
  - vm_compute. reflexivity.
  - reflexivity.
  - intros Hin. apply list_elem_of_singleton in Hin. discriminate.
  - intros cp c Hin Hc. apply list_elem_of_singleton in Hin. subst cp.
    vm_compute in Hc. injection Hc as <-. vm_compute. discriminate.
  - exists st'. split; [exact Hrun|exact HP].
Defined.

(** A record from two samples: the minimum is not above the maximum *)
Lemma record_extrema_order_witness :
  let st := after sampled_twice one_v8 in
  PROCESSES st = [] ++ [0] ∧
  ∃ st' e' r,
    handleExecFileResult 0 "tests/a.js" None "" "" 7 1500 1500 st = inr (tt, st') ∧
    engines st' !! 0 = Some e' ∧
    (testsPassed e' = [r] ∨ testsFailed e' = [r]) ∧
    num_lt (maxCPU (stats r)) (minCPU (stats r)) = false ∧
    num_lt (maxMem (stats r)) (minMem (stats r)) = false.
Proof.
  intros st. split; [reflexivity|].
  edestruct (record_extrema_order 0 "tests/a.js" None "" "" 7 1500 1500 st [] 0)
    as (st' & e' & r & Hrun & He' & Hwhere & Hcpu & _ & _ & Hmem & _);
    [reflexivity|vm_compute; reflexivity|vm_compute; reflexivity
    |intros s Hs; discriminate Hs|].
  exists st', e', r. split; [exact Hrun|]. split; [exact He'|].
  split; [destruct Hwhere as [[? _]|[? _]]; [left|right]; assumption|].
  split.
  - apply Hcpu; [discriminate|].
    intros Hin. apply elem_of_cons in Hin as [Hin|Hin]; [discriminate|].
    apply list_elem_of_singleton in Hin. discriminate.
  - apply Hmem; [discriminate|].
    intros Hin. apply elem_of_cons in Hin as [Hin|Hin]; [discriminate|].
    apply list_elem_of_singleton in Hin. discriminate.
Defined.

(** A child started at the reading 0.2 and closed at the reading 5000.2:
    its record has an elapsed time of 5000, which is not negative *)
Lemma elapsed_times_are_not_negative_witness :
  let evs := started_at_0_2 ++
             [ (Exited 0 (Some 0%Z) None, steady 3000.5);
               (Close 0 (Some 0%Z) None, steady reading_5000_2) ] in
  let st' := after evs one_v8 in
  clock evs ∧
  run evs one_v8 = inr (tt, st') ∧
  ∃ e' r, engines st' !! 0 = Some e' ∧ testsPassed e' = [r] ∧
          extime r = 5000%float ∧ (0 <=? extime r)%float = true.
Proof.
  intros evs st'.
  assert (clock evs) as Hclock
    by (repeat first [split | constructor | intros ?]; reflexivity).
  assert (run evs one_v8 = inr (tt, st')) as Hrun by (vm_compute; reflexivity).
  split; [exact Hclock|]. split; [exact Hrun|].
  assert (∀ r p, heap one_v8 !! r = Some p →
            reading (startTime p) ∧
            Forall (λ ev : event * (nat → float),
                      ∀ k, (startTime p <=? ev.2 k)%float = true) evs)
    as Hheap.
  { intros r p Hp. unfold one_v8, initial in Hp. simpl in Hp.
    rewrite lookup_empty in Hp. discriminate. }
  assert (∀ eng e r, engines one_v8 !! eng = Some e →
            r ∈ testsPassed e ++ testsFailed e →
            (0 <=? extime r)%float = true) as Hrec.
  { intros eng e r He Hr. unfold one_v8, initial in He. simpl in He.
    apply lookup_insert_Some in He as [[_ <-]|[_ He]];
      [apply elem_of_nil in Hr; contradiction|].
    rewrite lookup_empty in He. discriminate. }
  pose proof (elapsed_times_are_not_negative evs one_v8 st'
                Hheap Hrec Hclock Hrun) as Hall.
  eexists _, _. split; [vm_compute; reflexivity|]. split; [reflexivity|].
  split; [reflexivity|].
  eapply (Hall 0); [vm_compute; reflexivity|].
  exact (list_elem_of_here _ _).
Defined.

(** A child that writes on both streams and closes: the record has the
    script, the text of stderr and the time from start to close *)
Lemma record_carries_script_output_and_time_witness :
  engines one_v8 !! 0 = Some engine_v8 ∧
  ∃ st' e' r,
    run ((CreateProcess 0 "tests/a.js" 7, steady 1)
         :: outputs 0 [(false, "out", 2%float); (true, "err", 3%float);
                       (true, "or", 4%float)]
         ++ [(Close 0 (Some 2%Z) None, steady 10)]) one_v8 = inr (tt, st') ∧
    engines st' !! 0 = Some e' ∧
    (testsPassed e' = [r] ∨ testsFailed e' = [r]) ∧
    r_script r = "tests/a.js" ∧ r_stderr r = "error" ∧
    extime r = 9%float.
Proof.
  split; [reflexivity|].
  edestruct (record_carries_script_output_and_time 0 "tests/a.js" 7 (steady 1)
               [(false, "out", 2%float); (true, "err", 3%float);
                (true, "or", 4%float)]
               (Some 2%Z) None (steady 10) one_v8 engine_v8)
    as (st' & e' & r & Hrun & He' & Hwhere & Hs & Herr & Ht & _);
    [reflexivity|vm_compute; reflexivity|intros s Hs; discriminate Hs|].
  exists st', e', r. split; [exact Hrun|]. split; [exact He'|].
  split; [destruct Hwhere as [(? & _)|(? & _)]; [left|right]; assumption|].
  split; [exact Hs|]. split; [exact Herr|exact Ht].
Defined.

(** The flagged child, whatever came after: a failing completion records
    [timeout] *)
Lemma flagged_process_is_never_recorded_as_error_witness :
  let st := after timed_out one_v8 in
  let st1 := after flagged_then_busy st in
  reachable st ∧
  run flagged_then_busy st = inr (tt, st1) ∧
  ∃ st' e' r,
    handleExecFileResult 0 "tests/slow.js"
      (end_result_of_close None (Some "SIGTERM")) "late" "" 7 2700 2700 st1
      = inr (tt, st') ∧
    engines st' !! 0 = Some e' ∧
    (testsPassed e' = [r] ∧ status r = "success" ∨
     testsFailed e' = [r] ∧ status r = "timeout").
Proof.
  intros st st1.
  assert (reachable st) as Hst
    by (apply (reachable_after timed_out (<[0 := engine_v8]> ∅));
        vm_compute; reflexivity).
  assert (run flagged_then_busy st = inr (tt, st1)) as Hrun
    by (vm_compute; reflexivity).
  split; [exact Hst|]. split; [exact Hrun|].
  edestruct (flagged_process_is_never_recorded_as_error flagged_then_busy
               st st1 0) with (arr := @nil nat) (eng := 0) (e := engine_v8)
    as (st' & e' & r & Hrun' & He' & Hwhere);
    [exact Hst|vm_compute; reflexivity|reflexivity|exact Hrun
    |reflexivity|reflexivity|intros s Hs; discriminate Hs|].
  exists st', e', r. split; [exact Hrun'|]. split; [exact He'|exact Hwhere].
Defined.

(** A tick over two running children: two queries, in the order of
    [PROCESSES].  A tick that reads 4999.5 for the first child, started at
    0, and 5001.5 for the second, started at 1: the first is queried and
    the second killed *)
Lemma tick_goes_through_PROCESSES_in_order_witness :
  let st := after both_started two_engines in
  reachable st ∧
  (∃ st', tick 5000 (steady 500) st = inr (tt, st') ∧
          trace st' = trace st ++ [PidusageTree 0; PidusageTree 1] ∧
          PROCESSES st' = [0; 1]) ∧
  ∃ st', tick 5000 (first_then 4999.5 5001.5) st = inr (tt, st') ∧
         trace st' = trace st ++
                       [PidusageTree 0; KillProcess 1 "b.js timeout"] ∧
         PROCESSES st' = [0; 1].
Proof.
  intros st.
  assert (reachable st) as Hst
    by (apply (reachable_after both_started
                 (<[0 := engine_v8]> (<[1 := engine_jsc]> ∅)));
        vm_compute; reflexivity).
  split; [exact Hst|]. split.
  - destruct (tick_goes_through_PROCESSES_in_order 5000 (steady 500) st Hst)
      as (st' & Hrun & Htr & HP & _).
    exists st'. split; [exact Hrun|]. split; [exact Htr|exact HP].
  - destruct (tick_goes_through_PROCESSES_in_order 5000
                (first_then 4999.5 5001.5) st Hst)
      as (st' & Hrun & Htr & HP & _).
    exists st'. split; [exact Hrun|]. split; [exact Htr|exact HP].
Defined.

End MoreWitnesses.
